(** * standard_name_helper.py: change detection between two standard-name catalogs

    A shallow embedding of [src/standard_name_helper.py] together with the
    parts of the Python runtime and of [difflib] that the script calls.

    Conventions.
    - The script is Python 2 code ([dict.keys() + dict.keys()], [input]
      used to read a number); a [str] is a byte string, modelled by
      [string] (a list of [ascii]).
    - An exception is a value of [exn]; code that can raise lives in the
      error monad [result].
    - [difflib] scores are doubles [2.0*M/T]; every test the script makes on
      them (against the cutoffs 0.0, 0.5 and 0.7, and between two scores)
      has the same outcome on the exact rationals for names shorter than
      2^25 characters, so scores are modelled in [Q].
    - What the functions print is left out, except for the diagnostics of
      [parse_change_file] and the report of [check_unknown_vars].
    - The files are a map from paths to texts, the paths compared as
      strings.  The regular expressions, the JSON encoding and
      [create_XML] are parameters of the functions that use them. *)

From Stdlib Require Import List String Ascii Bool Arith ZArith QArith Lia.
From Stdlib Require Import DecimalString OrdersEx Lqa.
Import ListNotations.
Local Close Scope Q_scope.
Local Open Scope string_scope.
Local Open Scope list_scope.
Local Open Scope nat_scope.

(* ===================================================================== *)
(** * Python built-ins *)
(* ===================================================================== *)

Module Py.

Inductive exn : Type :=
| ValueError
| IndexError
| EOFError.

Inductive result (A : Type) : Type :=
| Ok (a : A)
| Raise (e : exn).
Arguments Ok {A} a.
Arguments Raise {A} e.

Definition bind {A B} (m : result A) (k : A -> result B) : result B :=
  match m with
  | Ok a => k a
  | Raise e => Raise e
  end.

(** [for x in xs: st = body(st, x)], stopping at the first exception. *)
Fixpoint for_each {S X} (body : S -> X -> result S) (xs : list X) (st : S)
  : result S :=
  match xs with
  | [] => Ok st
  | x :: xs' => bind (body st x) (for_each body xs')
  end.

(** Truth value of a [str]: non-empty. *)
Definition truthy (s : string) : bool :=
  match s with
  | EmptyString => false
  | String _ _ => true
  end.

(** [sub in s] *)
Fixpoint str_in (sub s : string) : bool :=
  String.prefix sub s
  || match s with
     | EmptyString => false
     | String _ s' => str_in sub s'
     end.

(** [s.split(sep)] for a one-character separator. *)
Fixpoint str_split (sep : ascii) (s : string) : list string :=
  match s with
  | EmptyString => [EmptyString]
  | String c s' =>
      if Ascii.eqb c sep then EmptyString :: str_split sep s'
      else match str_split sep s' with
           | [] => [String c EmptyString]
           | w :: ws => String c w :: ws
           end
  end.

Definition lower_ascii (c : ascii) : ascii :=
  let n := N_of_ascii c in
  if (65 <=? n)%N && (n <=? 90)%N then ascii_of_N (n + 32) else c.

(** [s.lower()] *)
Fixpoint str_lower (s : string) : string :=
  match s with
  | EmptyString => EmptyString
  | String c s' => String (lower_ascii c) (str_lower s')
  end.

(** [s[0]] as a one-character string. *)
Definition str_first (s : string) : result string :=
  match s with
  | EmptyString => Raise IndexError
  | String c _ => Ok (String c EmptyString)
  end.

(** [l[i]] *)
Definition list_index {A} (l : list A) (i : nat) : result A :=
  match nth_error l i with
  | Some x => Ok x
  | None => Raise IndexError
  end.

(** [l.remove(x)]: delete the first element equal to [x]. *)
Fixpoint list_remove {A B} (eqb : A -> B -> bool) (x : B) (l : list A)
  : result (list A) :=
  match l with
  | [] => Raise ValueError
  | y :: l' =>
      if eqb y x then Ok l'
      else bind (list_remove eqb x l') (fun r => Ok (y :: r))
  end.

(** [x in l] *)
Definition list_in {A B} (eqb : A -> B -> bool) (x : B) (l : list A) : bool :=
  existsb (fun y => eqb y x) l.

(** What the operator can enter at a prompt: Python 2 [input] evaluates
    the typed text, so an entry is a number or some other value. *)
Inductive pyval : Type :=
| PInt (z : Z)
| PStr (s : string).

(** [range(n)] *)
Definition range (n : nat) : list Z := map Z.of_nat (seq 0 n).

(** [v in choices] for a list of integers: a string equals no integer. *)
Definition val_in (v : pyval) (choices : list Z) : bool :=
  match v with
  | PInt z => existsb (Z.eqb z) choices
  | PStr _ => false
  end.

(** [int(v)] for the values [get_choice] can return. *)
Definition int (v : pyval) : result Z :=
  match v with
  | PInt z => Ok z
  | PStr _ => Raise ValueError
  end.

End Py.
Import Py.

Notation "x <- m ;; k" := (Py.bind m (fun x => k))
  (at level 61, m at next level, right associativity).

Definition dquote : ascii := ascii_of_nat 34.
Definition newline : ascii := ascii_of_nat 10.

(* ===================================================================== *)
(** * difflib *)
(* ===================================================================== *)

Module Difflib.

Section SequenceMatcher.
Context {A : Type} (eqb : A -> A -> bool).

(** ** [__chain_b]: where each element occurs in [b], with the
    elements that are too popular in a long [b] left out. *)

Fixpoint indices_from (x : A) (b : list A) (j : nat) : list nat :=
  match b with
  | [] => []
  | y :: b' =>
      if eqb y x then j :: indices_from x b' (S j)
      else indices_from x b' (S j)
  end.

Definition popular (b : list A) (x : A) : bool :=
  (200 <=? List.length b)
  && (List.length b / 100 + 1 <? List.length (indices_from x b 0)).

(** [b2j.get(x, [])] *)
Definition b2j (b : list A) (x : A) : list nat :=
  if popular b x then [] else indices_from x b 0.

(** ** [find_longest_match] *)

Definition Match : Type := (nat * nat * nat)%type.

(** [j2len.get(j - 1, 0)] *)
Definition j2len_prev (j2len : list (nat * nat)) (j : nat) : nat :=
  match j with
  | 0 => 0
  | S j' =>
      match find (fun p => fst p =? j') j2len with
      | Some p => snd p
      | None => 0
      end
  end.

(** The inner loop [for j in b2j.get(a[i], nothing)]. *)
Fixpoint scan_js (i blo bhi : nat) (j2len : list (nat * nat))
  (js : list nat) (best : Match) (newj2len : list (nat * nat))
  : Match * list (nat * nat) :=
  match js with
  | [] => (best, newj2len)
  | j :: js' =>
      if j <? blo then scan_js i blo bhi j2len js' best newj2len
      else if bhi <=? j then (best, newj2len)
      else
        let k := j2len_prev j2len j + 1 in
        let best' :=
          let '(_, _, bestsize) := best in
          if bestsize <? k then (i + 1 - k, j + 1 - k, k) else best in
        scan_js i blo bhi j2len js' best' ((j, k) :: newj2len)
  end.

(** The outer loop [for i in range(alo, ahi)], over [a[alo:ahi]]. *)
Fixpoint scan_is (b : list A) (blo bhi : nat) (ai : list A) (i : nat)
  (best : Match) (j2len : list (nat * nat)) : Match :=
  match ai with
  | [] => best
  | x :: ai' =>
      let '(best', newj2len) :=
        scan_js i blo bhi j2len (b2j b x) best [] in
      scan_is b blo bhi ai' (S i) best' newj2len
  end.

Definition same_at (a b : list A) (i j : nat) : bool :=
  match nth_error a i, nth_error b j with
  | Some x, Some y => eqb x y
  | _, _ => false
  end.

(** First [while]: extend the match to the left. *)
Fixpoint extend_left (fuel : nat) (a b : list A) (alo blo : nat)
  (best : Match) : Match :=
  let '(besti, bestj, bestsize) := best in
  match fuel with
  | 0 => best
  | S fuel' =>
      if (alo <? besti) && (blo <? bestj)
         && same_at a b (besti - 1) (bestj - 1)
      then extend_left fuel' a b alo blo
             (besti - 1, bestj - 1, bestsize + 1)
      else best
  end.

(** Second [while]: extend the match to the right. *)
Fixpoint extend_right (fuel : nat) (a b : list A) (ahi bhi : nat)
  (best : Match) : Match :=
  let '(besti, bestj, bestsize) := best in
  match fuel with
  | 0 => best
  | S fuel' =>
      if (besti + bestsize <? ahi) && (bestj + bestsize <? bhi)
         && same_at a b (besti + bestsize) (bestj + bestsize)
      then extend_right fuel' a b ahi bhi (besti, bestj, bestsize + 1)
      else best
  end.

(** [SequenceMatcher(None, a, b).find_longest_match(alo, ahi, blo, bhi)].
    No element is junk ([isjunk] is [None]), so the last two [while]
    loops of the function, which only step over junk, do nothing.  The
    first two end within the fuel given here ([extend_left_fuel],
    [extend_right_fuel]). *)
Definition find_longest_match (a b : list A) (alo ahi blo bhi : nat)
  : Match :=
  let best :=
    scan_is b blo bhi (firstn (ahi - alo) (skipn alo a)) alo
      (alo, blo, 0) [] in
  let best := extend_left (fst (fst best)) a b alo blo best in
  extend_right ahi a b ahi bhi best.

(** ** [get_matching_blocks]

    The function keeps a stack of regions still to be searched and
    sorts the blocks it found at the end.  The regions are disjoint and
    ordered, so the recursion below, left region first, lists the same
    blocks already sorted.  A region of [a] shrinks at every level, so
    [fuel] above the length of [a] is never used up ([blocks_fuel]). *)
Fixpoint blocks (fuel : nat) (a b : list A) (alo ahi blo bhi : nat)
  : list Match :=
  match fuel with
  | 0 => []
  | S fuel' =>
      let '(i, j, k) := find_longest_match a b alo ahi blo bhi in
      if k =? 0 then []
      else
        (if (alo <? i) && (blo <? j)
         then blocks fuel' a b alo i blo j else [])
        ++ (i, j, k)
        :: (if (i + k <? ahi) && (j + k <? bhi)
            then blocks fuel' a b (i + k) ahi (j + k) bhi else [])
  end.

(** Collapse adjacent blocks; [cur] is [(i1, j1, k1)]. *)
Fixpoint collapse (cur : Match) (bs : list Match) : list Match :=
  let '(i1, j1, k1) := cur in
  match bs with
  | [] => if k1 =? 0 then [] else [cur]
  | (i2, j2, k2) :: bs' =>
      if (i1 + k1 =? i2) && (j1 + k1 =? j2)
      then collapse (i1, j1, k1 + k2) bs'
      else (if k1 =? 0 then [] else [cur]) ++ collapse (i2, j2, k2) bs'
  end.

Definition get_matching_blocks (a b : list A) : list Match :=
  let la := List.length a in
  let lb := List.length b in
  collapse (0, 0, 0) (blocks (S la) a b 0 la 0 lb) ++ [(la, lb, 0)].

(** ** Ratios *)

(** [_calculate_ratio(matches, length)] *)
Definition calculate_ratio (matches total : nat) : Q :=
  match total with
  | 0 => 1%Q
  | S _ => ((2 * Z.of_nat matches) # (Pos.of_nat total))%Q
  end.

Definition ratio (a b : list A) : Q :=
  let matches :=
    fold_left (fun acc (m : Match) => acc + snd m)
      (get_matching_blocks a b) 0 in
  calculate_ratio matches (List.length a + List.length b).

Fixpoint remove_one (x : A) (l : list A) : list A :=
  match l with
  | [] => []
  | y :: l' => if eqb y x then l' else y :: remove_one x l'
  end.

(** How many elements of [a] find a partner of their own in [b]. *)
Fixpoint quick_matches (a avail : list A) : nat :=
  match a with
  | [] => 0
  | x :: a' =>
      if existsb (fun y => eqb y x) avail
      then S (quick_matches a' (remove_one x avail))
      else quick_matches a' avail
  end.

Definition quick_ratio (a b : list A) : Q :=
  calculate_ratio (quick_matches a b) (List.length a + List.length b).

Definition real_quick_ratio (a b : list A) : Q :=
  calculate_ratio (Nat.min (List.length a) (List.length b)) (List.length a + List.length b).

(** ** Opcodes *)

Inductive tag : Type := Replace | Delete | Insert | Equal.

Definition opcode : Type := (tag * nat * nat * nat * nat)%type.

Fixpoint opcodes_from (i j : nat) (ms : list Match) : list opcode :=
  match ms with
  | [] => []
  | (ai, bj, size) :: ms' =>
      (if (i <? ai) && (j <? bj) then [(Replace, i, ai, j, bj)]
       else if i <? ai then [(Delete, i, ai, j, bj)]
       else if j <? bj then [(Insert, i, ai, j, bj)]
       else [])
      ++ (if size =? 0 then []
          else [(Equal, ai, ai + size, bj, bj + size)])
      ++ opcodes_from (ai + size) (bj + size) ms'
  end.

Definition get_opcodes (a b : list A) : list opcode :=
  opcodes_from 0 0 (get_matching_blocks a b).

Definition is_equal (c : opcode) : bool :=
  match c with
  | (Equal, _, _, _, _) => true
  | _ => false
  end.

Definition fix_first (n : nat) (codes : list opcode) : list opcode :=
  match codes with
  | (Equal, i1, i2, j1, j2) :: rest =>
      (Equal, Nat.max i1 (i2 - n), i2, Nat.max j1 (j2 - n), j2) :: rest
  | _ => codes
  end.

Fixpoint fix_last (n : nat) (codes : list opcode) : list opcode :=
  match codes with
  | [] => []
  | [(Equal, i1, i2, j1, j2)] =>
      [(Equal, i1, Nat.min i2 (i1 + n), j1, Nat.min j2 (j1 + n))]
  | c :: rest => c :: fix_last n rest
  end.

(** The loop of [get_grouped_opcodes]: [done] are the groups already
    yielded, [group] the one being filled. *)
Fixpoint group_codes (n : nat) (codes : list opcode)
  (group : list opcode) (done : list (list opcode))
  : list (list opcode) :=
  match codes with
  | [] =>
      match group with
      | [] => done
      | [c] => if is_equal c then done else done ++ [group]
      | _ => done ++ [group]
      end
  | (t, i1, i2, j1, j2) :: rest =>
      if is_equal (t, i1, i2, j1, j2) && (n + n <? i2 - i1) then
        let closed :=
          group ++ [(t, i1, Nat.min i2 (i1 + n), j1, Nat.min j2 (j1 + n))] in
        group_codes n rest
          [(t, Nat.max i1 (i2 - n), i2, Nat.max j1 (j2 - n), j2)]
          (done ++ [closed])
      else group_codes n rest (group ++ [(t, i1, i2, j1, j2)]) done
  end.

Definition get_grouped_opcodes (a b : list A) (n : nat)
  : list (list opcode) :=
  let codes :=
    match get_opcodes a b with
    | [] => [(Equal, 0, 1, 0, 1)]
    | cs => cs
    end in
  group_codes n (fix_last n (fix_first n codes)) [] [].

End SequenceMatcher.

(** ** [get_close_matches] *)

(** A [str] is matched as the sequence of its characters. *)
Definition str_ratio (x word : string) : Q :=
  ratio Ascii.eqb (list_ascii_of_string x) (list_ascii_of_string word).

Definition str_quick_ratio (x word : string) : Q :=
  quick_ratio Ascii.eqb (list_ascii_of_string x) (list_ascii_of_string word).

Definition str_real_quick_ratio (x word : string) : Q :=
  real_quick_ratio (list_ascii_of_string x) (list_ascii_of_string word).

(** [p > q] on the tuples [(score, x)]. *)
Definition score_gtb (p q : Q * string) : bool :=
  match Qcompare (fst p) (fst q) with
  | Gt => true
  | Lt => false
  | Eq =>
      match String_as_OT.compare (snd p) (snd q) with
      | Gt => true
      | _ => false
      end
  end.

Fixpoint insert_desc (p : Q * string) (l : list (Q * string))
  : list (Q * string) :=
  match l with
  | [] => [p]
  | q :: l' => if score_gtb q p then q :: insert_desc p l' else p :: l
  end.

(** [sorted(l, reverse=True)] *)
Definition sorted_desc (l : list (Q * string)) : list (Q * string) :=
  fold_right insert_desc [] l.

(** [heapq.nlargest(n, l)], the same list as [sorted(l, reverse=True)[:n]]. *)
Definition nlargest (n : nat) (l : list (Q * string)) : list (Q * string) :=
  firstn n (sorted_desc l).

(** The test a candidate [x] has to pass:
    [s.real_quick_ratio() >= cutoff and s.quick_ratio() >= cutoff and
     s.ratio() >= cutoff]. *)
Definition clears (cutoff : Q) (x word : string) : bool :=
  Qle_bool cutoff (str_real_quick_ratio x word)
  && Qle_bool cutoff (str_quick_ratio x word)
  && Qle_bool cutoff (str_ratio x word).

(** [get_close_matches(word, possibilities, n, cutoff)], for [n > 0] and
    a cutoff between 0 and 1 as at every call of the script.  [word] is
    the second sequence of the matcher, each candidate the first. *)
Definition get_close_matches (word : string) (possibilities : list string)
  (n : nat) (cutoff : Q) : list string :=
  let result :=
    flat_map
      (fun x =>
         if clears cutoff x word then [(str_ratio x word, x)] else [])
      possibilities in
  map snd (nlargest n result).

(** ** [unified_diff] with [lineterm=''] and no file dates *)

Definition dec (n : nat) : string :=
  NilEmpty.string_of_uint (Nat.to_uint n).

(** [_format_range_unified] *)
Definition format_range_unified (start stop : nat) : string :=
  let beginning := start + 1 in
  let len := stop - start in
  if len =? 1 then dec beginning
  else
    String.append (dec (if len =? 0 then beginning - 1 else beginning))
      (String.append "," (dec len)).

(** [l[i1:i2]] *)
Definition slice {A} (l : list A) (i1 i2 : nat) : list A :=
  firstn (i2 - i1) (skipn i1 l).

Definition group_lines (a b : list string) (group : list opcode)
  : list string :=
  flat_map
    (fun c : opcode =>
       let '(t, i1, i2, j1, j2) := c in
       match t with
       | Equal => map (String " "%char) (slice a i1 i2)
       | Replace =>
           map (String "-"%char) (slice a i1 i2)
           ++ map (String "+"%char) (slice b j1 j2)
       | Delete => map (String "-"%char) (slice a i1 i2)
       | Insert => map (String "+"%char) (slice b j1 j2)
       end)
    group.

Definition group_header (group : list opcode) : string :=
  let '(_, i1, _, j1, _) := hd (Equal, 0, 0, 0, 0) group in
  let '(_, _, i2, _, j2) := last group (Equal, 0, 0, 0, 0) in
  String.append "@@ -"
    (String.append (format_range_unified i1 i2)
       (String.append " +"
          (String.append (format_range_unified j1 j2) " @@"))).

Definition unified_diff (a b : list string) (fromfile tofile : string)
  (n : nat) : list string :=
  match get_grouped_opcodes String.eqb a b n with
  | [] => []
  | groups =>
      String.append "--- " fromfile
      :: String.append "+++ " tofile
      :: flat_map (fun g => group_header g :: group_lines a b g) groups
  end.

End Difflib.

Import Difflib.

(* ===================================================================== *)
(** * The script *)
(* ===================================================================== *)

Definition GET_CLOSE_MATCHES_NONINTERACTIVE_CUTOFF : Q := (1 # 2)%Q.
Definition GET_CLOSE_MATCHES_SECOND_PASS_CUTOFF : Q := (7 # 10)%Q.

(** A change is the tuple [(old, new)]; an empty string stands for an
    absent name. *)
Definition record : Type := (string * string)%type.

Definition record_eqb (x y : record) : bool :=
  String.eqb (fst x) (fst y) && String.eqb (snd x) (snd y).

(** A tuple never equals a [str]. *)
Definition tuple_eq_str (x : record) (s : string) : bool := false.

(** ['standard_name name=' in line] *)
Definition is_decl (line : string) : bool :=
  str_in "standard_name name=" line.

(** [line.split(q)[1]] where [q] is the double-quote character. *)
Definition quoted_name (line : string) : result string :=
  list_index (str_split dquote line) 1.

(** ** [get_choice] *)

(** [entries] is what the operator types, one entry per call of [input];
    running out of entries is the end of the input stream. *)
Fixpoint get_choice_loop (choices : list Z) (choice : pyval)
  (entries : list pyval) {struct entries} : result (pyval * list pyval) :=
  if val_in choice choices then Ok (choice, entries)
  else
    match entries with
    | [] => Raise EOFError
    | e :: entries' => get_choice_loop choices e entries'
    end.

Definition get_choice (choices : list Z) (entries : list pyval)
  : result (pyval * list pyval) :=
  get_choice_loop choices (PInt (-999)) entries.

(** ** [process_diff_lines] *)

(** [for i ...: if 'standard_name name=' in lines[i]: names.append(...)] *)
Definition collect_names (lines : list string) : result (list string) :=
  for_each
    (fun names line =>
       if is_decl line then n <- quoted_name line ;; Ok (names ++ [n])
       else Ok names)
    lines [].

(** The branch [len(minus_lines) == len(plus_lines)]. *)
Definition pair_lines (std_name_changes : list record)
  (minus_lines plus_lines : list string) : result (list record) :=
  for_each
    (fun changes (mp : string * string) =>
       if is_decl (fst mp) && is_decl (snd mp) then
         o <- quoted_name (fst mp) ;;
         n <- quoted_name (snd mp) ;;
         Ok (changes ++ [(o, n)])
       else Ok changes)
    (combine minus_lines plus_lines) std_name_changes.

(** The branch [len(minus_lines) == 0]. *)
Definition new_names_only (std_name_changes : list record)
  (plus_lines : list string) : result (list record) :=
  for_each
    (fun changes line =>
       if is_decl line then
         n <- quoted_name line ;; Ok (changes ++ [(EmptyString, n)])
       else Ok changes)
    plus_lines std_name_changes.

(** The branch [len(plus_lines) == 0]. *)
Definition deleted_names_only (std_name_changes : list record)
  (minus_lines : list string) : result (list record) :=
  for_each
    (fun changes line =>
       if is_decl line then
         o <- quoted_name line ;; Ok (changes ++ [(o, EmptyString)])
       else Ok changes)
    minus_lines std_name_changes.

(** State of the interactive loop. *)
Record ask_state : Type := {
  ask_changes : list record;
  ask_processed : list string;
  ask_additions : list string;
  ask_entries : list pyval
}.

Definition ask_step (st : ask_state) (removal : string) : result ask_state :=
  let additions := ask_additions st in
  ve <- get_choice (range (List.length additions + 1)) (ask_entries st) ;;
  v <- int (fst ve) ;;
  if (0 <? v)%Z && (v <=? Z.of_nat (List.length additions))%Z then
    a <- list_index additions (Z.to_nat (v - 1)) ;;
    rest <- list_remove String.eqb a additions ;;
    Ok {| ask_changes := ask_changes st ++ [(removal, a)];
          ask_processed := ask_processed st ++ [removal];
          ask_additions := rest;
          ask_entries := snd ve |}
  else
    Ok {| ask_changes := ask_changes st;
          ask_processed := ask_processed st;
          ask_additions := additions;
          ask_entries := snd ve |}.

Definition ask_operator (std_name_changes : list record)
  (potential_removals potential_additions : list string)
  (entries : list pyval) : result (list record * list pyval) :=
  st <- for_each ask_step potential_removals
          {| ask_changes := std_name_changes;
             ask_processed := [];
             ask_additions := potential_additions;
             ask_entries := entries |} ;;
  let potential_removals :=
    filter (fun x => negb (list_in String.eqb x (ask_processed st)))
      potential_removals in
  Ok (ask_changes st
        ++ map (fun r => (r, EmptyString)) potential_removals
        ++ map (fun a => (EmptyString, a)) (ask_additions st),
      ask_entries st).

(** One turn of the loop over [potential_removals] in automatic mode; the
    state is [(std_name_changes, potential_additions)]. *)
Definition match_step (st : list record * list string) (removal : string)
  : result (list record * list string) :=
  let '(changes, additions) := st in
  match get_close_matches removal additions 1
          GET_CLOSE_MATCHES_NONINTERACTIVE_CUTOFF with
  | [] => Ok (changes ++ [(removal, EmptyString)], additions)
  | close_match :: _ =>
      rest <- list_remove String.eqb close_match additions ;;
      Ok (changes ++ [(removal, close_match)], rest)
  end.

Definition match_names (std_name_changes : list record)
  (potential_removals potential_additions : list string)
  : result (list record) :=
  st <- for_each match_step potential_removals
          (std_name_changes, potential_additions) ;;
  Ok (fst st ++ map (fun a => (EmptyString, a)) (snd st)).

Section Script.

(** The module global [INTERACTIVE]; the script sets it to [False]. *)
Variable INTERACTIVE : bool.

Definition process_diff_lines (entries : list pyval)
  (std_name_changes : list record) (minus_lines plus_lines : list string)
  : result (list record * list pyval) :=
  if List.length minus_lines =? List.length plus_lines then
    changes <- pair_lines std_name_changes minus_lines plus_lines ;;
    Ok (changes, entries)
  else if List.length minus_lines =? 0 then
    changes <- new_names_only std_name_changes plus_lines ;;
    Ok (changes, entries)
  else if List.length plus_lines =? 0 then
    changes <- deleted_names_only std_name_changes minus_lines ;;
    Ok (changes, entries)
  else
    potential_removals <- collect_names minus_lines ;;
    potential_additions <- collect_names plus_lines ;;
    if INTERACTIVE then
      ask_operator std_name_changes potential_removals potential_additions
        entries
    else
      changes <- match_names std_name_changes potential_removals
                   potential_additions ;;
      Ok (changes, entries).

(** ** [find_changed_vars]: first pass over the unified diff *)

Record diff_state : Type := {
  std_name_changes_of : list record;
  minus_lines_of : list string;
  plus_lines_of : list string;
  entries_of : list pyval
}.

Definition diff_line_step (st : diff_state) (line : string)
  : result diff_state :=
  let line := str_lower line in
  if str_in "@@" line then
    p <- process_diff_lines (entries_of st) (std_name_changes_of st)
           (minus_lines_of st) (plus_lines_of st) ;;
    Ok {| std_name_changes_of := fst p;
          minus_lines_of := [];
          plus_lines_of := [];
          entries_of := snd p |}
  else
    c <- str_first line ;;
    if String.eqb c "-" then
      Ok {| std_name_changes_of := std_name_changes_of st;
            minus_lines_of := minus_lines_of st ++ [line];
            plus_lines_of := plus_lines_of st;
            entries_of := entries_of st |}
    else if String.eqb c "+" then
      Ok {| std_name_changes_of := std_name_changes_of st;
            minus_lines_of := minus_lines_of st;
            plus_lines_of := plus_lines_of st ++ [line];
            entries_of := entries_of st |}
    else Ok st (* print('Unrecognized line in the unified diff: ...') *).

Definition first_pass (entries : list pyval) (diff_lines : list string)
  : result (list record * list pyval) :=
  st <- for_each diff_line_step diff_lines
          {| std_name_changes_of := [];
             minus_lines_of := [];
             plus_lines_of := [];
             entries_of := entries |} ;;
  process_diff_lines (entries_of st) (std_name_changes_of st)
    (minus_lines_of st) (plus_lines_of st).

End Script.

(** ** [find_changed_vars]: second pass *)

Definition is_replacement (x : record) : bool :=
  truthy (fst x) && truthy (snd x).
Definition is_add (x : record) : bool :=
  negb (truthy (fst x)) && truthy (snd x).
Definition is_removal (x : record) : bool :=
  truthy (fst x) && negb (truthy (snd x)).

(** [[x[0] for x in std_name_changes if x[1] == name][0]] *)
Definition close_match_orig (std_name_changes : list record) (name : string)
  : result string :=
  list_index
    (map fst (filter (fun x => String.eqb (snd x) name) std_name_changes)) 0.

(** One turn of [for r in std_nm_replacements]. *)
Definition sweep1_step (std_nm_replacements_new std_nm_new : list string)
  (std_name_changes : list record) (r : record) : result (list record) :=
  match get_close_matches (fst r) std_nm_new 1
          GET_CLOSE_MATCHES_SECOND_PASS_CUTOFF with
  | [] => Ok std_name_changes
  | close_match :: _ =>
      let match_order :=
        get_close_matches (fst r) [snd r; close_match] 2 0%Q in
      best <- list_index match_order 0 ;;
      if String.eqb best close_match then
        if negb (list_in String.eqb close_match std_nm_replacements_new) then
          changes <- list_remove record_eqb r std_name_changes ;;
          Ok (changes ++ [(EmptyString, snd r)] ++ [(fst r, close_match)])
        else
          changes <- list_remove record_eqb r std_name_changes ;;
          let changes := changes ++ [(EmptyString, snd r)] in
          orig <- close_match_orig changes close_match ;;
          Ok (changes ++ [(orig, EmptyString)] ++ [(fst r, close_match)])
      else Ok std_name_changes
  end.

(** One turn of [for d in std_nm_deletions]; [d] is a name, [d[0]] its
    first character. *)
Definition sweep2_step (std_nm_replacements_new std_nm_new : list string)
  (std_name_changes : list record) (d : string) : result (list record) :=
  d0 <- str_first d ;;
  match get_close_matches d0 std_nm_new 1
          GET_CLOSE_MATCHES_SECOND_PASS_CUTOFF with
  | [] => Ok std_name_changes
  | close_match :: _ =>
      if negb (list_in String.eqb close_match std_nm_replacements_new) then
        changes <- list_remove record_eqb (d, EmptyString) std_name_changes ;;
        changes <- list_remove record_eqb (EmptyString, close_match) changes ;;
        Ok (changes ++ [(d, close_match)])
      else
        orig <- close_match_orig std_name_changes close_match ;;
        let match_order := get_close_matches close_match [d0; orig] 2 0%Q in
        best <- list_index match_order 0 ;;
        if String.eqb best d0 then
          changes <- list_remove tuple_eq_str d std_name_changes ;;
          Ok (changes ++ [(orig, EmptyString)] ++ [(d0, close_match)])
        else Ok std_name_changes
  end.

Definition sweep1 (std_name_changes : list record) : result (list record) :=
  let std_nm_replacements := filter is_replacement std_name_changes in
  let std_nm_replacements_new := map snd std_nm_replacements in
  let std_nm_new := map snd (filter is_add std_name_changes) in
  for_each (sweep1_step std_nm_replacements_new std_nm_new)
    std_nm_replacements std_name_changes.

Definition sweep2 (std_name_changes : list record) : result (list record) :=
  let std_nm_replacements := filter is_replacement std_name_changes in
  let std_nm_replacements_new := map snd std_nm_replacements in
  let std_nm_new := map snd (filter is_add std_name_changes) in
  let std_nm_deletions := map fst (filter is_removal std_name_changes) in
  for_each (sweep2_step std_nm_replacements_new std_nm_new)
    std_nm_deletions std_name_changes.

Definition second_pass (std_name_changes : list record)
  : result (list record) :=
  changes <- sweep1 std_name_changes ;;
  sweep2 changes.

(** [(std_name_changes, n_replacements, n_adds, n_removals)] *)
Definition with_counts (std_name_changes : list record)
  : list record * nat * nat * nat :=
  (std_name_changes,
   List.length (filter is_replacement std_name_changes),
   List.length (filter is_add std_name_changes),
   List.length (filter is_removal std_name_changes)).

(** [find_changed_vars(old_file, new_file)], given what [readlines] returns
    for the two files. *)
Definition find_changed_vars (INTERACTIVE : bool) (entries : list pyval)
  (old_file new_file : string) (file_1_text file_2_text : list string)
  : result (list record * nat * nat * nat) :=
  let diff_lines :=
    unified_diff file_1_text file_2_text old_file new_file 0 in
  p <- first_pass INTERACTIVE entries diff_lines ;;
  changes <- second_pass (fst p) ;;
  Ok (with_counts changes).

(** ** [parse_change_file] *)

Definition cannot_implement (change : record) : string :=
  String.append "The change "
    (String.append (fst change)
       (String.append " -> "
          (String.append (snd change)
             (String.append " cannot be implemented because "
                (String.append (fst change)
                   " is not in the current host/physics metadata. Ignoring this change."))))).

(** The validation loop; the state is [(printed, std_name_changes)]. *)
Definition validate_step (known : list string)
  (st : list string * list record) (change : record)
  : list string * list record :=
  let '(printed, std_name_changes) := st in
  if (truthy (fst change) && truthy (snd change))
     && negb (list_in String.eqb (fst change) known)
  then (printed ++ [cannot_implement change], std_name_changes)
  else (printed, std_name_changes ++ [change]).

(** [parse_change_file], given the list read from the change file and the
    keys of the two metadata dictionaries; the first component is what the
    function prints. *)
Definition parse_change_file (std_name_changes_from_file : list record)
  (host_keys physics_keys : list string)
  : list string * (list record * nat * nat * nat) :=
  let st :=
    fold_left (validate_step (host_keys ++ physics_keys))
      std_name_changes_from_file ([], []) in
  (fst st, with_counts (snd st)).

(** [main_func]: [[x for x in std_name_changes if x[0] and x[1]]], the
    renames handed to the editing functions. *)
Definition std_nm_replacements (std_name_changes : list record)
  : list record :=
  filter is_replacement std_name_changes.

(** ** [os.path.splitext] on POSIX paths *)

Module Path.

(** [s.rfind(c)] for a one-character [c]: the last index, or -1. *)
Fixpoint rfind_from (c : ascii) (s : string) (i found : Z) : Z :=
  match s with
  | EmptyString => found
  | String x s' =>
      rfind_from c s' (i + 1)%Z (if Ascii.eqb x c then i else found)
  end.

Definition rfind (c : ascii) (s : string) : Z := rfind_from c s 0%Z (-1)%Z.

(** [p[:i]] and [p[i:]], for [0 <= i]. *)
Definition str_to (p : string) (i : nat) : string := substring 0 i p.
Definition str_from (p : string) (i : nat) : string :=
  substring i (String.length p - i) p.

(** The [while filenameIndex < dotIndex] loop of [_splitext]: [n] turns are
    left; [true] when it returns from inside, at a character that is not a
    dot. *)
Fixpoint skip_leading_dots (p : string) (filenameIndex n : nat) : bool :=
  match n with
  | 0 => false
  | S n' =>
      match String.get filenameIndex p with
      | Some c =>
          if negb (Ascii.eqb c "."%char) then true
          else skip_leading_dots p (S filenameIndex) n'
      | None => true (* not reached: [filenameIndex < dotIndex < len(p)] *)
      end
  end.

(** [os.path.splitext(p)] *)
Definition splitext (p : string) : string * string :=
  let sepIndex := rfind "/"%char p in
  let dotIndex := rfind "."%char p in
  if (sepIndex <? dotIndex)%Z then
    let filenameIndex := (sepIndex + 1)%Z in
    if skip_leading_dots p (Z.to_nat filenameIndex)
         (Z.to_nat (dotIndex - filenameIndex))
    then (str_to p (Z.to_nat dotIndex), str_from p (Z.to_nat dotIndex))
    else (p, EmptyString)
  else (p, EmptyString).

End Path.

Import Path.

(** ** The files the script edits *)

Definition TEMP_TAG : string := "_meta_chg".

(** [fn_root + TEMP_TAG + fn_ext] *)
Definition temp_filename (path : string) : string :=
  let '(fn_root, fn_ext) := splitext path in
  String.append fn_root (String.append TEMP_TAG fn_ext).

(** [fn_root + '.meta'] *)
Definition meta_filename (file : string) : string :=
  let '(fn_root, fn_ext) := splitext file in
  String.append fn_root ".meta".

(** The regular files as the script sees them: the text behind a path. *)
Definition files : Type := string -> option string.

(** [os.path.isfile] *)
Definition isfile (fs : files) (path : string) : bool :=
  match fs path with
  | Some _ => true
  | None => false
  end.

(** [open(path, 'w')] followed by [write(text)] *)
Definition write_file (fs : files) (path text : string) : files :=
  fun p => if String.eqb p path then Some text else fs p.

Fixpoint list_eqb (l1 l2 : list string) : bool :=
  match l1, l2 with
  | [], [] => true
  | x :: l1', y :: l2' => String.eqb x y && list_eqb l1' l2'
  | _, _ => false
  end.

(** [for i, line in enumerate(f.readlines())]: the state is
    [(newlines, optional_args_start, optional_args_end)]. *)
Definition scan_config (lines : list string) : list string * Z * Z :=
  fold_left
    (fun (st : list string * Z * Z) (il : nat * string) =>
       let '(newlines, optional_args_start, optional_args_end) := st in
       let '(i, line) := il in
       (newlines ++ [line],
        if str_in "OPTIONAL_ARGUMENTS = " line then Z.of_nat i
        else optional_args_start,
        if str_in "STATIC_API_DIR = " line then Z.of_nat i
        else optional_args_end))
    (combine (seq 0 (List.length lines)) lines)
    ([], (-999)%Z, (-999)%Z).

(** [l[i1:i2] = new], for [0 <= i1] and [0 <= i2]. *)
Definition slice_assign {A} (l : list A) (i1 i2 : nat) (new : list A)
  : list A :=
  firstn i1 l ++ new ++ skipn (Nat.max i1 i2) l.

Fixpoint map_option {A B} (f : A -> option B) (l : list A)
  : option (list B) :=
  match l with
  | [] => Some []
  | x :: l' =>
      match f x with
      | None => None
      | Some y =>
          match map_option f l' with
          | None => None
          | Some ys => Some (y :: ys)
          end
      end
  end.

Section Editing.

(** [re.subn(r'\b%s\b' % old, new, text)], the text and the number of
    replacements; [None] when the call raises.  The regular expressions
    are not modelled: what follows holds for whatever they do. *)
Variable re_subn : string -> string -> string -> option (string * nat).

(** [re.sub] is the first component of [re.subn]. *)
Definition re_sub (old new text : string) : option string :=
  option_map fst (re_subn old new text).

(** One turn of [for r in std_nm_replacements] in [edit_config_metadata]. *)
Definition edit_window (optional_args_start optional_args_end : nat)
  (newlines : option (list string)) (r : record) : option (list string) :=
  match newlines with
  | None => None
  | Some newlines =>
      match map_option (re_sub (fst r) (snd r))
              (slice newlines optional_args_start optional_args_end) with
      | None => None
      | Some new =>
          Some (slice_assign newlines optional_args_start optional_args_end
                  new)
      end
  end.

(** [edit_config_metadata], given what [readlines] returns for the config
    file.  [None]: a substitution raised; [Some None]: nothing is written;
    [Some (Some (name, lines))]: [lines] are written to [name]. *)
Definition edit_config_metadata (config_file : string)
  (lines : list string) (std_nm_replacements : list record)
  (overwrite : bool) : option (option (string * list string)) :=
  let '(newlines, optional_args_start, optional_args_end) :=
    scan_config lines in
  let origlines := newlines in
  if (0 <? optional_args_start)%Z && (0 <? optional_args_end)%Z then
    match fold_left
            (edit_window (Z.to_nat optional_args_start)
               (Z.to_nat optional_args_end))
            std_nm_replacements (Some newlines) with
    | None => None
    | Some newlines =>
        if negb (list_eqb newlines origlines) then
          let new_filename :=
            if overwrite then config_file else temp_filename config_file in
          Some (Some (new_filename, newlines))
        else Some None
    end
  else Some None.

(** The loop [for r in std_nm_replacements] of [edit_file_metadata]; the
    state is [(contents, total_replacements)]. *)
Definition replace_all (std_nm_replacements : list record)
  (contents : string) : option (string * nat) :=
  fold_left
    (fun (st : option (string * nat)) (r : record) =>
       match st with
       | None => None
       | Some (contents, total_replacements) =>
           match re_subn (fst r) (snd r) contents with
           | None => None
           | Some (contents, n_replacements) =>
               Some (contents, total_replacements + n_replacements)
           end
       end)
    std_nm_replacements (Some (contents, 0)).

(** One turn of [for file in files]. *)
Definition edit_file (std_nm_replacements : list record) (overwrite : bool)
  (fs : option files) (file : string) : option files :=
  match fs with
  | None => None
  | Some fs =>
      let meta_filename := meta_filename file in
      match fs meta_filename with
      | None => Some fs
      | Some contents =>
          match replace_all std_nm_replacements contents with
          | None => None
          | Some (contents, total_replacements) =>
              if 0 <? total_replacements then
                let new_filename :=
                  if overwrite then meta_filename
                  else temp_filename meta_filename in
                Some (write_file fs new_filename contents)
              else Some fs
          end
      end
  end.

(** [edit_file_metadata]; [None] when a substitution raised. *)
Definition edit_file_metadata (fs : files) (file_list : list string)
  (std_nm_replacements : list record) (overwrite : bool) : option files :=
  fold_left (edit_file std_nm_replacements overwrite) file_list (Some fs).

End Editing.

(** ** [check_unknown_vars] *)

Definition JSON_UNKNOWN_HOST_FILE : string := "unknown_host_vars.json".
Definition JSON_UNKNOWN_PHYSICS_FILE : string := "unknown_physics_vars.json".

(** [for k, v in metadata.items()]: the state is [(known, unknown)]. *)
Definition sort_vars (all_std_names keys : list string)
  : list string * list string :=
  fold_left
    (fun (st : list string * list string) (k : string) =>
       let '(known_vars, unknown_vars) := st in
       if list_in String.eqb k all_std_names
       then (known_vars ++ [k], unknown_vars)
       else (known_vars, unknown_vars ++ [k]))
    keys ([], []).

(** [check_unknown_vars], given the keys of the two dictionaries in the
    order in which [items()] yields them.  The result is what is printed
    and what is dumped, file by file. *)
Definition check_unknown_vars (all_std_names : list string)
  (metadata_define metadata_request : list string) (std_nm_file : string)
  : list string * list (string * list string) :=
  let '(known_host_vars, unknown_host_vars) :=
    sort_vars all_std_names metadata_define in
  let '(known_physics_vars, unknown_physics_vars) :=
    sort_vars all_std_names metadata_request in
  let host_lines :=
    String.append (dec (List.length unknown_host_vars))
      (String.append " of "
         (String.append (dec (List.length metadata_define))
            (String.append " host variables were not found in "
               std_nm_file)))
    :: map (String.append "unknown host var: ") unknown_host_vars in
  let host_dump :=
    if truthy JSON_UNKNOWN_HOST_FILE
    then [(JSON_UNKNOWN_HOST_FILE, unknown_host_vars)] else [] in
  let physics_lines :=
    String.append (dec (List.length unknown_physics_vars))
      (String.append " of "
         (String.append (dec (List.length metadata_request))
            (String.append " physics variables were not found in "
               std_nm_file)))
    :: map (String.append "unknown physics var: ") unknown_physics_vars in
  let physics_dump :=
    if truthy JSON_UNKNOWN_PHYSICS_FILE
    then [(JSON_UNKNOWN_PHYSICS_FILE, unknown_physics_vars)] else [] in
  (host_lines ++ physics_lines, host_dump ++ physics_dump).

(** ** [main_func]: the keys of the metadata in lower case *)

Section Dict.

Context {V : Type}.

(** A dictionary with [str] keys, as the list of its items, each key once.
    The order of the list stands for the order of iteration, which the
    properties below do not depend on. *)
Definition dict : Type := list (string * V).

(** [d.pop(key)]: [None] stands for KeyError. *)
Fixpoint dict_pop (d : dict) (key : string) : option (V * dict) :=
  match d with
  | [] => None
  | (k, v) :: d' =>
      if String.eqb k key then Some (v, d')
      else
        match dict_pop d' key with
        | None => None
        | Some (x, d'') => Some (x, (k, v) :: d'')
        end
  end.

(** [d[key] = v] *)
Fixpoint dict_set (d : dict) (key : string) (v : V) : dict :=
  match d with
  | [] => [(key, v)]
  | (k, x) :: d' =>
      if String.eqb k key then (k, v) :: d'
      else (k, x) :: dict_set d' key v
  end.

(** [for key in metadata.keys(): metadata[key.lower()] = metadata.pop(key)];
    [keys()] is a list made before the loop starts. *)
Definition lower_keys (metadata : dict) : option dict :=
  fold_left
    (fun (st : option dict) (key : string) =>
       match st with
       | None => None
       | Some d =>
           match dict_pop d key with
           | None => None
           | Some (v, d') => Some (dict_set d' (str_lower key) v)
           end
       end)
    (map fst metadata) (Some metadata).

End Dict.

(** [main_func] in mode [u], from the dictionaries that the framework
    returns and the names of the catalog. *)
Definition main_check_unknown {V W : Type} (names : list string)
  (metadata_define : @dict V) (metadata_request : @dict W)
  (standard_name_file : string)
  : option (list string * list (string * list string)) :=
  match lower_keys metadata_define with
  | None => None
  | Some metadata_define =>
      match lower_keys metadata_request with
      | None => None
      | Some metadata_request =>
          let all_std_names := map str_lower names in
          Some (check_unknown_vars all_std_names (map fst metadata_define)
                  (map fst metadata_request) standard_name_file)
      end
  end.

(** ** [main_func], from the choice of the mode on *)

Definition JSON_CHG_FILE : string := "standard_name_changes.json".

(** [f.readlines()]: the lines of a text, each with its line end. *)
Fixpoint readlines (text : string) : list string :=
  match text with
  | EmptyString => []
  | String c text' =>
      if Ascii.eqb c newline then String c EmptyString :: readlines text'
      else
        match readlines text' with
        | [] => [String c EmptyString]
        | line :: lines => String c line :: lines
        end
  end.

(** What [f.writelines(lines)] writes. *)
Definition writelines (lines : list string) : string :=
  fold_right String.append EmptyString lines.

(** [args.mode], one of the choices of the parser. *)
Inductive mode : Type := mode_u | mode_c | mode_m | mode_r | mode_x.

Record arguments : Type := {
  arg_mode : mode;
  arg_config_file : string;
  arg_old_standard_name_file : string;
  arg_standard_name_file : string;
  arg_overwrite : bool;
  arg_change_file : string
}.

(** How a run can end early. *)
Inductive failure : Type :=
| Raised (e : exn)                 (* raised inside find_changed_vars *)
| IOError (path : string)          (* open() of a file that is not there *)
| ReError                          (* raised by re.sub or re.subn *)
| JSONError                        (* raised by json.load *)
| XMLError                         (* raised inside create_XML *)
| UnboundLocalError (name : string).

Section Main.

(** The module global [INTERACTIVE] and what the operator enters. *)
Variable INTERACTIVE : bool.
Variable entries : list pyval.

(** The libraries the script writes and reads its files with are
    parameters: what follows holds for whatever they return.  [None] stands
    for a call that raises. *)
Variable re_subn : string -> string -> string -> option (string * nat).
Variable json_dump_changes : list record -> string.
Variable json_dump_names : list string -> string.
Variable json_load : string -> option (list record).
Variable create_XML : files -> option files.

(** The two [json.dump] calls of [check_unknown_vars]. *)
Definition write_dumps (fs : files) (dumped : list (string * list string))
  : files :=
  fold_left
    (fun fs (d : string * list string) =>
       write_file fs (fst d) (json_dump_names (snd d)))
    dumped fs.

(** Lines 463 to 489: the modes [u], [x], [c] and [m].  The result is the
    files and the binding of [std_name_changes], if it is bound. *)
Definition check_stage (args : arguments) (all_std_names : list string)
  (metadata_define metadata_request : list string) (fs : files)
  : (files * option (list record)) + failure :=
  match arg_mode args with
  | mode_u =>
      let '(printed, dumped) :=
        check_unknown_vars all_std_names metadata_define metadata_request
          (arg_standard_name_file args) in
      inl (write_dumps fs dumped, None)
  | mode_x =>
      match create_XML fs with
      | Some fs => inl (fs, None)
      | None => inr XMLError
      end
  | mode_c | mode_m =>
      let old_file := arg_old_standard_name_file args in
      let new_file := arg_standard_name_file args in
      match fs old_file with
      | None => inr (IOError old_file)
      | Some file_1 =>
          match fs new_file with
          | None => inr (IOError new_file)
          | Some file_2 =>
              match find_changed_vars INTERACTIVE entries old_file new_file
                      (readlines file_1) (readlines file_2) with
              | Raise e => inr (Raised e)
              | Ok (std_name_changes, n_replacements, n_adds, n_removals) =>
                  let fs :=
                    if truthy JSON_CHG_FILE
                    then write_file fs JSON_CHG_FILE
                           (json_dump_changes std_name_changes)
                    else fs in
                  inl (fs, Some std_name_changes)
              end
          end
      end
  | mode_r => inl (fs, None)
  end.

(** Lines 492 to 505: the mode [r]. *)
Definition replay_stage (args : arguments)
  (metadata_define metadata_request : list string)
  (st : files * option (list record))
  : (files * option (list record)) + failure :=
  let '(fs, std_name_changes) := st in
  match arg_mode args with
  | mode_r =>
      match fs (arg_change_file args) with
      | Some text =>
          match json_load text with
          | None => inr JSONError
          | Some std_name_changes_from_file =>
              let '(printed,
                    (std_name_changes, n_replacements, n_adds, n_removals)) :=
                parse_change_file std_name_changes_from_file
                  metadata_define metadata_request in
              inl (fs, Some std_name_changes)
          end
      | None => inl (fs, std_name_changes)
      end
  | _ => inl (fs, std_name_changes)
  end.

(** Lines 507 to 515: the modes [m] and [r]. *)
Definition edit_stage (args : arguments)
  (variable_definition_files scheme_files : list string)
  (st : files * option (list record)) : files + failure :=
  let '(fs, std_name_changes) := st in
  match arg_mode args with
  | mode_m | mode_r =>
      match std_name_changes with
      | None => inr (UnboundLocalError "std_name_changes")
      | Some std_name_changes =>
          let std_nm_replacements := std_nm_replacements std_name_changes in
          let config_file := arg_config_file args in
          let overwrite := arg_overwrite args in
          match fs config_file with
          | None => inr (IOError config_file)
          | Some text =>
              match edit_config_metadata re_subn config_file
                      (readlines text) std_nm_replacements overwrite with
              | None => inr ReError
              | Some written =>
                  let fs :=
                    match written with
                    | Some (new_filename, newlines) =>
                        write_file fs new_filename (writelines newlines)
                    | None => fs
                    end in
                  match edit_file_metadata re_subn fs
                          variable_definition_files std_nm_replacements
                          overwrite with
                  | None => inr ReError
                  | Some fs =>
                      match edit_file_metadata re_subn fs scheme_files
                              std_nm_replacements overwrite with
                      | None => inr ReError
                      | Some fs => inl fs
                      end
                  end
              end
          end
      end
  | _ => inl fs
  end.

(** [main_func] from line 463 on, given the names of the catalog, the keys
    of the two dictionaries and the two file lists of the config.  The
    result is the files at the end, or how the run failed; what is printed
    is left out. *)
Definition main_func (args : arguments) (all_std_names : list string)
  (metadata_define metadata_request : list string)
  (variable_definition_files scheme_files : list string) (fs : files)
  : files + failure :=
  match check_stage args all_std_names metadata_define metadata_request fs
  with
  | inr f => inr f
  | inl st =>
      match replay_stage args metadata_define metadata_request st with
      | inr f => inr f
      | inl st => edit_stage args variable_definition_files scheme_files st
      end
  end.

End Main.

(* ===================================================================== *)
(** * Vocabulary of the properties *)
(* ===================================================================== *)

(** A record with at least one name in it. *)
Definition nonempty_record (x : record) : Prop :=
  truthy (fst x) = true \/ truthy (snd x) = true.

(** A declaration line whose quoted token is not empty. *)
Definition named_line (l : string) : Prop :=
  is_decl l = true -> quoted_name l <> Ok EmptyString.

(** The names that are the target of a rename, and the names that are
    recorded as added. *)
Definition rename_targets (changes : list record) : list string :=
  map snd (filter is_replacement changes).
Definition added_names (changes : list record) : list string :=
  map snd (filter is_add changes).

(** A name stays in the column it is in: old names among the first
    fields, new names among the second fields. *)
Definition keeps_names (cur out : list record) : Prop :=
  forall name, truthy name = true ->
    (In name (map fst cur) -> In name (map fst out))
    /\ (In name (map snd cur) -> In name (map snd out)).

(** A replayed change that [parse_change_file] refuses. *)
Definition refused (known : list string) (change : record) : bool :=
  is_replacement change && negb (list_in String.eqb (fst change) known).

(** ** Vocabulary of the matcher *)

(** How often [x] occurs in [l]. *)
Definition occ {A} (eqb : A -> A -> bool) (x : A) (l : list A) : nat :=
  List.length (filter (fun y => eqb y x) l).

(** [a[i:i+k]] and [b[j:j+k]] hold the same elements. *)
Definition run {A} (eqb : A -> A -> bool) (a b : list A) (i j k : nat)
  : Prop :=
  forall t, t < k -> same_at eqb a b (i + t) (j + t) = true.

(** The elements of [a] that the blocks [bs] cover. *)
Definition matched {A} (a : list A) (bs : list Match) : list A :=
  flat_map (fun m : Match => slice a (fst (fst m)) (fst (fst m) + snd m)) bs.

(** The entries [(j, k)] left by the rows before row [i]: a run of [k]
    equal elements that ends at [a[i-1]] and [b[j]]. *)
Definition prev_ok {A} (eqb : A -> A -> bool) (a b : list A)
  (alo blo i : nat) (j2len : list (nat * nat)) : Prop :=
  forall j k, In (j, k) j2len ->
    k <= i - alo /\ k <= S j - blo /\ run eqb a b (i - k) (S j - k) k.

(** The best match so far lies in rows [alo..bound-1] and in
    [b[blo:bhi]], and is a run of equal elements. *)
Definition best_ok {A} (eqb : A -> A -> bool) (a b : list A)
  (alo blo bhi bound : nat) (best : Match) : Prop :=
  let '(bi, bj, bk) := best in
  alo <= bi /\ blo <= bj /\ bi + bk <= bound /\ bj + bk <= bhi
  /\ run eqb a b bi bj bk.

(** The score of candidate [x] for [word] is at least [cutoff]. *)
Definition scores_at_least (cutoff : Q) (x word : string) : bool :=
  Qle_bool cutoff (str_ratio x word).

(** [c] is the best candidate of [pool] for [word] at [cutoff]: its score
    is at least the cutoff and no candidate with such a score has a larger
    [(score, name)]. *)
Definition best_candidate (cutoff : Q) (word : string) (pool : list string)
  (c : string) : Prop :=
  In c pool
  /\ scores_at_least cutoff c word = true
  /\ forall x, In x pool -> scores_at_least cutoff x word = true ->
       score_gtb (str_ratio x word, x) (str_ratio c word, c) = false.

(** Greedy pairing of the removed names, in order, against a pool of added
    names that shrinks: [greedy cutoff removed pool recs left]. *)
Inductive greedy (cutoff : Q)
  : list string -> list string -> list record -> list string -> Prop :=
| greedy_done pool :
    greedy cutoff [] pool [] pool
| greedy_rename removal removed pool c pool' recs left :
    best_candidate cutoff removal pool c ->
    list_remove String.eqb c pool = Ok pool' ->
    greedy cutoff removed pool' recs left ->
    greedy cutoff (removal :: removed) pool ((removal, c) :: recs) left
| greedy_removal removal removed pool recs left :
    (forall x, In x pool -> scores_at_least cutoff x removal = false) ->
    greedy cutoff removed pool recs left ->
    greedy cutoff (removal :: removed) pool
      ((removal, EmptyString) :: recs) left.

(** ** The greedy pairing, in the words of the specification *)



(** ** Catalog lines used in the examples *)

Definition quote (s : string) : string :=
  String dquote (String.append s (String dquote EmptyString)).

(** A declaration line of a catalog file, with its line end. *)
Definition decl (name : string) : string :=
  String.append "  <standard_name name="
    (String.append (quote name) (String ">"%char (String newline EmptyString))).

(** Any other line of a catalog file. *)
Definition other (s : string) : string :=
  String.append s (String newline EmptyString).

(** A removed and an added line of a diff, as the first pass stores them. *)
Definition removed_line (l : string) : string := String "-"%char (str_lower l).
Definition added_line (l : string) : string := String "+"%char (str_lower l).

(** ** The recorded names, in the words of the specification *)

(** The line holds the marker in some letter case. *)
Definition holds_marker (line : string) : Prop :=
  exists marker,
    str_lower marker = "standard_name name=" /\ str_in marker line = true.

(** The text has no double quote. *)
Definition no_quote (s : string) : bool :=
  negb (existsb (Ascii.eqb dquote) (list_ascii_of_string s)).

(** [token] is the text between the first two double quotes of [line], or
    after the first one when the line has no second one. *)
Definition between_quotes (line token : string) : Prop :=
  exists before rest,
    line = String.append before (String dquote (String.append token rest))
    /\ no_quote before = true
    /\ no_quote token = true
    /\ (rest = EmptyString \/ exists rest', rest = String dquote rest').

(** [tokens_of lines tokens]: the tokens between the quotes of the lines
    that hold the marker, in order and as the lines spell them. *)
Inductive tokens_of : list string -> list string -> Prop :=
| tokens_nil :
    tokens_of [] []
| tokens_decl line lines token tokens :
    holds_marker line ->
    between_quotes line token ->
    tokens_of lines tokens ->
    tokens_of (line :: lines) (token :: tokens)
| tokens_skip line lines tokens :
    ~ holds_marker line ->
    tokens_of lines tokens ->
    tokens_of (line :: lines) tokens.

(** [name] is the token, in lower case, of a line of the diff that starts
    with [sign] and holds the marker. *)
Definition lower_token_of (sign : string) (diff_lines : list string)
  (name : string) : Prop :=
  exists line token,
    In line diff_lines
    /\ str_first line = Ok sign
    /\ holds_marker line
    /\ between_quotes line token
    /\ name = str_lower token.

(** A declaration line that shouts its marker. *)
Definition shouted_decl (name : string) : string :=
  String.append "  <Standard_Name NAME="
    (String.append (quote name) (String ">"%char (String newline EmptyString))).

(** ** Vocabulary of the further properties *)

(** The names recorded as removed. *)
Definition removed_names (changes : list record) : list string :=
  map fst (filter is_removal changes).

(** What the second pass leaves alone: no added name scores at least the
    second-pass cutoff against the old name of a rename, and no added name is
    the first character of a removed name. *)
Definition quiescent (changes : list record) : Prop :=
  (forall x a, In x changes -> is_replacement x = true ->
     In a (added_names changes) ->
     scores_at_least GET_CLOSE_MATCHES_SECOND_PASS_CUTOFF a (fst x) = false)
  /\ (forall d a, In d (removed_names changes) ->
        In a (added_names changes) -> str_first d <> Ok a).

(** File names whose header lines in the diff have no two at-signs in a
    row and are not both declaration lines. *)
Definition plain_names (old_file new_file : string) : Prop :=
  str_in "@@" (str_lower (String.append "--- " old_file)) = false
  /\ str_in "@@" (str_lower (String.append "+++ " new_file)) = false
  /\ is_decl (str_lower (String.append "--- " old_file))
     && is_decl (str_lower (String.append "+++ " new_file)) = false.

(** A declaration line without any double quote. *)
Definition unquoted_decl (l : string) : Prop :=
  is_decl l = true /\ str_in (String dquote EmptyString) l = false.

(** An opcode that gives no context line: if it is an [Equal] one, its
    range in the first sequence is empty. *)
Definition no_context (c : opcode) : Prop :=
  let '(t, i1, i2, _, _) := c in t = Equal -> i2 - i1 = 0.

(** A line that, if it is a declaration line, has a double quote. *)
Definition quoted_decl (l : string) : Prop :=
  is_decl l = true -> str_in (String dquote EmptyString) l = true.

(** [n] is the name that a declaration line among [lines] declares. *)
Definition name_of (lines : list string) (n : string) : Prop :=
  exists l, In l lines /\ is_decl l = true /\ quoted_name l = Ok n.

(** A record whose old name, if any, is declared on a line of [minus_lines]
    and whose new name, if any, on a line of [plus_lines]. *)
Definition from_lines (minus_lines plus_lines : list string) (r : record)
  : Prop :=
  (fst r = EmptyString \/ name_of minus_lines (fst r))
  /\ (snd r = EmptyString \/ name_of plus_lines (snd r)).

(** The lines of the diff, lower-cased, that start with [sign]. *)
Definition signed_lines (sign : string) (diff_lines : list string)
  : list string :=
  filter
    (fun l => match str_first l with
              | Ok c => String.eqb c sign
              | Raise _ => false
              end)
    (map str_lower diff_lines).

(** Line [i] of [lines] contains [mark]. *)
Definition marked (mark : string) (lines : list string) (i : nat) : Prop :=
  exists l, nth_error lines i = Some l /\ str_in mark l = true.

(** [z] is what the scan of the config file leaves in a marker variable:
    the index of the last line with [mark], or -999. *)
Definition last_marked (mark : string) (lines : list string) (z : Z)
  : Prop :=
  (z = (-999)%Z /\ forall i, ~ marked mark lines i)
  \/ (exists i, z = Z.of_nat i /\ marked mark lines i
                /\ forall j, i < j -> ~ marked mark lines j).

(** The file an editing function writes for [path]. *)
Definition written_name (overwrite : bool) (path : string) : string :=
  if overwrite then path else temp_filename path.
(** A stand-in for the regular expressions in the examples: it replaces a
    text that is the old name itself. *)
Definition whole_text_subn (old new text : string) : option (string * nat) :=
  if String.eqb text old || String.eqb text (other old)
  then Some (String.append new (substring (String.length old) 1 text), 1)
  else Some (text, 0).

(** A config file and replacements used in the examples. *)
Definition example_config : list string :=
  [other "# config"; other "OPTIONAL_ARGUMENTS = {"; other "foo1";
   other "STATIC_API_DIR = x"; other "foo1"].

Definition example_files : files :=
  write_file (fun _ => None) "scheme.meta" "foo1".

(** How many lines in a row, ending just before line [i] of [t], the
    matcher does not leave out as too popular. *)
Fixpoint unpopular_run (t : list string) (i : nat) : nat :=
  match i with
  | 0 => 0
  | S i' =>
      match nth_error t i' with
      | Some x =>
          if popular String.eqb t x then 0 else S (unpopular_run t i')
      | None => 0
      end
  end.

(** The paths that a run in a mode may write. *)
Definition may_write (args : arguments)
  (variable_definition_files scheme_files : list string) (path : string)
  : Prop :=
  match arg_mode args with
  | mode_u =>
      path = JSON_UNKNOWN_HOST_FILE \/ path = JSON_UNKNOWN_PHYSICS_FILE
  | mode_c => path = JSON_CHG_FILE
  | mode_m =>
      path = JSON_CHG_FILE
      \/ path = written_name (arg_overwrite args) (arg_config_file args)
      \/ exists file,
           In file (variable_definition_files ++ scheme_files)
           /\ path = written_name (arg_overwrite args) (meta_filename file)
  | mode_r =>
      path = written_name (arg_overwrite args) (arg_config_file args)
      \/ exists file,
           In file (variable_definition_files ++ scheme_files)
           /\ path = written_name (arg_overwrite args) (meta_filename file)
  | mode_x => True
  end.

(** Arguments and files used in the examples. *)
Definition example_args (m : mode) : arguments :=
  {| arg_mode := m;
     arg_config_file := "ccpp_prebuild_config.py";
     arg_old_standard_name_file := "standard_names_old.xml";
     arg_standard_name_file := "standard_names.xml";
     arg_overwrite := false;
     arg_change_file := "standard_name_changes.json" |}.

Definition example_catalogs : files :=
  write_file
    (write_file example_files "standard_names_old.xml"
       (writelines [decl "foo1"; other "<a/>"]))
    "standard_names.xml" (writelines [decl "foo2"; other "<a/>"]).

Definition example_dump (changes : list record) : string :=
  writelines (map (fun r => String.append (fst r) (String.append ">" (snd r)))
                changes).

(* ===================================================================== *)
(** * Properties *)
(* ===================================================================== *)

(** ** The error monad and the loops *)

Lemma bind_Ok {A B} (m : result A) (k : A -> result B) (b : B) :
  Py.bind m k = Ok b -> exists a, m = Ok a /\ k a = Ok b.
Proof.
  destruct m as [a|e]; simpl; intros H; [eauto | discriminate].
Qed.

(** An invariant of the loop body is an invariant of the loop. *)
Lemma for_each_invariant {S X} (P : S -> Prop) (body : S -> X -> result S)
  xs st st' :
  P st ->
  (forall s x s', In x xs -> P s -> body s x = Ok s' -> P s') ->
  for_each body xs st = Ok st' ->
  P st'.
Proof.
  revert st; induction xs as [|x xs IH]; simpl; intros st HP Hstep Hrun.
  - now inversion Hrun; subst.
  - apply bind_Ok in Hrun as (s1 & H1 & H2).
    apply (IH s1); eauto.
Qed.

(** ** [get_choice] *)

Lemma sentinel_not_in_range n : val_in (PInt (-999)) (range n) = false.
Proof.
  unfold val_in, range.
  apply not_true_is_false; intros H.
  apply existsb_exists in H as (z & Hin & Heq).
  apply in_map_iff in Hin as (k & <- & _).
  apply Z.eqb_eq in Heq; lia.
Qed.

Lemma get_choice_loop_skip choices c pre v rest :
  val_in c choices = false ->
  Forall (fun e => val_in e choices = false) pre ->
  val_in v choices = true ->
  get_choice_loop choices c (pre ++ v :: rest) = Ok (v, rest).
Proof.
  intros Hc Hpre Hv; revert c Hc.
  induction Hpre as [|e pre He _ IH]; intros c Hc; simpl; rewrite Hc.
  - destruct rest; simpl; now rewrite Hv.
  - now apply IH.
Qed.

Lemma get_choice_loop_starve choices c pre :
  val_in c choices = false ->
  Forall (fun e => val_in e choices = false) pre ->
  get_choice_loop choices c pre = Raise EOFError.
Proof.
  intros Hc Hpre; revert c Hc.
  induction Hpre as [|e pre He _ IH]; intros c Hc; simpl; rewrite Hc.
  - reflexivity.
  - now apply IH.
Qed.

Lemma first_valid_split choices entries :
  existsb (fun e => val_in e choices) entries = true ->
  exists pre v rest,
    entries = pre ++ v :: rest
    /\ Forall (fun e => val_in e choices = false) pre
    /\ val_in v choices = true.
Proof.
  induction entries as [|e es IH]; simpl; [discriminate|].
  destruct (val_in e choices) eqn:E; simpl.
  - intros _; exists [], e, es; auto.
  - intros H; destruct (IH H) as (pre & v & rest & -> & Hpre & Hv).
    exists (e :: pre), v, rest; auto.
Qed.

(** C9.  For a choice range [range(n)], whatever the operator enters
    outside the range is read and dropped, and the first entry inside the
    range is what [get_choice] returns, with the later entries left unread;
    while only entries outside the range have come, the function has not
    returned: it is still asking when the input ends.  So for every finite
    sequence of entries with a value of the range in it, [get_choice]
    returns the first such value. *)
Theorem get_choice_returns_first_valid (n : nat) :
  (forall pre v rest,
      Forall (fun e => val_in e (range n) = false) pre ->
      val_in v (range n) = true ->
      get_choice (range n) (pre ++ v :: rest) = Ok (v, rest)
      /\ get_choice (range n) pre = Raise EOFError)
  /\ (forall entries,
        existsb (fun e => val_in e (range n)) entries = true ->
        exists pre v rest,
          entries = pre ++ v :: rest
          /\ Forall (fun e => val_in e (range n) = false) pre
          /\ val_in v (range n) = true
          /\ get_choice (range n) entries = Ok (v, rest)).
Proof.
  assert (H1 : forall pre v rest,
             Forall (fun e => val_in e (range n) = false) pre ->
             val_in v (range n) = true ->
             get_choice (range n) (pre ++ v :: rest) = Ok (v, rest)
             /\ get_choice (range n) pre = Raise EOFError).
  { intros pre v rest Hpre Hv; unfold get_choice; split.
    - apply get_choice_loop_skip; auto using sentinel_not_in_range.
    - apply get_choice_loop_starve; auto using sentinel_not_in_range. }
  split; [exact H1|].
  intros entries H.
  destruct (first_valid_split _ _ H) as (pre & v & rest & -> & Hpre & Hv).
  exists pre, v, rest; repeat split; auto.
  now apply H1.
Qed.

Lemma get_choice_returns_first_valid_witness :
  get_choice (range 3) ([PInt 7; PStr "1"; PInt (-1)] ++ PInt 2 :: [PInt 1])
  = Ok (PInt 2, [PInt 1])
  /\ get_choice (range 3) [PInt 7; PStr "1"; PInt (-1)] = Raise EOFError.
Proof.
  apply (proj1 (get_choice_returns_first_valid 3)
           [PInt 7; PStr "1"; PInt (-1)] (PInt 2) [PInt 1]).
  - repeat constructor.
  - reflexivity.
Defined.

(** ** [parse_change_file] *)

Lemma validate_fold known changes printed acc :
  fold_left (validate_step known) changes (printed, acc) =
  (printed ++ map cannot_implement (filter (refused known) changes),
   acc ++ filter (fun c => negb (refused known c)) changes).
Proof.
  revert printed acc; induction changes as [|c changes IH]; intros.
  - simpl; now rewrite !app_nil_r.
  - assert (Hstep : validate_step known (printed, acc) c =
                    if refused known c
                    then (printed ++ [cannot_implement c], acc)
                    else (printed, acc ++ [c])) by reflexivity.
    cbn [fold_left filter]; rewrite Hstep.
    destruct (refused known c); cbn [negb map];
      rewrite IH, <- app_assoc; reflexivity.
Qed.

(** C6, as the script has it.  Replaying a change list drops exactly the
    renames (both names set) whose old name is not among the host and
    physics keys, each with one diagnostic; every other record is applied,
    in order, a pure removal also when its name is unknown; the three counts
    are taken over the applied records. *)
Theorem parse_change_file_drops_unknown_renames
  (changes : list record) (host_keys physics_keys : list string) :
  let known := host_keys ++ physics_keys in
  let applied := filter (fun c => negb (refused known c)) changes in
  parse_change_file changes host_keys physics_keys =
    (map cannot_implement (filter (refused known) changes),
     with_counts applied)
  /\ (forall c, In c changes ->
        (In c applied <->
         ~ (truthy (fst c) = true /\ truthy (snd c) = true
            /\ list_in String.eqb (fst c) known = false))).
Proof.
  intros known applied; split.
  - unfold parse_change_file; fold known.
    now rewrite validate_fold.
  - intros c Hc; unfold applied; rewrite filter_In.
    unfold refused, is_replacement.
    destruct (truthy (fst c)), (truthy (snd c)),
      (list_in String.eqb (fst c) known); simpl; intuition congruence.
Qed.

Lemma parse_change_file_drops_unknown_renames_witness :
  parse_change_file
    [("old_name", "new_name"); ("gone", EmptyString); ("a", "b")] ["a"] ["c"]
  = (["The change old_name -> new_name cannot be implemented because old_name is not in the current host/physics metadata. Ignoring this change."],
     ([("gone", EmptyString); ("a", "b")], 1, 0, 1)).
Proof.
  exact (proj1 (parse_change_file_drops_unknown_renames
    [("old_name", "new_name"); ("gone", EmptyString); ("a", "b")]
    ["a"] ["c"])).
Defined.

(** C6 as stated fails: a pure removal whose name is unknown is applied,
    and counted, without any diagnostic. *)
Lemma unknown_removal_is_applied :
  list_in String.eqb "gone" (["a"] ++ ["c"]) = false
  /\ parse_change_file [("gone", EmptyString)] ["a"] ["c"]
     = ([], ([("gone", EmptyString)], 0, 0, 1)).
Proof. split; reflexivity. Qed.

(** ** Names of a hunk *)

Lemma collect_names_acc lines acc :
  for_each
    (fun names line =>
       if is_decl line then n <- quoted_name line ;; Ok (names ++ [n])
       else Ok names) lines acc
  = (ns <- collect_names lines ;; Ok (acc ++ ns)).
Proof.
  unfold collect_names; revert acc.
  induction lines as [|l lines IH]; intros acc; simpl.
  - now rewrite app_nil_r.
  - destruct (is_decl l); simpl; [|apply IH].
    destruct (quoted_name l) as [n|e]; simpl; [|reflexivity].
    rewrite IH, (IH [n]).
    destruct (for_each _ lines []) as [ns|e]; simpl; [|reflexivity].
    now rewrite <- app_assoc.
Qed.

Lemma collect_names_cons l lines :
  collect_names (l :: lines) =
  if is_decl l then
    n <- quoted_name l ;; ns <- collect_names lines ;; Ok (n :: ns)
  else collect_names lines.
Proof.
  unfold collect_names at 1; simpl.
  destruct (is_decl l); [|reflexivity].
  destruct (quoted_name l) as [n|e]; simpl; [|reflexivity].
  now rewrite collect_names_acc.
Qed.

Lemma pair_lines_cons changes m ms p ps :
  pair_lines changes (m :: ms) (p :: ps) =
  if is_decl m && is_decl p then
    o <- quoted_name m ;; n <- quoted_name p ;;
    pair_lines (changes ++ [(o, n)]) ms ps
  else pair_lines changes ms ps.
Proof.
  unfold pair_lines; simpl.
  destruct (is_decl m && is_decl p); [|reflexivity].
  destruct (quoted_name m); simpl; [|reflexivity].
  destruct (quoted_name p); reflexivity.
Qed.

Lemma pair_lines_aligned changes minus_lines plus_lines R A :
  Forall2 (fun m p => is_decl m = is_decl p) minus_lines plus_lines ->
  collect_names minus_lines = Ok R ->
  collect_names plus_lines = Ok A ->
  pair_lines changes minus_lines plus_lines = Ok (changes ++ combine R A)
  /\ List.length R = List.length A.
Proof.
  intros Hal; revert changes R A.
  induction Hal as [|m p ms ps Hmp _ IH]; intros changes R A HR HA.
  - inversion HR; inversion HA; subst; simpl.
    now rewrite app_nil_r.
  - rewrite collect_names_cons in HR, HA.
    rewrite pair_lines_cons.
    rewrite <- Hmp in *.
    destruct (is_decl m); simpl.
    + apply bind_Ok in HR as (o & Ho & HR).
      apply bind_Ok in HR as (R' & HR' & HR); inversion HR; subst R.
      apply bind_Ok in HA as (n & Hn & HA).
      apply bind_Ok in HA as (A' & HA' & HA); inversion HA; subst A.
      rewrite Ho, Hn; simpl.
      destruct (IH (changes ++ [(o, n)]) R' A' HR' HA') as [-> Hlen].
      simpl; rewrite <- app_assoc; auto.
    + now apply IH.
Qed.

Lemma aligned_hunk_pairs (INTERACTIVE : bool)
  (entries : list pyval) (changes : list record)
  (minus_lines plus_lines R A : list string) :
  Forall2 (fun m p => is_decl m = is_decl p) minus_lines plus_lines ->
  collect_names minus_lines = Ok R ->
  collect_names plus_lines = Ok A ->
  List.length R = List.length A
  /\ process_diff_lines INTERACTIVE entries changes minus_lines plus_lines
     = Ok (changes ++ combine R A, entries).
Proof.
  intros Hal HR HA.
  pose proof (Forall2_length Hal) as Hlen.
  destruct (pair_lines_aligned changes _ _ _ _ Hal HR HA) as [Hp HRA].
  split; auto.
  unfold process_diff_lines.
  rewrite Hlen, Nat.eqb_refl, Hp; reflexivity.
Qed.

(** C5, as the script has it.  The branch is chosen on the raw lines: in
    a hunk with as many removed as added lines where declaration lines face
    declaration lines, the records appended are exactly the index-wise pairs
    [(R[i], A[i])] of the extracted names, whatever the mode and the
    similarity of the names. *)
Theorem equal_hunk_pairs_positionally (INTERACTIVE : bool)
  (entries : list pyval) (changes : list record)
  (minus_lines plus_lines R A : list string) :
  Forall2 (fun m p => is_decl m = is_decl p) minus_lines plus_lines ->
  collect_names minus_lines = Ok R ->
  collect_names plus_lines = Ok A ->
  List.length minus_lines = List.length plus_lines
  /\ List.length R = List.length A
  /\ process_diff_lines INTERACTIVE entries changes minus_lines plus_lines
     = Ok (changes ++ combine R A, entries).
Proof.
  intros Hal HR HA; split; [exact (Forall2_length Hal)|].
  now apply aligned_hunk_pairs.
Qed.

Lemma equal_hunk_pairs_positionally_witness :
  List.length [removed_line (decl "abc"); removed_line (other "<x/>");
               removed_line (decl "klm")]
  = List.length [added_line (decl "xyz"); added_line (other "<y/>");
                 added_line (decl "uvw")]
  /\ List.length ["abc"; "klm"] = List.length ["xyz"; "uvw"]
  /\ process_diff_lines false [] []
       [removed_line (decl "abc"); removed_line (other "<x/>");
        removed_line (decl "klm")]
       [added_line (decl "xyz"); added_line (other "<y/>");
        added_line (decl "uvw")]
     = Ok ([] ++ combine ["abc"; "klm"] ["xyz"; "uvw"], []).
Proof.
  apply (equal_hunk_pairs_positionally false [] []).
  - repeat constructor.
  - reflexivity.
  - reflexivity.
Defined.

(** C5 as stated fails: one removed and one added name, hence name lists
    of equal length, in a hunk of two removed lines and one added line, are
    paired by similarity and come out as a removal and an addition. *)
Lemma equal_names_unequal_lines_not_paired :
  let minus_lines := [removed_line (decl "abc"); removed_line (other "<x/>")] in
  let plus_lines := [added_line (decl "xyz")] in
  collect_names minus_lines = Ok ["abc"]
  /\ collect_names plus_lines = Ok ["xyz"]
  /\ process_diff_lines false [] [] minus_lines plus_lines
     = Ok ([("abc", EmptyString); (EmptyString, "xyz")], [])
  /\ process_diff_lines false [] [] minus_lines plus_lines
     <> Ok (combine ["abc"] ["xyz"], []).
Proof. vm_compute; repeat split; discriminate. Qed.

(** ** Lower case *)

Lemma lower_ascii_dquote c :
  Ascii.eqb (lower_ascii c) dquote = Ascii.eqb c dquote.
Proof. destruct c as [[] [] [] [] [] [] [] []]; reflexivity. Qed.

Lemma lower_ascii_idem c : lower_ascii (lower_ascii c) = lower_ascii c.
Proof. destruct c as [[] [] [] [] [] [] [] []]; reflexivity. Qed.

Lemma str_lower_idem s : str_lower (str_lower s) = str_lower s.
Proof.
  induction s as [|c s IH]; simpl; [reflexivity|].
  now rewrite lower_ascii_idem, IH.
Qed.

Lemma str_split_lower s :
  str_split dquote (str_lower s) = map str_lower (str_split dquote s).
Proof.
  induction s as [|c s IH]; simpl; [reflexivity|].
  rewrite lower_ascii_dquote, IH.
  destruct (Ascii.eqb c dquote); simpl; [reflexivity|].
  destruct (str_split dquote s); reflexivity.
Qed.

Lemma quoted_name_lower line :
  quoted_name (str_lower line) = (n <- quoted_name line ;; Ok (str_lower n)).
Proof.
  unfold quoted_name, list_index.
  rewrite str_split_lower, nth_error_map.
  destruct (nth_error (str_split dquote line) 1); reflexivity.
Qed.

Lemma prefix_lower m s :
  String.prefix m s = true ->
  String.prefix (str_lower m) (str_lower s) = true.
Proof.
  revert s; induction m as [|a m IH]; intros s H; simpl.
  - now destruct (str_lower s).
  - destruct s as [|b s]; simpl in *; [discriminate|].
    destruct (ascii_dec a b) as [->|]; [|discriminate].
    destruct (ascii_dec (lower_ascii b) (lower_ascii b)); [auto | congruence].
Qed.

Lemma str_in_lower m s :
  str_in m s = true -> str_in (str_lower m) (str_lower s) = true.
Proof.
  induction s as [|b s IH]; intros H.
  - change (String.prefix m EmptyString || false = true) in H.
    rewrite orb_false_r in H; apply prefix_lower in H.
    change (String.prefix (str_lower m) (str_lower EmptyString) || false
            = true).
    now rewrite H.
  - change (String.prefix m (String b s) || str_in m s = true) in H.
    change (String.prefix (str_lower m) (str_lower (String b s))
            || str_in (str_lower m) (str_lower s) = true).
    apply orb_true_iff in H as [H|H].
    + apply prefix_lower in H; now rewrite H.
    + rewrite (IH H); apply orb_true_r.
Qed.

Lemma prefix_empty s : String.prefix EmptyString s = true.
Proof. now destruct s. Qed.

Lemma prefix_lower_inv m' s :
  String.prefix m' (str_lower s) = true ->
  exists m, str_lower m = m' /\ String.prefix m s = true.
Proof.
  revert s; induction m' as [|c m' IH]; intros s H.
  - exists EmptyString; split; [reflexivity | apply prefix_empty].
  - destruct s as [|b s]; simpl in H; [discriminate|].
    destruct (ascii_dec c (lower_ascii b)) as [->|]; [|discriminate].
    destruct (IH s H) as (m & <- & Hm).
    exists (String b m); split; [reflexivity|].
    simpl; destruct (ascii_dec b b); [assumption | congruence].
Qed.

Lemma str_in_lower_inv m' s :
  str_in m' (str_lower s) = true ->
  exists m, str_lower m = m' /\ str_in m s = true.
Proof.
  induction s as [|b s IH]; intros H.
  - change (String.prefix m' (str_lower EmptyString) || false = true) in H.
    rewrite orb_false_r in H.
    destruct (prefix_lower_inv _ _ H) as (m & Hm & Hp).
    exists m; split; [assumption|].
    change (String.prefix m EmptyString || false = true).
    now rewrite Hp.
  - change (String.prefix m' (str_lower (String b s))
            || str_in m' (str_lower s) = true) in H.
    apply orb_true_iff in H as [H|H].
    + destruct (prefix_lower_inv _ _ H) as (m & Hm & Hp).
      exists m; split; [assumption|].
      change (String.prefix m (String b s) || str_in m s = true).
      now rewrite Hp.
    + destruct (IH H) as (m & Hm & Hs).
      exists m; split; [assumption|].
      change (String.prefix m (String b s) || str_in m s = true).
      rewrite Hs; apply orb_true_r.
Qed.

Lemma diff_line_step_lower I st line :
  diff_line_step I st (str_lower line) = diff_line_step I st line.
Proof. unfold diff_line_step; now rewrite str_lower_idem. Qed.

Lemma for_each_map {S X Y} (body : S -> Y -> result S) (f : X -> Y) xs st :
  for_each body (map f xs) st = for_each (fun s x => body s (f x)) xs st.
Proof.
  revert st; induction xs as [|x xs IH]; intros st; simpl; [reflexivity|].
  destruct (body st (f x)); simpl; auto.
Qed.

Lemma for_each_ext {S X} (f g : S -> X -> result S) xs st :
  (forall s x, f s x = g s x) -> for_each f xs st = for_each g xs st.
Proof.
  intros E; revert st; induction xs as [|x xs IH]; intros st; simpl; auto.
  rewrite E; destruct (g st x); simpl; auto.
Qed.

(** ** The sequence matcher *)

Section MatcherSoundness.
Context {A : Type} (eqb : A -> A -> bool).
Hypothesis eqb_spec : forall x y, eqb x y = true <-> x = y.

Lemma eqb_refl x : eqb x x = true.
Proof. now apply eqb_spec. Qed.

Lemma eqb_sym x y : eqb x y = eqb y x.
Proof.
  destruct (eqb x y) eqn:E, (eqb y x) eqn:E'; auto.
  - apply eqb_spec in E; subst; now rewrite eqb_refl in E'.
  - apply eqb_spec in E'; subst; now rewrite eqb_refl in E.
Qed.

Lemma occ_cons x y l :
  occ eqb x (y :: l) = (if eqb y x then 1 else 0) + occ eqb x l.
Proof. unfold occ; simpl; now destruct (eqb y x). Qed.

Lemma occ_app x l l' : occ eqb x (l ++ l') = occ eqb x l + occ eqb x l'.
Proof. unfold occ; now rewrite filter_app, length_app. Qed.

Lemma occ_existsb x l :
  existsb (fun y => eqb y x) l = false -> occ eqb x l = 0.
Proof.
  induction l as [|y l IH]; simpl; [reflexivity|].
  rewrite occ_cons; destruct (eqb y x); simpl; [discriminate | auto].
Qed.

Lemma occ_remove_one x y l :
  occ eqb y (remove_one eqb x l)
  = if eqb x y then pred (occ eqb y l) else occ eqb y l.
Proof.
  induction l as [|z l IH]; simpl.
  - now destruct (eqb x y).
  - rewrite occ_cons.
    destruct (eqb z x) eqn:Ezx.
    + apply eqb_spec in Ezx; subst z.
      now destruct (eqb x y).
    + rewrite occ_cons, IH.
      destruct (eqb x y) eqn:Exy; [|reflexivity].
      apply eqb_spec in Exy; subst y; now rewrite Ezx.
Qed.

Lemma length_remove_one x l :
  existsb (fun y => eqb y x) l = true ->
  List.length l = S (List.length (remove_one eqb x l)).
Proof.
  induction l as [|y l IH]; simpl; [discriminate|].
  destruct (eqb y x); simpl; [reflexivity|].
  intros H; now rewrite (IH H).
Qed.

(** A list whose elements occur no more often than in [a] and in
    [avail] is no longer than the count of [quick_ratio]. *)
Lemma quick_matches_ge a : forall s avail,
  (forall x, occ eqb x s <= occ eqb x a) ->
  (forall x, occ eqb x s <= occ eqb x avail) ->
  List.length s <= quick_matches eqb a avail.
Proof.
  induction a as [|x a IH]; intros s avail Ha Hb.
  - destruct s as [|y s]; [simpl; lia|].
    specialize (Ha y); rewrite occ_cons, eqb_refl in Ha.
    unfold occ in Ha; simpl in Ha; lia.
  - simpl.
    destruct (existsb (fun y => eqb y x) avail) eqn:Eav.
    + destruct (existsb (fun y => eqb y x) s) eqn:Es.
      * rewrite (length_remove_one x s Es).
        apply le_n_S, IH; intros y.
        -- specialize (Ha y); rewrite occ_cons in Ha.
           rewrite occ_remove_one; destruct (eqb x y); lia.
        -- specialize (Hb y); rewrite !occ_remove_one.
           destruct (eqb x y); lia.
      * apply Nat.le_le_succ_r, IH; intros y.
        -- specialize (Ha y); rewrite occ_cons in Ha.
           destruct (eqb x y) eqn:E; [|lia].
           apply eqb_spec in E; subst y; rewrite (occ_existsb _ _ Es); lia.
        -- specialize (Hb y); rewrite occ_remove_one.
           destruct (eqb x y) eqn:E; [|lia].
           apply eqb_spec in E; subst y; rewrite (occ_existsb _ _ Es); lia.
    + apply IH; intros y.
      * specialize (Ha y); rewrite occ_cons in Ha.
        destruct (eqb x y) eqn:E; [|lia].
        apply eqb_spec in E; subst y.
        specialize (Hb x); rewrite (occ_existsb _ _ Eav) in Hb; lia.
      * apply Hb.
Qed.

Lemma quick_matches_le_a a : forall avail,
  quick_matches eqb a avail <= List.length a.
Proof.
  induction a as [|x a IH]; intros avail; simpl; [lia|].
  destruct (existsb _ avail); [apply le_n_S, IH | apply Nat.le_le_succ_r, IH].
Qed.

Lemma quick_matches_le_b a : forall avail,
  quick_matches eqb a avail <= List.length avail.
Proof.
  induction a as [|x a IH]; intros avail; simpl; [lia|].
  destruct (existsb _ avail) eqn:E; [|apply IH].
  rewrite (length_remove_one x avail E); apply le_n_S, IH.
Qed.


(** *** The dynamic programme of [find_longest_match] *)

Lemma indices_from_sound x b0 : forall j0 j,
  In j (indices_from eqb x b0 j0) ->
  j0 <= j /\ exists y, nth_error b0 (j - j0) = Some y /\ eqb y x = true.
Proof.
  induction b0 as [|z b0 IH]; intros j0 j; simpl; [tauto|].
  destruct (eqb z x) eqn:E; simpl.
  - intros [<-|H].
    + split; [lia|]; exists z; rewrite Nat.sub_diag; auto.
    + destruct (IH _ _ H) as (Hle & y & Hy & Ey).
      split; [lia|]; exists y; split; [|assumption].
      replace (j - j0) with (S (j - S j0)) by lia; assumption.
  - intros H; destruct (IH _ _ H) as (Hle & y & Hy & Ey).
    split; [lia|]; exists y; split; [|assumption].
    replace (j - j0) with (S (j - S j0)) by lia; assumption.
Qed.

Lemma b2j_sound b x j :
  In j (b2j eqb b x) ->
  exists y, nth_error b j = Some y /\ eqb y x = true.
Proof.
  unfold b2j; destruct (popular eqb b x); [intros []|].
  intros H; apply indices_from_sound in H as (_ & y & Hy & Ey).
  rewrite Nat.sub_0_r in Hy; eauto.
Qed.

Lemma run_nil (a b : list A) i j : run eqb a b i j 0.
Proof. intros t Ht; lia. Qed.

Lemma run_snoc (a b : list A) i j k :
  run eqb a b i j k -> same_at eqb a b (i + k) (j + k) = true ->
  run eqb a b i j (k + 1).
Proof.
  intros H Hs t Ht.
  destruct (Nat.eq_dec t k) as [->|Hne]; [assumption | apply H; lia].
Qed.

Lemma run_cons (a b : list A) i j k :
  same_at eqb a b i j = true -> run eqb a b (S i) (S j) k ->
  run eqb a b i j (k + 1).
Proof.
  intros Hs H [|t] Ht.
  - now rewrite !Nat.add_0_r.
  - rewrite <- !Nat.add_succ_comm; apply H; lia.
Qed.

Section Rows.
Variables (a b : list A) (alo blo bhi : nat).

Lemma best_ok_intro bound bi bj bk :
  alo <= bi -> blo <= bj -> bi + bk <= bound -> bj + bk <= bhi ->
  run eqb a b bi bj bk ->
  best_ok eqb a b alo blo bhi bound (bi, bj, bk).
Proof. simpl; auto. Qed.

Lemma best_ok_mono bound bound' best :
  bound <= bound' -> best_ok eqb a b alo blo bhi bound best -> best_ok eqb a b alo blo bhi bound' best.
Proof.
  destruct best as [[bi bj] bk]; simpl.
  intros Hle (H1 & H2 & H3 & H4 & H5).
  split; [lia|split; [lia|split; [lia|split; [lia|assumption]]]].
Qed.

Lemma j2len_prev_ok i j2len j :
  alo <= i -> blo <= j ->
  prev_ok eqb a b alo blo i j2len ->
  same_at eqb a b i j = true ->
  j2len_prev j2len j + 1 <= S i - alo
  /\ j2len_prev j2len j + 1 <= S j - blo
  /\ run eqb a b (S i - (j2len_prev j2len j + 1))
       (S j - (j2len_prev j2len j + 1)) (j2len_prev j2len j + 1).
Proof.
  intros Hi Hj Hprev Hsame.
  assert (Hk : j2len_prev j2len j <= i - alo
               /\ j2len_prev j2len j <= j - blo
               /\ run eqb a b (i - j2len_prev j2len j)
                    (j - j2len_prev j2len j) (j2len_prev j2len j)).
  { unfold j2len_prev; destruct j as [|j'].
    - rewrite !Nat.sub_0_r; split; [lia|split; [lia|apply run_nil]].
    - destruct (find (fun p => fst p =? j') j2len) as [[j1 k1]|] eqn:F.
      + apply find_some in F as [Fin Feq]; simpl in Feq.
        apply Nat.eqb_eq in Feq; subst j1; cbn [snd].
        destruct (Hprev _ _ Fin) as (H1 & H2 & H3).
        split; [lia|split; [lia|assumption]].
      + rewrite !Nat.sub_0_r; split; [lia|split; [lia|apply run_nil]]. }
  destruct Hk as (K1 & K2 & K3).
  split; [lia|split; [lia|]].
  replace (S i - (j2len_prev j2len j + 1)) with (i - j2len_prev j2len j)
    by lia.
  replace (S j - (j2len_prev j2len j + 1)) with (j - j2len_prev j2len j)
    by lia.
  apply run_snoc; [assumption|].
  replace (i - j2len_prev j2len j + j2len_prev j2len j) with i by lia.
  replace (j - j2len_prev j2len j + j2len_prev j2len j) with j by lia.
  assumption.
Qed.

Lemma scan_js_sound i x j2len js : forall best newj2len best' out,
  alo <= i ->
  nth_error a i = Some x ->
  (forall j, In j js -> exists y, nth_error b j = Some y /\ eqb y x = true) ->
  prev_ok eqb a b alo blo i j2len ->
  prev_ok eqb a b alo blo (S i) newj2len ->
  best_ok eqb a b alo blo bhi (S i) best ->
  scan_js i blo bhi j2len js best newj2len = (best', out) ->
  prev_ok eqb a b alo blo (S i) out /\ best_ok eqb a b alo blo bhi (S i) best'.
Proof.
  induction js as [|j js IH]; intros best newj2len best' out
    Hi Hx Hjs Hprev Hnew Hbest; simpl.
  - intros E; inversion E; subst; auto.
  - assert (Hjs' : forall j0, In j0 js ->
              exists y, nth_error b j0 = Some y /\ eqb y x = true)
      by (intros; apply Hjs; now right).
    destruct (j <? blo) eqn:Eblo; [apply IH; auto|].
    destruct (bhi <=? j) eqn:Ebhi; [intros E; inversion E; subst; auto|].
    apply Nat.ltb_ge in Eblo; apply Nat.leb_gt in Ebhi.
    destruct (Hjs j (or_introl eq_refl)) as (y & Hy & Ey).
    assert (Hsame : same_at eqb a b i j = true).
    { unfold same_at; rewrite Hx, Hy; now rewrite eqb_sym. }
    destruct (j2len_prev_ok i j2len j Hi Eblo Hprev Hsame) as (K1 & K2 & K3).
    apply IH; auto.
    + intros j0 k0 [E|Hin]; [inversion E; subst; auto | now apply Hnew].
    + destruct best as [[bi bj] bk].
      destruct (bk <? j2len_prev j2len j + 1); [|assumption].
      replace (i + 1 - (j2len_prev j2len j + 1))
        with (S i - (j2len_prev j2len j + 1)) by lia.
      replace (j + 1 - (j2len_prev j2len j + 1))
        with (S j - (j2len_prev j2len j + 1)) by lia.
      apply best_ok_intro; solve [lia | exact K3].
Qed.

Lemma scan_is_sound ai : forall i best j2len,
  alo <= i ->
  (forall t x, nth_error ai t = Some x -> nth_error a (i + t) = Some x) ->
  prev_ok eqb a b alo blo i j2len ->
  best_ok eqb a b alo blo bhi i best ->
  best_ok eqb a b alo blo bhi (i + List.length ai) (scan_is eqb b blo bhi ai i best j2len).
Proof.
  induction ai as [|x ai IH]; intros i best j2len Hi Hai Hprev Hbest; simpl.
  - now rewrite Nat.add_0_r.
  - destruct (scan_js i blo bhi j2len (b2j eqb b x) best [])
      as [best1 out] eqn:E.
    apply (scan_js_sound i x) in E; auto.
    + destruct E as [Hout Hb1].
      rewrite <- Nat.add_succ_comm.
      apply IH; auto.
      intros t y Ht; rewrite Nat.add_succ_comm; apply Hai; exact Ht.
    + specialize (Hai 0 x eq_refl); now rewrite Nat.add_0_r in Hai.
    + intros j; apply b2j_sound.
    + intros j k [].
    + eapply best_ok_mono; [|exact Hbest]; lia.
Qed.

Lemma extend_left_sound fuel : forall bound best,
  best_ok eqb a b alo blo bhi bound best ->
  best_ok eqb a b alo blo bhi bound (extend_left eqb fuel a b alo blo best)
  /\ snd best <= snd (extend_left eqb fuel a b alo blo best).
Proof.
  induction fuel as [|fuel IH]; intros bound [[i j] k] H; simpl.
  - auto.
  - destruct ((alo <? i) && (blo <? j) && same_at eqb a b (i - 1) (j - 1))
      eqn:E; [|auto].
    apply andb_true_iff in E as [E Es].
    apply andb_true_iff in E as [Ei Ej].
    apply Nat.ltb_lt in Ei, Ej.
    destruct H as (H1 & H2 & H3 & H4 & H5).
    destruct (IH bound (i - 1, j - 1, k + 1)) as [IH1 IH2].
    + apply best_ok_intro; try lia.
      apply run_cons; [assumption|].
      replace (S (i - 1)) with i by lia.
      replace (S (j - 1)) with j by lia; assumption.
    + split; [assumption | simpl in *; lia].
Qed.

Lemma extend_right_sound ahi fuel : forall best,
  best_ok eqb a b alo blo bhi ahi best ->
  best_ok eqb a b alo blo bhi ahi (extend_right eqb fuel a b ahi bhi best)
  /\ snd best <= snd (extend_right eqb fuel a b ahi bhi best).
Proof.
  induction fuel as [|fuel IH]; intros [[i j] k] H; simpl.
  - auto.
  - destruct ((i + k <? ahi) && (j + k <? bhi)
              && same_at eqb a b (i + k) (j + k)) eqn:E; [|auto].
    apply andb_true_iff in E as [E Es].
    apply andb_true_iff in E as [Ei Ej].
    apply Nat.ltb_lt in Ei, Ej.
    destruct H as (H1 & H2 & H3 & H4 & H5).
    destruct (IH (i, j, k + 1)) as [IH1 IH2].
    + apply best_ok_intro; try lia.
      now apply run_snoc.
    + split; [assumption | simpl in *; lia].
Qed.

End Rows.

(** A match found in [a[alo:ahi]] and [b[blo:bhi]] lies in them and is a
    run of equal elements. *)
Lemma find_longest_match_sound (a b : list A) alo ahi blo bhi :
  alo <= ahi -> blo <= bhi ->
  best_ok eqb a b alo blo bhi ahi
    (find_longest_match eqb a b alo ahi blo bhi).
Proof.
  intros Ha Hb; unfold find_longest_match.
  set (ai := firstn (ahi - alo) (skipn alo a)).
  assert (H0 : best_ok eqb a b alo blo bhi (alo + List.length ai)
                 (scan_is eqb b blo bhi ai alo (alo, blo, 0) [])).
  { apply scan_is_sound; auto.
    - intros t x Ht; unfold ai in Ht.
      rewrite nth_error_firstn in Ht.
      destruct (t <? ahi - alo); [|discriminate].
      now rewrite nth_error_skipn in Ht.
    - intros j k [].
    - apply best_ok_intro; try lia.
      apply run_nil. }
  assert (Hlen : alo + List.length ai <= ahi)
    by (unfold ai; rewrite length_firstn; lia).
  apply (best_ok_mono a b alo blo bhi _ ahi) in H0; [|assumption].
  apply extend_right_sound.
  now apply extend_left_sound.
Qed.


(** *** The loops of the matcher end *)

Lemma extend_left_fuel (a b : list A) alo blo f1 f2 i j k :
  i <= f1 -> i <= f2 ->
  extend_left eqb f1 a b alo blo (i, j, k)
  = extend_left eqb f2 a b alo blo (i, j, k).
Proof.
  revert f2 i j k; induction f1 as [|f1 IH]; intros f2 i j k H1 H2.
  - assert (i = 0) by lia; subst i.
    destruct f2; simpl; [reflexivity|].
    now replace (alo <? 0) with false by (symmetry; apply Nat.ltb_ge; lia).
  - destruct f2 as [|f2].
    + assert (i = 0) by lia; subst i; simpl.
      now replace (alo <? 0) with false
        by (symmetry; apply Nat.ltb_ge; lia).
    + simpl.
      destruct ((alo <? i) && (blo <? j) && same_at eqb a b (i - 1) (j - 1))
        eqn:E; [|reflexivity].
      apply IH; lia.
Qed.

Lemma extend_right_fuel (a b : list A) ahi bhi f1 f2 i j k :
  ahi - (i + k) <= f1 -> ahi - (i + k) <= f2 ->
  extend_right eqb f1 a b ahi bhi (i, j, k)
  = extend_right eqb f2 a b ahi bhi (i, j, k).
Proof.
  revert f2 k; induction f1 as [|f1 IH]; intros f2 k H1 H2.
  - destruct f2; simpl; [reflexivity|].
    now replace (i + k <? ahi) with false
      by (symmetry; apply Nat.ltb_ge; lia).
  - destruct f2 as [|f2]; simpl.
    + now replace (i + k <? ahi) with false
        by (symmetry; apply Nat.ltb_ge; lia).
    + destruct (i + k <? ahi) eqn:E; simpl; [|reflexivity].
      destruct ((j + k <? bhi) && same_at eqb a b (i + k) (j + k));
        [|reflexivity].
      apply Nat.ltb_lt in E; apply IH; lia.
Qed.

(** [blocks] gives the same list for any [fuel] above the size of the
    region of [a]: the value of [get_matching_blocks] is that of the
    unbounded loop. *)
Lemma blocks_fuel (a b : list A) f1 : forall f2 alo ahi blo bhi,
  alo <= ahi -> blo <= bhi -> ahi - alo < f1 -> ahi - alo < f2 ->
  blocks eqb f1 a b alo ahi blo bhi = blocks eqb f2 a b alo ahi blo bhi.
Proof.
  induction f1 as [|f1 IH]; intros f2 alo ahi blo bhi Ha Hb H1 H2; [lia|].
  destruct f2 as [|f2]; [lia|]; cbn [blocks].
  pose proof (find_longest_match_sound a b alo ahi blo bhi Ha Hb) as Hs.
  destruct (find_longest_match eqb a b alo ahi blo bhi) as [[i j] k].
  destruct Hs as (K1 & K2 & K3 & K4 & _).
  destruct (k =? 0) eqn:K; [reflexivity|].
  apply Nat.eqb_neq in K.
  f_equal; [|f_equal].
  - destruct ((alo <? i) && (blo <? j)); [|reflexivity].
    apply IH; lia.
  - destruct ((i + k <? ahi) && (j + k <? bhi)); [|reflexivity].
    apply IH; lia.
Qed.

Lemma get_matching_blocks_fuel (a b : list A) fuel :
  List.length a < fuel ->
  get_matching_blocks eqb a b
  = collapse (0, 0, 0)
      (blocks eqb fuel a b 0 (List.length a) 0 (List.length b))
    ++ [(List.length a, List.length b, 0)].
Proof.
  intros H; unfold get_matching_blocks.
  rewrite (blocks_fuel a b (S (List.length a)) fuel); auto; lia.
Qed.

(** *** The blocks are a common part of the two sequences *)

Lemma firstn_plus {B} n k (l : list B) :
  firstn (n + k) l = firstn n l ++ firstn k (skipn n l).
Proof.
  revert l; induction n as [|n IH]; intros [|y l]; simpl;
    rewrite ?firstn_nil; try reflexivity.
  now rewrite IH.
Qed.

Lemma slice_split {B} (l : list B) i1 m i2 :
  i1 <= m -> m <= i2 -> slice l i1 i2 = slice l i1 m ++ slice l m i2.
Proof.
  intros H1 H2; unfold slice.
  replace (i2 - i1) with ((m - i1) + (i2 - m)) by lia.
  rewrite firstn_plus, skipn_skipn.
  now replace (m - i1 + i1) with m by lia.
Qed.

Lemma slice_all {B} (l : list B) : slice l 0 (List.length l) = l.
Proof. unfold slice; simpl; rewrite Nat.sub_0_r; apply firstn_all. Qed.

Lemma run_slices (a b : list A) i j k :
  run eqb a b i j k ->
  slice a i (i + k) = slice b j (j + k)
  /\ List.length (slice a i (i + k)) = k.
Proof.
  intros H.
  assert (Hn : forall t, t < k ->
            exists x, nth_error a (i + t) = Some x
                      /\ nth_error b (j + t) = Some x).
  { intros t Ht; specialize (H t Ht); unfold same_at in H.
    destruct (nth_error a (i + t)) as [x|]; [|discriminate].
    destruct (nth_error b (j + t)) as [y|]; [|discriminate].
    apply eqb_spec in H; subst; eauto. }
  split.
  - apply nth_error_ext; intros t; unfold slice.
    replace (i + k - i) with k by lia.
    replace (j + k - j) with k by lia.
    rewrite !nth_error_firstn, !nth_error_skipn.
    destruct (t <? k) eqn:E; [|reflexivity].
    apply Nat.ltb_lt in E.
    destruct (Hn t E) as (x & -> & ->); reflexivity.
  - unfold slice; replace (i + k - i) with k by lia.
    rewrite length_firstn, length_skipn.
    destruct k as [|k]; [reflexivity|].
    destruct (Hn k (Nat.lt_succ_diag_r k)) as (x & Hx & _).
    assert (i + k < List.length a)
      by (apply nth_error_Some; congruence).
    lia.
Qed.

Lemma matched_app (a : list A) bs bs' :
  matched a (bs ++ bs') = matched a bs ++ matched a bs'.
Proof. unfold matched; apply flat_map_app. Qed.

(** The elements of the blocks found in a region occur at least as often
    in the region of [a] and in the region of [b], and there are as many of
    them as the sizes of the blocks add up to. *)
Lemma blocks_sound (a b : list A) fuel : forall alo ahi blo bhi,
  alo <= ahi -> blo <= bhi ->
  let bs := blocks eqb fuel a b alo ahi blo bhi in
  (forall x, occ eqb x (matched a bs) <= occ eqb x (slice a alo ahi))
  /\ (forall x, occ eqb x (matched a bs) <= occ eqb x (slice b blo bhi))
  /\ list_sum (map snd bs) = List.length (matched a bs).
Proof.
  induction fuel as [|fuel IH]; intros alo ahi blo bhi Ha Hb bs; subst bs.
  - repeat split; intros; unfold occ; simpl; lia.
  - cbn [blocks].
    pose proof (find_longest_match_sound a b alo ahi blo bhi Ha Hb) as Hs.
    destruct (find_longest_match eqb a b alo ahi blo bhi) as [[i j] k].
    destruct Hs as (H1 & H2 & H3 & H4 & H5).
    destruct (k =? 0) eqn:K;
      [repeat split; intros; unfold occ; simpl; lia|].
    cbv beta iota.
    destruct (run_slices a b i j k H5) as [Hsl Hlen].
    match goal with
    | |- context [?l ++ (i, j, k) :: ?r] => set (L := l); set (R := r)
    end.
    assert (HL : (forall x, occ eqb x (matched a L)
                            <= occ eqb x (slice a alo i))
                 /\ (forall x, occ eqb x (matched a L)
                               <= occ eqb x (slice b blo j))
                 /\ list_sum (map snd L) = List.length (matched a L)).
    { unfold L; destruct ((alo <? i) && (blo <? j)); [now apply IH|].
      repeat split; intros; unfold occ; simpl; lia. }
    assert (HR : (forall x, occ eqb x (matched a R)
                            <= occ eqb x (slice a (i + k) ahi))
                 /\ (forall x, occ eqb x (matched a R)
                               <= occ eqb x (slice b (j + k) bhi))
                 /\ list_sum (map snd R) = List.length (matched a R)).
    { unfold R; destruct ((i + k <? ahi) && (j + k <? bhi));
        [now apply IH|].
      repeat split; intros; unfold occ; simpl; lia. }
    destruct HL as (HL1 & HL2 & HL3), HR as (HR1 & HR2 & HR3).
    assert (Hm : matched a (L ++ (i, j, k) :: R)
                 = matched a L ++ slice a i (i + k) ++ matched a R).
    { rewrite matched_app; reflexivity. }
    rewrite Hm.
    split; [|split].
    + intros x.
      rewrite (slice_split a alo i ahi), (slice_split a i (i + k) ahi)
        by lia.
      rewrite !occ_app; specialize (HL1 x); specialize (HR1 x); lia.
    + intros x.
      rewrite (slice_split b blo j bhi), (slice_split b j (j + k) bhi)
        by lia.
      rewrite !occ_app, Hsl; specialize (HL2 x); specialize (HR2 x); lia.
    + rewrite map_app, list_sum_app, map_cons.
      change (list_sum (snd (i, j, k) :: map snd R))
        with (k + list_sum (map snd R)).
      rewrite !length_app, Hlen.
      f_equal; [exact HL3 | f_equal; exact HR3].
Qed.

Lemma collapse_sum bs : forall cur,
  list_sum (map snd (collapse cur bs)) = snd cur + list_sum (map snd bs).
Proof.
  induction bs as [|[[i2 j2] k2] bs IH]; intros [[i1 j1] k1]; simpl.
  - destruct (k1 =? 0) eqn:K; simpl; [apply Nat.eqb_eq in K|]; lia.
  - destruct ((i1 + k1 =? i2) && (j1 + k1 =? j2)).
    + rewrite IH; simpl; lia.
    + rewrite map_app, list_sum_app, IH; simpl.
      destruct (k1 =? 0) eqn:K; simpl; [apply Nat.eqb_eq in K|]; lia.
Qed.

Lemma fold_sizes (ms : list Match) : forall acc,
  fold_left (fun acc (m : Match) => acc + snd m) ms acc
  = acc + list_sum (map snd ms).
Proof.
  induction ms as [|m ms IH]; intros acc; simpl; [lia|].
  rewrite IH; lia.
Qed.

(** The number of matched elements is at most the count of
    [quick_ratio], which is at most that of [real_quick_ratio]. *)
Lemma matches_le_quick (a b : list A) :
  fold_left (fun acc (m : Match) => acc + snd m)
    (get_matching_blocks eqb a b) 0
  <= quick_matches eqb a b.
Proof.
  rewrite fold_sizes; unfold get_matching_blocks.
  rewrite map_app, list_sum_app, collapse_sum.
  destruct (blocks_sound a b (S (List.length a))
              0 (List.length a) 0 (List.length b)) as (H1 & H2 & H3);
    try lia.
  rewrite !slice_all in *.
  pose proof (quick_matches_ge a _ b H1 H2) as Hq.
  rewrite <- H3 in Hq.
  cbn [snd map list_sum fold_right]; lia.
Qed.

Lemma quick_le_real (a b : list A) :
  quick_matches eqb a b <= Nat.min (List.length a) (List.length b).
Proof.
  apply Nat.min_glb; [apply quick_matches_le_a | apply quick_matches_le_b].
Qed.

End MatcherSoundness.

Lemma calculate_ratio_mono m1 m2 total :
  m1 <= m2 -> (calculate_ratio m1 total <= calculate_ratio m2 total)%Q.
Proof.
  intros H; unfold calculate_ratio.
  destruct total; [apply Qle_refl|].
  unfold Qle; cbn [Qnum Qden].
  apply Z.mul_le_mono_nonneg_r; lia.
Qed.

Lemma ascii_eqb_spec x y : Ascii.eqb x y = true <-> x = y.
Proof. apply Ascii.eqb_eq. Qed.

(** The three tests of [get_close_matches] come to the last one: the
    score is at least the cutoff. *)
Lemma clears_ratio cutoff x word :
  clears cutoff x word = Qle_bool cutoff (str_ratio x word).
Proof.
  unfold clears.
  destruct (Qle_bool cutoff (str_ratio x word)) eqn:E;
    [|apply andb_false_r].
  apply Qle_bool_iff in E.
  assert (H1 : (str_ratio x word <= str_quick_ratio x word)%Q).
  { apply calculate_ratio_mono, matches_le_quick, ascii_eqb_spec. }
  assert (H2 : (str_quick_ratio x word <= str_real_quick_ratio x word)%Q).
  { apply calculate_ratio_mono, quick_le_real. }
  rewrite !andb_true_r; apply andb_true_iff; split;
    apply Qle_bool_iff.
  - eapply Qle_trans; [exact E|]; eapply Qle_trans; eauto.
  - eapply Qle_trans; eauto.
Qed.

(** ** The order on [(score, name)] and [get_close_matches] *)

Lemma string_compare_refl s : String_as_OT.compare s s = Eq.
Proof.
  destruct (String_as_OT.compare_spec s s) as [_|H|H]; [reflexivity| |];
    exfalso; revert H; apply (StrictOrder_Irreflexive s).
Qed.

Lemma string_compare_Gt a b :
  String_as_OT.compare a b = Gt <-> String_as_OT.lt b a.
Proof.
  destruct (String_as_OT.compare_spec a b) as [->|H|H]; split;
    try discriminate; try tauto; intros H'; exfalso.
  - revert H'; apply (StrictOrder_Irreflexive b).
  - apply (StrictOrder_Irreflexive a); now transitivity b.
Qed.

Lemma string_compare_not_Gt a b :
  String_as_OT.compare a b <> Gt <-> a = b \/ String_as_OT.lt a b.
Proof.
  destruct (String_as_OT.compare_spec a b) as [->|H|H]; split;
    try congruence; try tauto; intros [->|H']; exfalso.
  - revert H; apply (StrictOrder_Irreflexive b).
  - apply (StrictOrder_Irreflexive a); now transitivity b.
Qed.

Lemma string_le_trans a b c :
  String_as_OT.compare a b <> Gt ->
  String_as_OT.compare b c <> Gt ->
  String_as_OT.compare a c <> Gt.
Proof.
  rewrite !string_compare_not_Gt.
  intros [->|Hab] [->|Hbc]; auto.
  right; now transitivity b.
Qed.

Lemma string_gt_asym a b :
  String_as_OT.compare a b = Gt -> String_as_OT.compare b a <> Gt.
Proof.
  intros H; apply string_compare_Gt in H.
  apply string_compare_not_Gt; auto.
Qed.

Lemma string_le_antisym a b :
  String_as_OT.compare a b <> Gt -> String_as_OT.compare b a <> Gt -> a = b.
Proof.
  intros H1 H2.
  apply string_compare_not_Gt in H1, H2.
  destruct H1 as [->|Hab], H2 as [E|Hba]; auto.
  exfalso; apply (StrictOrder_Irreflexive a); now transitivity b.
Qed.

Lemma score_gtb_irrefl p : score_gtb p p = false.
Proof.
  unfold score_gtb.
  destruct (Qcompare_spec (fst p) (fst p)) as [_|H|H];
    [now rewrite string_compare_refl | reflexivity |].
  exfalso; revert H; apply Qlt_irrefl.
Qed.

Lemma score_gtb_asym p q : score_gtb p q = true -> score_gtb q p = false.
Proof.
  unfold score_gtb.
  destruct (Qcompare_spec (fst p) (fst q)) as [Hpq|Hpq|Hpq];
    destruct (Qcompare_spec (fst q) (fst p)) as [Hqp|Hqp|Hqp];
    try reflexivity; try discriminate; try (exfalso; lra).
  destruct (String_as_OT.compare (snd p) (snd q)) eqn:E; try discriminate.
  apply string_gt_asym in E.
  destruct (String_as_OT.compare (snd q) (snd p)); congruence.
Qed.

Lemma score_le_trans p q r :
  score_gtb p q = false -> score_gtb q r = false -> score_gtb p r = false.
Proof.
  unfold score_gtb.
  destruct (Qcompare_spec (fst p) (fst q)) as [Hpq|Hpq|Hpq];
    destruct (Qcompare_spec (fst q) (fst r)) as [Hqr|Hqr|Hqr];
    destruct (Qcompare_spec (fst p) (fst r)) as [Hpr|Hpr|Hpr];
    try reflexivity; try discriminate; try (intros; exfalso; lra).
  intros H1 H2.
  assert (String_as_OT.compare (snd p) (snd r) <> Gt).
  { apply (string_le_trans _ (snd q)).
    - destruct (String_as_OT.compare (snd p) (snd q)); congruence.
    - destruct (String_as_OT.compare (snd q) (snd r)); congruence. }
  destruct (String_as_OT.compare (snd p) (snd r)); congruence.
Qed.

Lemma score_le_antisym x c q1 q2 :
  score_gtb (q1, x) (q2, c) = false ->
  score_gtb (q2, c) (q1, x) = false ->
  x = c.
Proof.
  unfold score_gtb; simpl.
  destruct (Qcompare_spec q1 q2) as [H|H|H];
    destruct (Qcompare_spec q2 q1) as [H'|H'|H'];
    try discriminate; try (intros; exfalso; lra).
  intros H1 H2; apply string_le_antisym.
  - destruct (String_as_OT.compare x c); congruence.
  - destruct (String_as_OT.compare c x); congruence.
Qed.

Lemma insert_desc_In p l x : In x (insert_desc p l) <-> x = p \/ In x l.
Proof.
  induction l as [|q l IH]; simpl; [intuition|].
  destruct (score_gtb q p); simpl; rewrite ?IH; intuition.
Qed.

Lemma sorted_desc_In l x : In x (sorted_desc l) <-> In x l.
Proof.
  induction l as [|p l IH]; simpl; [tauto|].
  rewrite insert_desc_In, IH; intuition.
Qed.

(** The head of the sorted list is a largest element. *)
Lemma sorted_desc_head l :
  match sorted_desc l with
  | [] => l = []
  | m :: _ => In m l /\ forall x, In x l -> score_gtb x m = false
  end.
Proof.
  induction l as [|p l IH]; simpl; [reflexivity|].
  destruct (sorted_desc l) as [|m t]; simpl.
  - subst l; split; [auto|].
    intros x [<-|[]]; apply score_gtb_irrefl.
  - destruct IH as [Hm Hmax].
    destruct (score_gtb m p) eqn:E.
    + split; [auto|].
      intros x [<-|Hx]; [now apply score_gtb_asym | auto].
    + split; [auto|].
      intros x [<-|Hx]; [apply score_gtb_irrefl|].
      apply (score_le_trans x m p); auto.
Qed.

Lemma In_firstn {A} n (l : list A) x : In x (firstn n l) -> In x l.
Proof.
  revert l; induction n as [|n IH]; intros [|y l]; simpl; intuition.
Qed.

Lemma scored_In cutoff word ps p :
  In p (flat_map
          (fun x => if clears cutoff x word then [(str_ratio x word, x)]
                    else []) ps)
  <-> exists x, In x ps /\ clears cutoff x word = true
                /\ p = (str_ratio x word, x).
Proof.
  rewrite in_flat_map; split.
  - intros (x & Hx & Hp); exists x.
    destruct (clears cutoff x word); simpl in Hp; intuition.
  - intros (x & Hx & Hc & ->); exists x; rewrite Hc; simpl; auto.
Qed.

(** What [get_close_matches] returns was among the possibilities and
    scores at least the cutoff. *)
Lemma get_close_matches_In word ps n cutoff c :
  In c (get_close_matches word ps n cutoff) ->
  In c ps /\ scores_at_least cutoff c word = true.
Proof.
  unfold get_close_matches, nlargest, scores_at_least; intros H.
  apply in_map_iff in H as (p & <- & Hp).
  apply In_firstn, sorted_desc_In, scored_In in Hp as (x & Hx & Hc & ->).
  rewrite <- clears_ratio; auto.
Qed.

(** With [n=1], the result is empty when no candidate scores at least the
    cutoff and is the best candidate otherwise. *)
Lemma get_close_matches_one word ps cutoff :
  (get_close_matches word ps 1 cutoff = []
   /\ forall x, In x ps -> scores_at_least cutoff x word = false)
  \/ (exists c, get_close_matches word ps 1 cutoff = [c]
                /\ best_candidate cutoff word ps c).
Proof.
  unfold get_close_matches, nlargest, best_candidate, scores_at_least.
  set (result := flat_map _ ps).
  pose proof (sorted_desc_head result) as H.
  destruct (sorted_desc result) as [|m t].
  - left; split; [reflexivity|].
    intros x Hx; rewrite <- clears_ratio.
    destruct (clears cutoff x word) eqn:E; [|reflexivity].
    assert (Hin : In (str_ratio x word, x) result)
      by (apply scored_In; eauto).
    rewrite H in Hin; destruct Hin.
  - right; destruct H as [Hm Hmax].
    apply scored_In in Hm as (c & Hc & Hclears & ->).
    exists c; split; [reflexivity|].
    rewrite <- clears_ratio.
    repeat split; auto.
    intros x Hx Hxc; rewrite <- clears_ratio in Hxc.
    apply Hmax, scored_In; eauto.
Qed.

Lemma list_remove_In (x : string) l :
  In x l -> exists l', list_remove String.eqb x l = Ok l'.
Proof.
  induction l as [|y l IH]; simpl; [tauto|].
  intros H; destruct (String.eqb y x) eqn:E; [eauto|].
  destruct H as [->|H]; [rewrite String.eqb_refl in E; discriminate|].
  destruct (IH H) as (l' & ->); simpl; eauto.
Qed.

(** ** Automatic matching of a hunk *)

Lemma best_candidate_unique cutoff word pool c c' :
  best_candidate cutoff word pool c ->
  best_candidate cutoff word pool c' ->
  c = c'.
Proof.
  intros (Hc & Hcl & Hmax) (Hc' & Hcl' & Hmax').
  eapply score_le_antisym; eauto.
Qed.

(** The greedy pairing has one outcome only. *)
Lemma greedy_functional cutoff removed pool recs left recs' left' :
  greedy cutoff removed pool recs left ->
  greedy cutoff removed pool recs' left' ->
  recs = recs' /\ left = left'.
Proof.
  intros G; revert recs' left'.
  induction G as [pool | r rs pool c pool' recs left Hb Hrm _ IH
                 | r rs pool recs left Hno _ IH]; intros recs' left' G'.
  - now inversion G'.
  - inversion G' as [| ? ? ? c2 pool2 recs2 ? Hb2 Hrm2 G2
                     | ? ? ? recs2 ? Hno2 G2]; subst.
    + assert (c = c2) by (eapply best_candidate_unique; eauto); subst c2.
      assert (pool' = pool2) by congruence; subst pool2.
      destruct (IH _ _ G2) as [-> ->]; auto.
    + destruct Hb as (Hin & Hcl & _); rewrite (Hno2 _ Hin) in Hcl.
      discriminate.
  - inversion G' as [| ? ? ? c2 pool2 recs2 ? Hb2 Hrm2 G2
                     | ? ? ? recs2 ? Hno2 G2]; subst.
    + destruct Hb2 as (Hin & Hcl & _); rewrite (Hno _ Hin) in Hcl.
      discriminate.
    + destruct (IH _ _ G2) as [-> ->]; auto.
Qed.

Lemma match_loop_greedy removed pool changes :
  exists recs left,
    greedy GET_CLOSE_MATCHES_NONINTERACTIVE_CUTOFF removed pool recs left
    /\ for_each match_step removed (changes, pool)
       = Ok (changes ++ recs, left).
Proof.
  revert pool changes; induction removed as [|r rs IH]; intros pool changes.
  - exists [], pool; split; [constructor|].
    simpl; now rewrite app_nil_r.
  - change (for_each match_step (r :: rs) (changes, pool))
      with (Py.bind (match_step (changes, pool) r) (for_each match_step rs)).
    unfold match_step.
    destruct (get_close_matches_one r pool
                GET_CLOSE_MATCHES_NONINTERACTIVE_CUTOFF)
      as [[E Hno] | (c & E & Hb)]; rewrite E.
    + destruct (IH pool (changes ++ [(r, EmptyString)]))
        as (recs & left & G & Hrun).
      exists ((r, EmptyString) :: recs), left; split.
      * now constructor.
      * cbn [Py.bind]; fold match_step; rewrite Hrun, <- app_assoc.
        reflexivity.
    + destruct (list_remove_In c pool) as (pool' & Hrm);
        [apply Hb|].
      destruct (IH pool' (changes ++ [(r, c)])) as (recs & left & G & Hrun).
      exists ((r, c) :: recs), left; split.
      * econstructor; eauto.
      * rewrite Hrm; cbn [Py.bind]; fold match_step.
        rewrite Hrun, <- app_assoc; reflexivity.
Qed.











(** ** List operations of the second pass *)

Lemma list_remove_incl {A B} (eqb : A -> B -> bool) x l l' :
  list_remove eqb x l = Ok l' -> incl l' l.
Proof.
  revert l'; induction l as [|y l IH]; simpl; intros l' H; [discriminate|].
  destruct (eqb y x).
  - inversion H; subst; now apply incl_tl.
  - apply bind_Ok in H as (r & Hr & H); inversion H; subst.
    apply incl_cons; [now left|].
    apply incl_tl; auto.
Qed.

Lemma list_remove_never {A B} (eqb : A -> B -> bool) x l :
  (forall y, eqb y x = false) -> list_remove eqb x l = Raise ValueError.
Proof.
  intros H; induction l as [|y l IH]; simpl; [reflexivity|].
  now rewrite H, IH.
Qed.

Lemma list_in_In x l : list_in String.eqb x l = true <-> In x l.
Proof.
  unfold list_in; rewrite existsb_exists; split.
  - intros (y & Hy & E); apply String.eqb_eq in E; now subst.
  - intros H; exists x; split; [auto | apply String.eqb_refl].
Qed.

Lemma added_names_truthy changes n :
  In n (added_names changes) -> truthy n = true.
Proof.
  unfold added_names; rewrite in_map_iff.
  intros (x & <- & Hx); apply filter_In in Hx as [_ Hx].
  unfold is_add in Hx; now apply andb_true_iff in Hx.
Qed.

Lemma is_replacement_truthy r :
  is_replacement r = true -> truthy (fst r) = true /\ truthy (snd r) = true.
Proof. unfold is_replacement; apply andb_true_iff. Qed.

(** ** Every record has a name *)

Lemma truthy_not_empty n : n <> EmptyString -> truthy n = true.
Proof. destruct n; simpl; congruence. Qed.

Lemma named_line_name l n :
  named_line l -> is_decl l = true -> quoted_name l = Ok n -> truthy n = true.
Proof.
  intros Hl Hd Hq; apply truthy_not_empty; intros ->; now apply Hl.
Qed.

Lemma collect_names_truthy lines ns :
  Forall named_line lines ->
  collect_names lines = Ok ns ->
  Forall (fun n => truthy n = true) ns.
Proof.
  intros Hl; revert ns; induction Hl as [|l lines Hn _ IH]; intros ns H.
  - inversion H; constructor.
  - rewrite collect_names_cons in H.
    destruct (is_decl l) eqn:Hd; [|auto].
    apply bind_Ok in H as (n & Hq & H).
    apply bind_Ok in H as (ns' & Hns & H); inversion H; subst.
    constructor; [eapply named_line_name; eauto | auto].
Qed.

Lemma nonempty_left o n : truthy o = true -> nonempty_record (o, n).
Proof. now left. Qed.

Lemma nonempty_right o n : truthy n = true -> nonempty_record (o, n).
Proof. now right. Qed.

Lemma Forall_snoc {A} (P : A -> Prop) l x :
  Forall P l -> P x -> Forall P (l ++ [x]).
Proof. intros; apply Forall_app; auto. Qed.

Lemma pair_lines_nonempty changes minus_lines plus_lines out :
  Forall nonempty_record changes ->
  Forall named_line minus_lines ->
  pair_lines changes minus_lines plus_lines = Ok out ->
  Forall nonempty_record out.
Proof.
  intros Hc Hm; unfold pair_lines.
  apply for_each_invariant; [assumption|].
  intros s [m p] s' Hin Hs; simpl.
  destruct (is_decl m) eqn:Hd; simpl; [|intros H; now inversion H; subst].
  destruct (is_decl p); [|intros H; now inversion H; subst].
  intros H; apply bind_Ok in H as (o & Ho & H).
  apply bind_Ok in H as (n & Hn & H); inversion H; subst.
  apply Forall_snoc; [assumption|].
  apply nonempty_left; eapply named_line_name; eauto.
  apply in_combine_l in Hin.
  rewrite Forall_forall in Hm; auto.
Qed.

Lemma new_names_only_nonempty changes plus_lines out :
  Forall nonempty_record changes ->
  Forall named_line plus_lines ->
  new_names_only changes plus_lines = Ok out ->
  Forall nonempty_record out.
Proof.
  intros Hc Hp; unfold new_names_only.
  apply for_each_invariant; [assumption|].
  intros s l s' Hin Hs.
  destruct (is_decl l) eqn:Hd; [|intros H; now inversion H; subst].
  intros H; apply bind_Ok in H as (n & Hn & H); inversion H; subst.
  apply Forall_snoc; [assumption|].
  apply nonempty_right; eapply named_line_name; eauto.
  rewrite Forall_forall in Hp; auto.
Qed.

Lemma deleted_names_only_nonempty changes minus_lines out :
  Forall nonempty_record changes ->
  Forall named_line minus_lines ->
  deleted_names_only changes minus_lines = Ok out ->
  Forall nonempty_record out.
Proof.
  intros Hc Hp; unfold deleted_names_only.
  apply for_each_invariant; [assumption|].
  intros s l s' Hin Hs.
  destruct (is_decl l) eqn:Hd; [|intros H; now inversion H; subst].
  intros H; apply bind_Ok in H as (n & Hn & H); inversion H; subst.
  apply Forall_snoc; [assumption|].
  apply nonempty_left; eapply named_line_name; eauto.
  rewrite Forall_forall in Hp; auto.
Qed.

Lemma Forall_incl {A} (P : A -> Prop) l l' :
  incl l' l -> Forall P l -> Forall P l'.
Proof. rewrite !Forall_forall; auto. Qed.

Lemma match_names_nonempty changes removals additions out :
  Forall nonempty_record changes ->
  Forall (fun n => truthy n = true) removals ->
  Forall (fun n => truthy n = true) additions ->
  match_names changes removals additions = Ok out ->
  Forall nonempty_record out.
Proof.
  intros Hc Hr Ha H; unfold match_names in H.
  apply bind_Ok in H as ([cs pool] & Hrun & H); inversion H; subst; simpl.
  assert (Hinv : Forall nonempty_record cs
                 /\ Forall (fun n => truthy n = true) pool).
  { revert Hrun.
    apply (for_each_invariant
             (fun st => Forall nonempty_record (fst st)
                        /\ Forall (fun n => truthy n = true) (snd st)));
      [split; assumption|].
    intros [cs0 pool0] r st' Hin [Hcs Hpool]; simpl in *.
    assert (Hrt : truthy r = true) by (rewrite Forall_forall in Hr; auto).
    unfold match_step.
    destruct (get_close_matches r pool0 1 _) as [|c ?].
    - intros E; inversion E; subst; simpl; split; [|assumption].
      apply Forall_snoc; auto using nonempty_left.
    - intros E; apply bind_Ok in E as (rest & Hrm & E); inversion E; subst.
      simpl; split.
      + apply Forall_snoc; auto using nonempty_left.
      + eapply Forall_incl; eauto using list_remove_incl. }
  destruct Hinv as [Hcs Hpool].
  apply Forall_app; split; [assumption|].
  apply Forall_map.
  eapply Forall_impl; [|exact Hpool].
  intros a Hat; now apply nonempty_right.
Qed.

Lemma ask_operator_nonempty changes removals additions entries out :
  Forall nonempty_record changes ->
  Forall (fun n => truthy n = true) removals ->
  Forall (fun n => truthy n = true) additions ->
  ask_operator changes removals additions entries = Ok out ->
  Forall nonempty_record (fst out).
Proof.
  intros Hc Hr Ha H; unfold ask_operator in H.
  apply bind_Ok in H as (st & Hrun & H); inversion H; subst; simpl.
  assert (Hinv : Forall nonempty_record (ask_changes st)
                 /\ Forall (fun n => truthy n = true) (ask_additions st)).
  { revert Hrun.
    apply (for_each_invariant
             (fun st => Forall nonempty_record (ask_changes st)
                        /\ Forall (fun n => truthy n = true)
                             (ask_additions st)));
      [split; assumption|].
    intros s r s' Hin [Hcs Hpool].
    assert (Hrt : truthy r = true) by (rewrite Forall_forall in Hr; auto).
    unfold ask_step.
    intros E; apply bind_Ok in E as (ve & _ & E).
    apply bind_Ok in E as (v & _ & E).
    destruct ((0 <? v)%Z && (v <=? Z.of_nat (List.length (ask_additions s)))%Z).
    - apply bind_Ok in E as (a & _ & E).
      apply bind_Ok in E as (rest & Hrm & E); inversion E; subst; simpl.
      split.
      + apply Forall_snoc; auto using nonempty_left.
      + eapply Forall_incl; eauto using list_remove_incl.
    - inversion E; subst; simpl; auto. }
  destruct Hinv as [Hcs Hpool].
  apply Forall_app; split; [assumption|].
  apply Forall_app; split; apply Forall_map.
  - apply Forall_forall; intros r Hin.
    apply filter_In in Hin as [Hin _].
    apply nonempty_left; rewrite Forall_forall in Hr; auto.
  - eapply Forall_impl; [|exact Hpool].
    intros a Hat; now apply nonempty_right.
Qed.

Lemma process_diff_lines_nonempty I entries changes minus_lines plus_lines
  out :
  Forall nonempty_record changes ->
  Forall named_line minus_lines ->
  Forall named_line plus_lines ->
  process_diff_lines I entries changes minus_lines plus_lines = Ok out ->
  Forall nonempty_record (fst out).
Proof.
  intros Hc Hm Hp; unfold process_diff_lines.
  destruct (List.length minus_lines =? List.length plus_lines).
  { intros H; apply bind_Ok in H as (cs & H & E); inversion E; subst; simpl.
    now apply (pair_lines_nonempty changes minus_lines plus_lines). }
  destruct (List.length minus_lines =? 0).
  { intros H; apply bind_Ok in H as (cs & H & E); inversion E; subst; simpl.
    now apply (new_names_only_nonempty changes plus_lines). }
  destruct (List.length plus_lines =? 0).
  { intros H; apply bind_Ok in H as (cs & H & E); inversion E; subst; simpl.
    now apply (deleted_names_only_nonempty changes minus_lines). }
  intros H; apply bind_Ok in H as (R & HR & H).
  apply bind_Ok in H as (A & HA & H).
  pose proof (collect_names_truthy _ _ Hm HR).
  pose proof (collect_names_truthy _ _ Hp HA).
  destruct I.
  - now apply (ask_operator_nonempty changes R A entries).
  - apply bind_Ok in H as (cs & H & E); inversion E; subst; simpl.
    now apply (match_names_nonempty changes R A).
Qed.

Lemma first_pass_nonempty I entries diff_lines out :
  Forall (fun l => named_line (str_lower l)) diff_lines ->
  first_pass I entries diff_lines = Ok out ->
  Forall nonempty_record (fst out).
Proof.
  intros Hl H; unfold first_pass in H.
  apply bind_Ok in H as (st & Hrun & H).
  assert (Hinv : Forall nonempty_record (std_name_changes_of st)
                 /\ Forall named_line (minus_lines_of st)
                 /\ Forall named_line (plus_lines_of st)).
  { revert Hrun.
    apply (for_each_invariant
             (fun st => Forall nonempty_record (std_name_changes_of st)
                        /\ Forall named_line (minus_lines_of st)
                        /\ Forall named_line (plus_lines_of st)));
      [simpl; auto|].
    intros s l s' Hin (Hcs & Hm & Hp).
    assert (Hnl : named_line (str_lower l))
      by (rewrite Forall_forall in Hl; auto).
    unfold diff_line_step.
    destruct (str_in "@@" (str_lower l)).
    - intros E; apply bind_Ok in E as (p & Hproc & E); inversion E; subst.
      simpl; repeat split; auto.
      now apply (process_diff_lines_nonempty I (entries_of s)
                   (std_name_changes_of s) (minus_lines_of s)
                   (plus_lines_of s)).
    - intros E; apply bind_Ok in E as (c & _ & E).
      destruct (String.eqb c "-");
        [|destruct (String.eqb c "+")]; inversion E; subst; simpl;
        repeat split; auto using Forall_snoc. }
  destruct Hinv as (Hcs & Hm & Hp).
  now apply (process_diff_lines_nonempty I (entries_of st)
               (std_name_changes_of st) (minus_lines_of st)
               (plus_lines_of st)).
Qed.

(** ** The second pass keeps a name in every record *)

Lemma sweep1_step_nonempty repl_new new cur r out :
  (forall n, In n new -> truthy n = true /\ ~ In n repl_new) ->
  is_replacement r = true ->
  Forall nonempty_record cur ->
  sweep1_step repl_new new cur r = Ok out ->
  Forall nonempty_record out.
Proof.
  intros Hnew Hr Hcur; unfold sweep1_step.
  destruct (get_close_matches (fst r) new 1 _) as [|cm rest] eqn:E;
    [intros H; now inversion H; subst|].
  assert (Hcm : In cm new).
  { apply (get_close_matches_In (fst r) new 1
             GET_CLOSE_MATCHES_SECOND_PASS_CUTOFF).
    rewrite E; now left. }
  destruct (Hnew cm Hcm) as [Hcmt Hfresh].
  assert (Hin : list_in String.eqb cm repl_new = false).
  { apply not_true_is_false; now rewrite list_in_In. }
  apply is_replacement_truthy in Hr as [Hr0 Hr1].
  intros H; apply bind_Ok in H as (best & _ & H).
  destruct (String.eqb best cm); [|now inversion H; subst].
  rewrite Hin in H; simpl in H.
  apply bind_Ok in H as (c1 & Hrm & H); inversion H; subst.
  apply Forall_app; split.
  - eapply Forall_incl; eauto using list_remove_incl.
  - constructor; [now right|].
    constructor; [now left | constructor].
Qed.

Lemma sweep2_step_nonempty repl_new new cur d out :
  truthy d = true ->
  Forall nonempty_record cur ->
  sweep2_step repl_new new cur d = Ok out ->
  Forall nonempty_record out.
Proof.
  intros Hd Hcur; unfold sweep2_step.
  intros H; apply bind_Ok in H as (d0 & _ & H).
  destruct (get_close_matches d0 new 1 _) as [|cm rest];
    [now inversion H; subst|].
  destruct (negb (list_in String.eqb cm repl_new)).
  - apply bind_Ok in H as (c1 & Hrm1 & H).
    apply bind_Ok in H as (c2 & Hrm2 & H); inversion H; subst.
    apply Forall_snoc; [|now left].
    eapply Forall_incl; [eapply list_remove_incl; eauto|].
    eapply Forall_incl; eauto using list_remove_incl.
  - apply bind_Ok in H as (orig & _ & H).
    apply bind_Ok in H as (best & _ & H).
    destruct (String.eqb best d0); [|now inversion H; subst].
    rewrite list_remove_never in H by reflexivity; discriminate.
Qed.

Lemma sweep1_nonempty changes out :
  (forall n, In n (added_names changes) -> ~ In n (rename_targets changes)) ->
  Forall nonempty_record changes ->
  sweep1 changes = Ok out ->
  Forall nonempty_record out.
Proof.
  intros Hdis Hc; unfold sweep1.
  apply for_each_invariant; [assumption|].
  intros s r s' Hin Hs.
  apply sweep1_step_nonempty; auto.
  - intros n Hn; split; [eapply added_names_truthy; eauto | now apply Hdis].
  - now apply filter_In in Hin.
Qed.

Lemma sweep2_nonempty changes out :
  Forall nonempty_record changes ->
  sweep2 changes = Ok out ->
  Forall nonempty_record out.
Proof.
  intros Hc; unfold sweep2.
  apply for_each_invariant; [assumption|].
  intros s d s' Hin Hs.
  apply sweep2_step_nonempty; auto.
  apply in_map_iff in Hin as (x & <- & Hx).
  apply filter_In in Hx as [_ Hx].
  unfold is_removal in Hx; now apply andb_true_iff in Hx.
Qed.

(** C3, as the script has it.  When no declaration line of the diff has
    an empty name token, and no name is both recorded as added and the
    target of a rename when the second pass starts, every record of the list
    that [find_changed_vars] returns has at least one non-empty field. *)
Theorem final_records_have_a_name (INTERACTIVE : bool)
  (entries : list pyval) (old_file new_file : string)
  (file_1_text file_2_text : list string)
  (tentative : list record) (entries' : list pyval)
  (final : list record) (n_replacements n_adds n_removals : nat) :
  let diff_lines :=
    unified_diff file_1_text file_2_text old_file new_file 0 in
  Forall (fun l => named_line (str_lower l)) diff_lines ->
  first_pass INTERACTIVE entries diff_lines = Ok (tentative, entries') ->
  (forall n, In n (added_names tentative) ->
             ~ In n (rename_targets tentative)) ->
  find_changed_vars INTERACTIVE entries old_file new_file
    file_1_text file_2_text
  = Ok (final, n_replacements, n_adds, n_removals) ->
  Forall nonempty_record final.
Proof.
  intros diff_lines Hl Hfirst Hdis H.
  unfold find_changed_vars in H; fold diff_lines in H.
  rewrite Hfirst in H; simpl in H.
  apply bind_Ok in H as (changes & Hsecond & H); inversion H; subst.
  unfold second_pass in Hsecond.
  apply bind_Ok in Hsecond as (c1 & H1 & H2).
  apply (sweep2_nonempty c1); [|assumption].
  apply (sweep1_nonempty tentative); auto.
  apply (first_pass_nonempty _ _ _ _ Hl Hfirst).
Qed.

Lemma final_records_have_a_name_witness :
  Forall nonempty_record
    [(EmptyString, "foo3"); (EmptyString, "zzz"); ("foo1", "foo3")].
Proof.
  apply (final_records_have_a_name false [] "old.xml" "new.xml"
           [decl "foo1"; other "<a/>"]
           [decl "zzz"; other "<a/>"; decl "foo3"]
           [("foo1", "zzz"); (EmptyString, "foo3")] []
           [(EmptyString, "foo3"); (EmptyString, "zzz"); ("foo1", "foo3")]
           1 2 0).
  - vm_compute.
    repeat (apply Forall_cons; [intros _; vm_compute; discriminate|]).
    apply Forall_nil.
  - vm_compute; reflexivity.
  - intros n [<-|[]] [E|[]]; discriminate E.
  - vm_compute; reflexivity.
Defined.

(** C3 as stated fails: two declaration lines with an empty name token
    that differ elsewhere give the record with both fields empty.  So does,
    with no empty token anywhere, a new catalog that declares [foo3] twice,
    once as a new entry and once in place of [zz], when sweep 1 moves the
    rename of [foo1] to [foo3]. *)
Lemma empty_token_gives_empty_record :
  let old_line :=
    String.append "<standard_name name="
      (String.append (quote EmptyString) " units=K>") in
  let new_line :=
    String.append "<standard_name name="
      (String.append (quote EmptyString) " units=m>") in
  find_changed_vars false [] "old.xml" "new.xml" [old_line] [new_line]
  = Ok ([(EmptyString, EmptyString)], 0, 0, 0)
  /\ ~ nonempty_record (EmptyString, EmptyString)
  /\ find_changed_vars false [] "old.xml" "new.xml"
       [other "<a/>"; decl "zz"; other "<b/>"; decl "foo1"; other "<c/>"]
       [decl "foo3"; other "<a/>"; decl "foo3"; other "<b/>"; decl "yy";
        other "<c/>"]
     = Ok ([(EmptyString, "foo3"); ("zz", "foo3"); (EmptyString, "yy");
            (EmptyString, EmptyString); ("foo1", "foo3")], 2, 2, 0).
Proof.
  split; [vm_compute; reflexivity|].
  split; [intros [H|H]; discriminate H | vm_compute; reflexivity].
Qed.

(** ** Runs of [find_changed_vars] on small catalogs *)

(** C1 at two inputs.  Two renamed entries and one new entry [foo3] that
    resembles both old names: sweep 1 moves both renames to [foo3].  And a
    new catalog that declares [foo3] twice, once in place of [zz]: sweep 1
    moves the rename of [foo1] to [foo3], records [zz] as removed and keeps
    the rename of [zz] to [foo3]. *)
Theorem sweep1_leaves_two_renames_to_one_name :
  find_changed_vars false [] "old.xml" "new.xml"
    [decl "foo1"; other "<a/>"; decl "foo2"; other "<b/>"]
    [decl "zzz"; other "<a/>"; decl "yyy"; other "<b/>"; decl "foo3"]
  = Ok ([(EmptyString, "foo3"); (EmptyString, "zzz"); ("foo1", "foo3");
         (EmptyString, "yyy"); ("foo2", "foo3")], 2, 3, 0)
  /\ find_changed_vars false [] "old.xml" "new.xml"
       [decl "zz"; other "<a/>"; decl "foo1"; other "<b/>"]
       [decl "foo3"; other "<a/>"; decl "yy"; other "<b/>"; decl "foo3"]
     = Ok ([("zz", "foo3"); (EmptyString, "foo3"); (EmptyString, "yy");
            ("zz", EmptyString); ("foo1", "foo3")], 2, 2, 1).
Proof. split; vm_compute; reflexivity. Qed.

(** C2 at two inputs.  [foo_bar] is removed and [foo_baz] added
    elsewhere: [foo_baz] scores above 0.7 for the whole name
    [foo_bar] and is the target of no rename, yet sweep 2, which asks for
    the first character only, leaves both records as they are.  And with
    [ab] and [ac] removed and [a] added, sweep 2 pairs [ab] with [a] and
    then raises [ValueError] when it removes the addition a second time. *)
Theorem sweep2_queries_first_character :
  scores_at_least GET_CLOSE_MATCHES_SECOND_PASS_CUTOFF "foo_baz" "foo_bar"
  = true
  /\ find_changed_vars false [] "old.xml" "new.xml"
       [decl "foo_bar"; other "<a/>"] [other "<a/>"; decl "foo_baz"]
     = Ok ([("foo_bar", EmptyString); (EmptyString, "foo_baz")], 0, 1, 1)
  /\ first_pass false []
       (unified_diff [decl "ab"; decl "ac"; other "<a/>"]
          [other "<a/>"; decl "a"] "old.xml" "new.xml" 0)
     = Ok ([("ab", EmptyString); ("ac", EmptyString); (EmptyString, "a")], [])
  /\ find_changed_vars false [] "old.xml" "new.xml"
       [decl "ab"; decl "ac"; other "<a/>"] [other "<a/>"; decl "a"]
     = Raise ValueError.
Proof. repeat split; vm_compute; reflexivity. Qed.

(** C4 at one input.  The only line of the old catalog declares [foo];
    the new catalog has a comment in its place.  The hunk has one removed
    and one added line, the added line is no declaration, and no record is
    produced for [foo]. *)
Theorem removed_name_facing_other_line_is_lost :
  unified_diff [decl "foo"] [other "<!-- gone -->"] "old.xml" "new.xml" 0
  = ["--- old.xml"; "+++ new.xml"; "@@ -1 +1 @@";
     String "-"%char (decl "foo"); String "+"%char (other "<!-- gone -->")]
  /\ find_changed_vars false [] "old.xml" "new.xml"
       [decl "foo"] [other "<!-- gone -->"]
     = Ok ([], 0, 0, 0).
Proof. split; vm_compute; reflexivity. Qed.

(** C7 at one input.  The second pass applied to the list it returned for
    a catalog with one rename and one similar new entry changes the list
    again. *)
Theorem second_pass_not_idempotent :
  let reconciled :=
    [(EmptyString, "foo3"); (EmptyString, "zzz"); ("foo1", "foo3")] in
  find_changed_vars false [] "old.xml" "new.xml"
    [decl "foo1"; other "<a/>"] [decl "zzz"; other "<a/>"; decl "foo3"]
  = Ok (reconciled, 1, 2, 0)
  /\ second_pass [("foo1", "zzz"); (EmptyString, "foo3")] = Ok reconciled
  /\ second_pass reconciled
     = Ok [(EmptyString, "foo3"); (EmptyString, "zzz"); (EmptyString, "foo3");
           (EmptyString, EmptyString); ("foo1", "foo3")].
Proof. repeat split; vm_compute; reflexivity. Qed.


(** ** The second pass loses no name *)

Lemma record_eqb_eq x y : record_eqb x y = true -> x = y.
Proof.
  destruct x as [a b], y as [c d]; unfold record_eqb; simpl.
  intros H; apply andb_true_iff in H as [H1 H2].
  apply String.eqb_eq in H1, H2; now subst.
Qed.

Lemma list_remove_record r l l' x :
  list_remove record_eqb r l = Ok l' -> In x l -> x = r \/ In x l'.
Proof.
  revert l'; induction l as [|y l IH]; simpl; intros l' H Hx; [tauto|].
  destruct (record_eqb y r) eqn:E.
  - inversion H; subst; destruct Hx as [<-|Hx]; auto.
    left; now apply record_eqb_eq.
  - apply bind_Ok in H as (t & Ht & H); inversion H; subst.
    destruct Hx as [<-|Hx]; [right; now left|].
    destruct (IH t Ht Hx); auto; right; now right.
Qed.

Lemma keeps_names_refl l : keeps_names l l.
Proof. intros name _; auto. Qed.

Lemma keeps_names_trans l1 l2 l3 :
  keeps_names l1 l2 -> keeps_names l2 l3 -> keeps_names l1 l3.
Proof.
  intros H12 H23 name Hn.
  destruct (H12 name Hn), (H23 name Hn); auto.
Qed.

Lemma sweep1_step_keeps repl_new new cur r out :
  sweep1_step repl_new new cur r = Ok out -> keeps_names cur out.
Proof.
  unfold sweep1_step.
  destruct (get_close_matches (fst r) new 1 _) as [|cm rest];
    [intros H; inversion H; subst; apply keeps_names_refl|].
  intros H; apply bind_Ok in H as (best & _ & H).
  destruct (String.eqb best cm);
    [|inversion H; subst; apply keeps_names_refl].
  assert (Hgen : forall c1 extra,
             list_remove record_eqb r cur = Ok c1 ->
             keeps_names cur
               (c1 ++ (EmptyString, snd r) :: extra ++ [(fst r, cm)])).
  { intros c1 extra Hrm name Hn; rewrite !map_app; simpl.
    rewrite !map_app; simpl; split; intros Hin;
      apply in_map_iff in Hin as (x & <- & Hx);
      destruct (list_remove_record _ _ _ _ Hrm Hx) as [->|Hx'].
    - apply in_or_app; right; right.
      apply in_or_app; right; now left.
    - apply in_or_app; left; now apply in_map.
    - apply in_or_app; right; now left.
    - apply in_or_app; left; now apply in_map. }
  destruct (negb (list_in String.eqb cm repl_new)).
  - apply bind_Ok in H as (c1 & Hrm & H); inversion H; subst.
    apply (Hgen c1 [] Hrm).
  - apply bind_Ok in H as (c1 & Hrm & H).
    apply bind_Ok in H as (orig & _ & H); inversion H; subst.
    rewrite <- app_assoc.
    apply (Hgen c1 [(orig, EmptyString)] Hrm).
Qed.

Lemma sweep2_step_keeps repl_new new cur d out :
  sweep2_step repl_new new cur d = Ok out -> keeps_names cur out.
Proof.
  unfold sweep2_step.
  intros H; apply bind_Ok in H as (d0 & _ & H).
  destruct (get_close_matches d0 new 1 _) as [|cm rest];
    [inversion H; subst; apply keeps_names_refl|].
  destruct (negb (list_in String.eqb cm repl_new)).
  - apply bind_Ok in H as (c1 & Hrm1 & H).
    apply bind_Ok in H as (c2 & Hrm2 & H); inversion H; subst.
    intros name Hn; rewrite !map_app; simpl; split; intros Hin;
      apply in_map_iff in Hin as (x & <- & Hx);
      destruct (list_remove_record _ _ _ _ Hrm1 Hx) as [->|Hx1];
      try (apply in_or_app; right; now left);
      try discriminate Hn;
      destruct (list_remove_record _ _ _ _ Hrm2 Hx1) as [->|Hx2];
      try (apply in_or_app; right; now left);
      try discriminate Hn;
      apply in_or_app; left; now apply in_map.
  - apply bind_Ok in H as (orig & _ & H).
    apply bind_Ok in H as (best & _ & H).
    destruct (String.eqb best d0);
      [|inversion H; subst; apply keeps_names_refl].
    rewrite list_remove_never in H by reflexivity; discriminate.
Qed.

Lemma for_each_keeps {X} (body : list record -> X -> result (list record))
  xs cur out :
  (forall s x s', body s x = Ok s' -> keeps_names s s') ->
  for_each body xs cur = Ok out ->
  keeps_names cur out.
Proof.
  intros Hbody.
  apply (for_each_invariant (keeps_names cur)); [apply keeps_names_refl|].
  intros s x s' _ Hs Hstep.
  eapply keeps_names_trans; eauto.
Qed.

(** Every name of the tentative list is still, as an old name or as a new
    name, in the list the second pass returns. *)
Lemma second_pass_keeps_names changes out :
  second_pass changes = Ok out -> keeps_names changes out.
Proof.
  unfold second_pass; intros H.
  apply bind_Ok in H as (c1 & H1 & H2).
  apply (keeps_names_trans _ c1).
  - revert H1; unfold sweep1; apply for_each_keeps.
    intros s r s'; apply sweep1_step_keeps.
  - revert H2; unfold sweep2; apply for_each_keeps.
    intros s d s'; apply sweep2_step_keeps.
Qed.

(** ** Which hunks record every name *)

Lemma new_names_only_spec plus_lines : forall changes A,
  collect_names plus_lines = Ok A ->
  new_names_only changes plus_lines
  = Ok (changes ++ map (fun a => (EmptyString, a)) A).
Proof.
  induction plus_lines as [|l ls IH]; intros changes A HA.
  - inversion HA; subst; simpl; now rewrite app_nil_r.
  - rewrite collect_names_cons in HA.
    unfold new_names_only in *; cbn [for_each].
    destruct (is_decl l); [|now apply IH].
    apply bind_Ok in HA as (n & Hn & HA).
    apply bind_Ok in HA as (A' & HA' & HA); inversion HA; subst.
    rewrite Hn; cbn [Py.bind].
    rewrite (IH _ A' HA'), <- app_assoc; reflexivity.
Qed.

Lemma deleted_names_only_spec minus_lines : forall changes R,
  collect_names minus_lines = Ok R ->
  deleted_names_only changes minus_lines
  = Ok (changes ++ map (fun r => (r, EmptyString)) R).
Proof.
  induction minus_lines as [|l ls IH]; intros changes R HR.
  - inversion HR; subst; simpl; now rewrite app_nil_r.
  - rewrite collect_names_cons in HR.
    unfold deleted_names_only in *; cbn [for_each].
    destruct (is_decl l); [|now apply IH].
    apply bind_Ok in HR as (n & Hn & HR).
    apply bind_Ok in HR as (R' & HR' & HR); inversion HR; subst.
    rewrite Hn; cbn [Py.bind].
    rewrite (IH _ R' HR'), <- app_assoc; reflexivity.
Qed.

Lemma list_remove_string c l l' x :
  list_remove String.eqb c l = Ok l' -> In x l -> x = c \/ In x l'.
Proof.
  revert l'; induction l as [|y l IH]; simpl; intros l' H Hx; [tauto|].
  destruct (String.eqb y c) eqn:E.
  - inversion H; subst; destruct Hx as [<-|Hx]; auto.
    left; now apply String.eqb_eq.
  - apply bind_Ok in H as (t & Ht & H); inversion H; subst.
    destruct Hx as [<-|Hx]; [right; now left|].
    destruct (IH t Ht Hx); auto; right; now right.
Qed.

(** The greedy pairing uses every removed name as an old name, and every
    added name either as a new name or not at all. *)
Lemma greedy_complete cutoff removed pool recs left :
  greedy cutoff removed pool recs left ->
  (forall r, In r removed -> In r (map fst recs))
  /\ (forall a, In a pool -> In a (map snd recs) \/ In a left).
Proof.
  induction 1 as [pool | r rs pool c pool' recs left Hb Hrm _ [IH1 IH2]
                 | r rs pool recs left Hno _ [IH1 IH2]]; simpl.
  - split; [intros r [] | auto].
  - split.
    + intros r' [<-|Hr]; auto.
    + intros a Ha.
      destruct (list_remove_string _ _ _ _ Hrm Ha) as [->|Ha']; auto.
      destruct (IH2 a Ha'); auto.
  - split.
    + intros r' [<-|Hr]; auto.
    + intros a Ha; destruct (IH2 a Ha); auto.
Qed.

Lemma combine_complete {X Y} (R : list X) (A : list Y) :
  List.length R = List.length A ->
  map fst (combine R A) = R /\ map snd (combine R A) = A.
Proof.
  revert A; induction R as [|r R IH]; intros [|a A] H; simpl in *;
    try discriminate; auto.
  destruct (IH A) as [-> ->]; auto.
Qed.

(** In automatic mode, a hunk whose lines are not of equal number, or
    whose declaration lines face declaration lines, records every removed
    name as an old name and every added name as a new name. *)
Lemma hunk_records_every_name entries changes minus_lines plus_lines R A out :
  collect_names minus_lines = Ok R ->
  collect_names plus_lines = Ok A ->
  (List.length minus_lines = List.length plus_lines ->
   Forall2 (fun m p => is_decl m = is_decl p) minus_lines plus_lines) ->
  process_diff_lines false entries changes minus_lines plus_lines = Ok out ->
  (forall r, In r R -> In r (map fst (fst out)))
  /\ (forall a, In a A -> In a (map snd (fst out))).
Proof.
  intros HR HA Hal Hrun.
  destruct (Nat.eq_dec (List.length minus_lines) (List.length plus_lines))
    as [Hlen|Hlen].
  - destruct (aligned_hunk_pairs false entries changes
                minus_lines plus_lines R A (Hal Hlen) HR HA)
      as (HRA & Hp).
    rewrite Hp in Hrun; inversion Hrun; subst; simpl.
    destruct (combine_complete R A HRA) as [E1 E2].
    unfold record in *; rewrite !map_app, E1, E2.
    split; intros; apply in_or_app; now right.
  - unfold process_diff_lines in Hrun.
    apply Nat.eqb_neq in Hlen; rewrite Hlen in Hrun.
    destruct (List.length minus_lines =? 0) eqn:Em.
    { apply Nat.eqb_eq, length_zero_iff_nil in Em; subst minus_lines.
      inversion HR; subst R.
      rewrite (new_names_only_spec _ changes A HA) in Hrun.
      inversion Hrun; subst; simpl; split; [intros r []|].
      intros a Ha; rewrite map_app; apply in_or_app; right.
      rewrite map_map; simpl; now rewrite map_id. }
    destruct (List.length plus_lines =? 0) eqn:Ep.
    { apply Nat.eqb_eq, length_zero_iff_nil in Ep; subst plus_lines.
      inversion HA; subst A.
      rewrite (deleted_names_only_spec _ changes R HR) in Hrun.
      inversion Hrun; subst; simpl; split; [|intros a []].
      intros r Hr; rewrite map_app; apply in_or_app; right.
      rewrite map_map; simpl; now rewrite map_id. }
    rewrite HR, HA in Hrun; cbn [Py.bind] in Hrun.
    destruct (match_loop_greedy R A changes) as (recs & left & G & Hloop).
    unfold match_names in Hrun; rewrite Hloop in Hrun.
    inversion Hrun; subst; simpl.
    destruct (greedy_complete _ _ _ _ _ G) as [G1 G2].
    split.
    + intros r Hr; rewrite !map_app.
      apply in_or_app; left; apply in_or_app; right; auto.
    + intros a Ha; rewrite !map_app.
      destruct (G2 a Ha).
      * apply in_or_app; left; apply in_or_app; now right.
      * apply in_or_app; right.
        rewrite map_map; simpl; now rewrite map_id.
Qed.

(* ===================================================================== *)
(** * Further properties of the script *)
(* ===================================================================== *)

(** ** More on the loops *)

Lemma for_each_app {S X} (body : S -> X -> result S) xs ys st :
  for_each body (xs ++ ys) st =
  Py.bind (for_each body xs st) (for_each body ys).
Proof.
  revert st; induction xs as [|x xs IH]; intros st; simpl; [reflexivity|].
  destruct (body st x) as [st'|e]; simpl; [apply IH | reflexivity].
Qed.

Lemma for_each_fix {S X} (body : S -> X -> result S) xs st :
  (forall x, In x xs -> body st x = Ok st) -> for_each body xs st = Ok st.
Proof.
  induction xs as [|x xs IH]; intros H; simpl; [reflexivity|].
  rewrite H by now left.
  simpl; apply IH; intros; apply H; now right.
Qed.

(** ** Hunks with lines on one side only *)

Lemma new_names_only_eq plus_lines : forall changes,
  new_names_only changes plus_lines
  = (names <- collect_names plus_lines ;;
     Ok (changes ++ map (fun a => (EmptyString, a)) names)).
Proof.
  induction plus_lines as [|l ls IH]; intros changes.
  - simpl; now rewrite app_nil_r.
  - rewrite collect_names_cons.
    unfold new_names_only in *; cbn [for_each].
    destruct (is_decl l); [|apply IH].
    destruct (quoted_name l) as [n|e]; cbn [Py.bind]; [|reflexivity].
    rewrite IH.
    destruct (collect_names ls) as [ns|e]; cbn [Py.bind map]; [|reflexivity].
    now rewrite <- app_assoc.
Qed.

Lemma deleted_names_only_eq minus_lines : forall changes,
  deleted_names_only changes minus_lines
  = (names <- collect_names minus_lines ;;
     Ok (changes ++ map (fun r => (r, EmptyString)) names)).
Proof.
  induction minus_lines as [|l ls IH]; intros changes.
  - simpl; now rewrite app_nil_r.
  - rewrite collect_names_cons.
    unfold deleted_names_only in *; cbn [for_each].
    destruct (is_decl l); [|apply IH].
    destruct (quoted_name l) as [n|e]; cbn [Py.bind]; [|reflexivity].
    rewrite IH.
    destruct (collect_names ls) as [ns|e]; cbn [Py.bind map]; [|reflexivity].
    now rewrite <- app_assoc.
Qed.

Lemma sided_hunk_runs (INTERACTIVE : bool) (entries : list pyval)
  (changes : list record) (lines : list string) :
  process_diff_lines INTERACTIVE entries changes [] lines
  = (names <- collect_names lines ;;
     Ok (changes ++ map (fun a => (EmptyString, a)) names, entries))
  /\ process_diff_lines INTERACTIVE entries changes lines []
     = (names <- collect_names lines ;;
        Ok (changes ++ map (fun r => (r, EmptyString)) names, entries)).
Proof.
  destruct lines as [|l ls].
  - split; cbn; now rewrite app_nil_r.
  - unfold process_diff_lines; cbn [List.length Nat.eqb]; split.
    + rewrite new_names_only_eq.
      now destruct (collect_names (l :: ls)).
    + rewrite deleted_names_only_eq.
      now destruct (collect_names (l :: ls)).
Qed.

(** X2.  A hunk with added lines only gives one pure addition for each of
    its declaration lines, in order, and a hunk with removed lines only one
    pure removal for each, whatever the mode; it raises what extracting the
    names raises. *)
Theorem one_sided_hunk (INTERACTIVE : bool) (entries : list pyval)
  (changes : list record) (lines : list string) :
  process_diff_lines INTERACTIVE entries changes [] lines
  = (names <- collect_names lines ;;
     Ok (changes ++ map (fun a => (EmptyString, a)) names, entries))
  /\ process_diff_lines INTERACTIVE entries changes lines []
     = (names <- collect_names lines ;;
        Ok (changes ++ map (fun r => (r, EmptyString)) names, entries)).
Proof. apply sided_hunk_runs. Qed.

(** ** What a hunk adds *)

Lemma pair_lines_frame minus_lines plus_lines : forall changes,
  pair_lines changes minus_lines plus_lines
  = (recs <- pair_lines [] minus_lines plus_lines ;; Ok (changes ++ recs)).
Proof.
  unfold pair_lines.
  induction (combine minus_lines plus_lines) as [|[m p] mps IH];
    intros changes; cbn [for_each].
  - cbn; now rewrite app_nil_r.
  - cbn [fst snd].
    destruct (is_decl m && is_decl p); cbn [Py.bind]; [|apply IH].
    destruct (quoted_name m) as [o|e]; cbn [Py.bind]; [|reflexivity].
    destruct (quoted_name p) as [n|e]; cbn [Py.bind]; [|reflexivity].
    unfold record in *.
    rewrite (IH (changes ++ [(o, n)])), (IH ([] ++ [(o, n)])).
    destruct (for_each _ mps []) as [recs|e]; cbn [Py.bind app];
      [|reflexivity].
    now rewrite <- app_assoc.
Qed.

Lemma match_loop_frame removals : forall changes recs additions,
  for_each match_step removals (changes ++ recs, additions)
  = (st <- for_each match_step removals (recs, additions) ;;
     Ok (changes ++ fst st, snd st)).
Proof.
  induction removals as [|r removals IH]; intros changes recs additions;
    cbn [for_each]; [reflexivity|].
  unfold match_step at 1 3.
  destruct (get_close_matches r additions 1 _) as [|c cs]; cbn [Py.bind].
  - rewrite <- app_assoc; apply IH.
  - destruct (list_remove String.eqb c additions) as [rest|e];
      cbn [Py.bind]; [|reflexivity].
    rewrite <- app_assoc; apply IH.
Qed.

Lemma ask_loop_frame removals : forall changes recs processed additions entries,
  for_each ask_step removals
    {| ask_changes := changes ++ recs; ask_processed := processed;
       ask_additions := additions; ask_entries := entries |}
  = (st <- for_each ask_step removals
             {| ask_changes := recs; ask_processed := processed;
                ask_additions := additions; ask_entries := entries |} ;;
     Ok {| ask_changes := changes ++ ask_changes st;
           ask_processed := ask_processed st;
           ask_additions := ask_additions st;
           ask_entries := ask_entries st |}).
Proof.
  induction removals as [|r removals IH];
    intros changes recs processed additions entries; cbn [for_each];
    [reflexivity|].
  unfold ask_step at 1 3;
    cbn [ask_changes ask_processed ask_additions ask_entries].
  destruct (get_choice _ entries) as [ve|e]; cbn [Py.bind]; [|reflexivity].
  destruct (int (fst ve)) as [v|e]; cbn [Py.bind]; [|reflexivity].
  destruct (_ && _).
  - destruct (list_index additions _) as [a|e]; cbn [Py.bind];
      [|reflexivity].
    destruct (list_remove String.eqb a additions) as [rest|e];
      cbn [Py.bind]; [|reflexivity].
    rewrite <- app_assoc; apply IH.
  - cbn [Py.bind]; apply IH.
Qed.

Lemma hunk_frame (INTERACTIVE : bool)
  (entries : list pyval) (changes : list record)
  (minus_lines plus_lines : list string) :
  process_diff_lines INTERACTIVE entries changes minus_lines plus_lines
  = (out <- process_diff_lines INTERACTIVE entries [] minus_lines plus_lines ;;
     Ok (changes ++ fst out, snd out)).
Proof.
  unfold process_diff_lines.
  destruct (List.length minus_lines =? List.length plus_lines).
  { rewrite pair_lines_frame.
    destruct (pair_lines [] minus_lines plus_lines); reflexivity. }
  destruct (List.length minus_lines =? 0).
  { rewrite !new_names_only_eq.
    destruct (collect_names plus_lines); reflexivity. }
  destruct (List.length plus_lines =? 0).
  { rewrite !deleted_names_only_eq.
    destruct (collect_names minus_lines); reflexivity. }
  destruct (collect_names minus_lines) as [R|e]; cbn [Py.bind];
    [|reflexivity].
  destruct (collect_names plus_lines) as [A|e]; cbn [Py.bind];
    [|reflexivity].
  destruct INTERACTIVE.
  - unfold ask_operator.
    rewrite <- (app_nil_r changes) at 1; rewrite ask_loop_frame.
    destruct (for_each ask_step R _) as [st|e]; cbn [Py.bind]; [|reflexivity].
    cbn [ask_changes ask_processed ask_additions ask_entries fst snd].
    now rewrite <- !app_assoc.
  - unfold match_names.
    rewrite <- (app_nil_r changes) at 1; rewrite match_loop_frame.
    destruct (for_each match_step R _) as [[recs left]|e]; cbn [Py.bind];
      [|reflexivity].
    cbn [fst snd]; now rewrite <- !app_assoc.
Qed.

(** X1.  A call of [process_diff_lines] only appends, and what it appends
    does not depend on the list it is given: the call is the same as a call
    with the empty list whose records are put behind the list.  So the
    hunks of a diff are handled one by one, none looking at the records of
    another. *)
Theorem hunk_records_are_appended (INTERACTIVE : bool)
  (entries : list pyval) (changes : list record)
  (minus_lines plus_lines : list string) :
  process_diff_lines INTERACTIVE entries changes minus_lines plus_lines
  = (out <- process_diff_lines INTERACTIVE entries [] minus_lines plus_lines ;;
     Ok (changes ++ fst out, snd out)).
Proof. apply hunk_frame. Qed.

(** ** A declaration line without a double quote *)

Lemma str_split_not_nil sep s : str_split sep s <> [].
Proof.
  destruct s as [|c s]; simpl; [discriminate|].
  destruct (Ascii.eqb c sep); [discriminate|].
  destruct (str_split sep s); discriminate.
Qed.

Lemma str_in_dquote_cons c s :
  str_in (String dquote EmptyString) (String c s)
  = Ascii.eqb c dquote || str_in (String dquote EmptyString) s.
Proof.
  change (str_in (String dquote EmptyString) (String c s))
    with (String.prefix (String dquote EmptyString) (String c s)
          || str_in (String dquote EmptyString) s).
  f_equal.
  change (String.prefix (String dquote EmptyString) (String c s))
    with (if ascii_dec dquote c then String.prefix EmptyString s else false).
  destruct (ascii_dec dquote c) as [<-|Hne].
  - now rewrite prefix_empty, Ascii.eqb_refl.
  - symmetry; apply Ascii.eqb_neq; congruence.
Qed.

Lemma quoted_name_cases line :
  (str_in (String dquote EmptyString) line = true
   /\ exists n, quoted_name line = Ok n)
  \/ (str_in (String dquote EmptyString) line = false
      /\ quoted_name line = Raise IndexError).
Proof.
  unfold quoted_name, list_index.
  induction line as [|c s IH].
  - right; split; reflexivity.
  - rewrite str_in_dquote_cons; cbn [str_split].
    destruct (Ascii.eqb c dquote) eqn:E; cbn [orb].
    + left; split; [reflexivity|].
      pose proof (str_split_not_nil dquote s).
      destruct (str_split dquote s) as [|w ws]; [congruence|].
      simpl; eauto.
    + destruct (str_split dquote s) as [|w ws] eqn:Es;
        [now destruct (str_split_not_nil dquote s)|].
      exact IH.
Qed.

Lemma collect_names_raises lines :
  (forall e, collect_names lines = Raise e -> e = IndexError)
  /\ (collect_names lines = Raise IndexError <-> Exists unquoted_decl lines).
Proof.
  induction lines as [|l ls [IH1 IH2]].
  - split; [discriminate|].
    split; [discriminate | intros H; inversion H].
  - rewrite collect_names_cons.
    destruct (is_decl l) eqn:Hd.
    + destruct (quoted_name_cases l) as [[Hq (n & ->)]|[Hq ->]];
        cbn [Py.bind].
      * destruct (collect_names ls) as [ns|e] eqn:Hc; cbn [Py.bind].
        -- split; [discriminate|].
           split; [discriminate|].
           intros H; inversion H as [? ? [_ Hl]|? ? Hl]; subst.
           ++ congruence.
           ++ apply IH2 in Hl; discriminate.
        -- split; [intros e' H; inversion H; subst; now apply IH1|].
           split.
           ++ intros H; apply Exists_cons_tl, IH2.
              now inversion H; subst.
           ++ intros _; rewrite (IH1 e eq_refl); reflexivity.
      * split; [intros e H; now inversion H|].
        split; [|reflexivity].
        intros _; apply Exists_cons_hd; split; assumption.
    + split; [exact IH1|].
      rewrite IH2; split.
      * now apply Exists_cons_tl.
      * intros H; inversion H as [? ? [Hl _]|? ? Hl]; subst;
          [congruence | assumption].
Qed.

(** X3.  Extracting the names of a hunk raises [IndexError], and nothing
    else, exactly when one of the declaration lines has no double quote in
    it; a hunk with lines on one side only then raises it. *)
Theorem unquoted_declaration_raises (INTERACTIVE : bool)
  (entries : list pyval) (changes : list record) (lines : list string) :
  (forall e, collect_names lines = Raise e -> e = IndexError)
  /\ (collect_names lines = Raise IndexError <-> Exists unquoted_decl lines)
  /\ (process_diff_lines INTERACTIVE entries changes [] lines
      = Raise IndexError <-> Exists unquoted_decl lines)
  /\ (process_diff_lines INTERACTIVE entries changes lines []
      = Raise IndexError <-> Exists unquoted_decl lines).
Proof.
  destruct (collect_names_raises lines) as [H1 H2].
  destruct (sided_hunk_runs INTERACTIVE entries changes lines) as [-> ->].
  repeat split; try apply H1; try apply H2.
  - intros H; apply H2.
    destruct (collect_names lines) as [ns|e]; [discriminate|].
    now rewrite (H1 e eq_refl).
  - intros H; apply H2 in H; now rewrite H.
  - intros H; apply H2.
    destruct (collect_names lines) as [ns|e]; [discriminate|].
    now rewrite (H1 e eq_refl).
  - intros H; apply H2 in H; now rewrite H.
Qed.

Lemma unquoted_declaration_raises_witness :
  process_diff_lines false [] [] [] ["+<standard_name name=foo>"]
  = Raise IndexError.
Proof.
  destruct (unquoted_declaration_raises false [] []
              ["+<standard_name name=foo>"]) as (_ & _ & [_ H] & _).
  apply H, Exists_cons_hd; split; vm_compute; reflexivity.
Defined.

(** ** Lines of the diff in the first pass *)

Lemma first_pass_split (INTERACTIVE : bool) (entries : list pyval)
  (pre post : list string) (l : string) :
  first_pass INTERACTIVE entries (pre ++ l :: post)
  = (st <- for_each (diff_line_step INTERACTIVE) pre
             {| std_name_changes_of := [];
                minus_lines_of := [];
                plus_lines_of := [];
                entries_of := entries |} ;;
     st' <- diff_line_step INTERACTIVE st l ;;
     st'' <- for_each (diff_line_step INTERACTIVE) post st' ;;
     process_diff_lines INTERACTIVE (entries_of st'') (std_name_changes_of st'')
       (minus_lines_of st'') (plus_lines_of st'')).
Proof.
  unfold first_pass; rewrite for_each_app; cbn [for_each].
  destruct (for_each _ pre _) as [st|e]; cbn [Py.bind]; [|reflexivity].
  destruct (diff_line_step INTERACTIVE st l); reflexivity.
Qed.

(** X6.  A line of the diff that contains two at-signs in a row only closes
    the hunk: the rest of its text is never looked at, so any two such lines
    can stand for one another. *)
Theorem separator_text_is_ignored (INTERACTIVE : bool) (entries : list pyval)
  (pre post : list string) (l l' : string) :
  str_in "@@" (str_lower l) = true ->
  str_in "@@" (str_lower l') = true ->
  first_pass INTERACTIVE entries (pre ++ l :: post)
  = first_pass INTERACTIVE entries (pre ++ l' :: post).
Proof.
  intros H H'; rewrite !first_pass_split.
  destruct (for_each _ pre _) as [st|e]; cbn [Py.bind]; [|reflexivity].
  unfold diff_line_step; now rewrite H, H'.
Qed.

Lemma separator_text_is_ignored_witness :
  first_pass false []
    ([removed_line (decl "foo1")] ++ "@@ -2 +2 @@"
       :: [added_line (decl "foo2")])
  = first_pass false []
      ([removed_line (decl "foo1")] ++ removed_line (decl "a@@b")
         :: [added_line (decl "foo2")]).
Proof.
  apply (separator_text_is_ignored false [] [removed_line (decl "foo1")]
           [added_line (decl "foo2")]);
    vm_compute; reflexivity.
Defined.

(** X7.  A line of the diff without two at-signs in a row whose first
    character is neither a minus nor a plus sign changes nothing; an empty
    line raises [IndexError] once the lines before it have been read. *)
Theorem unrecognised_line_is_skipped (INTERACTIVE : bool)
  (entries : list pyval) (pre post : list string) :
  (forall l c, str_in "@@" (str_lower l) = false ->
     str_first (str_lower l) = Ok c -> c <> "-" -> c <> "+" ->
     first_pass INTERACTIVE entries (pre ++ l :: post)
     = first_pass INTERACTIVE entries (pre ++ post))
  /\ (forall out, first_pass INTERACTIVE entries pre = Ok out ->
      first_pass INTERACTIVE entries (pre ++ EmptyString :: post)
      = Raise IndexError).
Proof.
  split.
  - intros l c H Hc Hm Hp; rewrite first_pass_split.
    unfold first_pass; rewrite for_each_app.
    destruct (for_each _ pre _) as [st|e]; cbn [Py.bind]; [|reflexivity].
    unfold diff_line_step at 1; rewrite H, Hc; cbn [Py.bind].
    apply String.eqb_neq in Hm, Hp; now rewrite Hm, Hp.
  - intros out H; rewrite first_pass_split.
    unfold first_pass in H.
    destruct (for_each _ pre _) as [st|e]; cbn [Py.bind] in *;
      [reflexivity | discriminate].
Qed.

Lemma unrecognised_line_is_skipped_witness :
  first_pass false []
    ([removed_line (decl "foo1")] ++ other " <section>"
       :: [added_line (decl "foo2")])
  = first_pass false []
      ([removed_line (decl "foo1")] ++ [added_line (decl "foo2")]).
Proof.
  destruct (unrecognised_line_is_skipped false [] [removed_line (decl "foo1")]
              [added_line (decl "foo2")]) as [H _].
  apply (H (other " <section>") " ");
    [vm_compute; reflexivity | vm_compute; reflexivity
     | discriminate | discriminate].
Defined.

Lemma group_header_separates (g : list opcode) :
  str_in "@@" (str_lower (group_header g)) = true.
Proof.
  unfold group_header.
  destruct (hd (Equal, 0, 0, 0, 0) g) as [[[[t i1] i2] j1] j2].
  destruct (last g (Equal, 0, 0, 0, 0)) as [[[[t' i1'] i2'] j1'] j2'].
  reflexivity.
Qed.

Lemma header_lines_skipped (INTERACTIVE : bool) (entries : list pyval)
  (old_file new_file : string) (g : list opcode) (rest : list string) :
  plain_names old_file new_file ->
  first_pass INTERACTIVE entries
    (String.append "--- " old_file :: String.append "+++ " new_file
     :: group_header g :: rest)
  = first_pass INTERACTIVE entries (group_header g :: rest).
Proof.
  intros (Ha1 & Ha2 & Hd).
  unfold first_pass; cbn [for_each].
  unfold diff_line_step at 1; rewrite Ha1.
  change (str_first (str_lower (String.append "--- " old_file)))
    with (@Ok string "-").
  cbn [Py.bind String.eqb Ascii.eqb Bool.eqb].
  unfold diff_line_step at 1; rewrite Ha2.
  change (str_first (str_lower (String.append "+++ " new_file)))
    with (@Ok string "+").
  cbn [Py.bind String.eqb Ascii.eqb Bool.eqb].
  unfold diff_line_step at 1 3; rewrite group_header_separates.
  cbn [std_name_changes_of minus_lines_of plus_lines_of entries_of app].
  unfold process_diff_lines at 1 3; cbn [List.length Nat.eqb].
  unfold pair_lines; cbn [combine for_each].
  cbn [fst snd]; rewrite Hd; reflexivity.
Qed.

(** X9.  The two file names only reach the header lines of the diff: as long
    as neither header line has two at-signs in a row and they are not both
    declaration lines, [find_changed_vars] returns the same for any names. *)
Theorem file_names_do_not_matter (INTERACTIVE : bool) (entries : list pyval)
  (old_file new_file old_file' new_file' : string)
  (file_1_text file_2_text : list string) :
  plain_names old_file new_file ->
  plain_names old_file' new_file' ->
  find_changed_vars INTERACTIVE entries old_file new_file
    file_1_text file_2_text
  = find_changed_vars INTERACTIVE entries old_file' new_file'
      file_1_text file_2_text.
Proof.
  intros H H'.
  unfold find_changed_vars, unified_diff.
  destruct (get_grouped_opcodes String.eqb file_1_text file_2_text 0)
    as [|g gs]; [reflexivity|].
  cbn [flat_map app].
  rewrite (header_lines_skipped _ _ _ _ _ _ H).
  now rewrite (header_lines_skipped _ _ _ _ _ _ H').
Qed.

Lemma file_names_do_not_matter_witness :
  find_changed_vars false [] "standard_names_old.xml" "standard_names.xml"
    [decl "foo1"; other "<a/>"] [decl "foo2"; other "<a/>"]
  = find_changed_vars false [] "a" "b"
      [decl "foo1"; other "<a/>"] [decl "foo2"; other "<a/>"].
Proof.
  apply file_names_do_not_matter; vm_compute; repeat split.
Defined.

(** ** When the second pass changes nothing *)

Lemma calculate_ratio_cutoff m total :
  0 < total ->
  Qle_bool GET_CLOSE_MATCHES_SECOND_PASS_CUTOFF (calculate_ratio m total)
  = true ->
  7 * total <= 20 * m.
Proof.
  intros Ht H; destruct total as [|n]; [lia|].
  apply Qle_bool_iff in H.
  unfold Qle, calculate_ratio, GET_CLOSE_MATCHES_SECOND_PASS_CUTOFF in H.
  cbn [Qnum Qden] in H.
  pose proof (positive_nat_Z (Pos.of_nat (S n))) as Hp.
  rewrite Nat2Pos.id in Hp by discriminate.
  lia.
Qed.

Lemma one_char_scores_low (a : string) (c : ascii) :
  truthy a = true -> a <> String c EmptyString ->
  scores_at_least GET_CLOSE_MATCHES_SECOND_PASS_CUTOFF a
    (String c EmptyString) = false.
Proof.
  intros Ht Hne.
  unfold scores_at_least, str_ratio, ratio.
  pose proof (matches_le_quick Ascii.eqb ascii_eqb_spec
                (list_ascii_of_string a)
                (list_ascii_of_string (String c EmptyString))) as HM.
  set (M := fold_left _ _ 0) in *.
  destruct (Qle_bool _ _) eqn:E; [exfalso | reflexivity].
  apply calculate_ratio_cutoff in E.
  2:{ cbn [list_ascii_of_string List.length]; lia. }
  destruct a as [|c1 [|c2 a']]; [discriminate | |].
  - cbn [list_ascii_of_string quick_matches existsb List.length] in HM, E.
    rewrite orb_false_r in HM.
    destruct (Ascii.eqb c c1) eqn:Ec; [|lia].
    apply Ascii.eqb_eq in Ec; subst; now apply Hne.
  - pose proof (quick_matches_le_b Ascii.eqb
                  (list_ascii_of_string (String c1 (String c2 a')))
                  (list_ascii_of_string (String c EmptyString))) as Hb.
    cbn [list_ascii_of_string List.length] in *; lia.
Qed.

Lemma sweep1_step_idle repl_new new changes r :
  (forall a, In a new ->
     scores_at_least GET_CLOSE_MATCHES_SECOND_PASS_CUTOFF a (fst r) = false) ->
  sweep1_step repl_new new changes r = Ok changes.
Proof.
  intros H; unfold sweep1_step.
  destruct (get_close_matches_one (fst r) new
              GET_CLOSE_MATCHES_SECOND_PASS_CUTOFF)
    as [[-> _]|(c & -> & Hin & Hs & _)]; [reflexivity|].
  rewrite (H c Hin) in Hs; discriminate.
Qed.

Lemma sweep2_step_idle repl_new new changes d :
  truthy d = true ->
  (forall a, In a new -> truthy a = true /\ str_first d <> Ok a) ->
  sweep2_step repl_new new changes d = Ok changes.
Proof.
  intros Hd H; unfold sweep2_step.
  destruct d as [|c d']; [discriminate|]; cbn [str_first Py.bind].
  destruct (get_close_matches_one (String c EmptyString) new
              GET_CLOSE_MATCHES_SECOND_PASS_CUTOFF)
    as [[-> _]|(a & -> & Hin & Hs & _)]; [reflexivity|].
  destruct (H a Hin) as [Ha Hne].
  rewrite one_char_scores_low in Hs; [discriminate | assumption |].
  intros ->; now apply Hne.
Qed.

Lemma sweep2_idle changes :
  (forall d a, In d (removed_names changes) ->
     In a (added_names changes) -> str_first d <> Ok a) ->
  sweep2 changes = Ok changes.
Proof.
  intros H; unfold sweep2; apply for_each_fix; intros d Hd.
  apply sweep2_step_idle.
  - apply in_map_iff in Hd as (x & <- & Hx).
    apply filter_In in Hx as [_ Hx].
    unfold is_removal in Hx; now apply andb_true_iff in Hx.
  - intros a Ha; split; [now apply (added_names_truthy changes)|].
    now apply H.
Qed.

(** X14.  The second sweep of the second pass changes nothing unless some
    added name is exactly the first character of a removed name. *)
Theorem sweep2_needs_one_letter_addition (changes : list record) :
  (forall d a, In d (removed_names changes) ->
     In a (added_names changes) -> str_first d <> Ok a) ->
  sweep2 changes = Ok changes.
Proof. apply sweep2_idle. Qed.

(** X15.  The second pass returns the list unchanged, and raises nothing,
    when no added name scores at least the second-pass cutoff against the
    old name of a rename and no added name is the first character of a
    removed name; so it does for a list without pure additions. *)
Theorem second_pass_leaves_settled_list (changes : list record) :
  quiescent changes -> second_pass changes = Ok changes.
Proof.
  intros [H1 H2]; unfold second_pass.
  assert (Hs : sweep1 changes = Ok changes).
  { unfold sweep1; apply for_each_fix; intros r Hr.
    apply filter_In in Hr as [Hin Hr].
    apply sweep1_step_idle; intros a Ha.
    now apply (H1 r a). }
  rewrite Hs; cbn [Py.bind]; now apply sweep2_idle.
Qed.

Lemma second_pass_leaves_settled_list_witness :
  second_pass [("foo1", "foo2"); (EmptyString, "zzzz"); ("qux", EmptyString)]
  = Ok [("foo1", "foo2"); (EmptyString, "zzzz"); ("qux", EmptyString)].
Proof.
  apply second_pass_leaves_settled_list; split.
  - intros x a Hx Hr Ha; vm_compute in Ha; destruct Ha as [<-|[]].
    destruct Hx as [<-|[<-|[<-|[]]]]; try discriminate Hr.
    vm_compute; reflexivity.
  - intros d a Hd Ha; vm_compute in Hd, Ha.
    destruct Hd as [<-|[]], Ha as [<-|[]]; discriminate.
Defined.

Lemma sweep2_needs_one_letter_addition_witness :
  sweep2 [("foo1", EmptyString); (EmptyString, "foo2")]
  = Ok [("foo1", EmptyString); (EmptyString, "foo2")].
Proof.
  apply sweep2_needs_one_letter_addition.
  intros d a Hd Ha; vm_compute in Hd, Ha.
  destruct Hd as [<-|[]], Ha as [<-|[]]; discriminate.
Defined.

(** ** Every name of a hunk is recorded, in both modes *)

Lemma ask_operator_complete changes R A entries out :
  ask_operator changes R A entries = Ok out ->
  (forall r, In r R -> In r (map fst (fst out)))
  /\ (forall a, In a A -> In a (map snd (fst out))).
Proof.
  unfold ask_operator; intros H.
  apply bind_Ok in H as (st & Hloop & H); inversion H; subst; clear H.
  cbn [fst].
  assert (Inv : (forall r, In r (ask_processed st) ->
                           In r (map fst (ask_changes st)))
                /\ (forall a, In a A -> In a (map snd (ask_changes st))
                                        \/ In a (ask_additions st))).
  { revert Hloop.
    apply (for_each_invariant
             (fun st => (forall r, In r (ask_processed st) ->
                                   In r (map fst (ask_changes st)))
                        /\ (forall a, In a A ->
                              In a (map snd (ask_changes st))
                              \/ In a (ask_additions st)))).
    - cbn; split; [intros r [] | intros a Ha; now right].
    - intros s removal s' _ [Hp Ha] Hstep.
      unfold ask_step in Hstep.
      apply bind_Ok in Hstep as (ve & _ & Hstep).
      apply bind_Ok in Hstep as (v & _ & Hstep).
      destruct (_ && _).
      + apply bind_Ok in Hstep as (a0 & _ & Hstep).
        apply bind_Ok in Hstep as (rest & Hrm & Hstep).
        inversion Hstep; subst; clear Hstep; cbn.
        unfold record in *; rewrite !map_app; cbn; split.
        * intros r Hr; apply in_app_or in Hr as [Hr|[<-|[]]];
            apply in_or_app; [left; auto | right; now left].
        * intros a Hin; destruct (Ha a Hin) as [Hc|Hc].
          -- left; apply in_or_app; now left.
          -- destruct (list_remove_string _ _ _ a Hrm Hc) as [->|Hr];
               [left; apply in_or_app; right; now left | now right].
      + inversion Hstep; subst; clear Hstep; cbn; split; assumption. }
  destruct Inv as [Hp Ha].
  unfold record in *; rewrite !map_app, !map_map; cbn [fst snd].
  rewrite !map_id; split.
  - intros r Hr.
    destruct (list_in String.eqb r (ask_processed st)) eqn:E.
    + apply in_or_app; left; apply Hp; now apply list_in_In.
    + apply in_or_app; right; apply in_or_app; left.
      apply filter_In; split; [assumption | now rewrite E].
  - intros a Hin; destruct (Ha a Hin) as [Hc|Hc]; apply in_or_app;
      [now left | right; apply in_or_app; now right].
Qed.

(** X4.  In both modes, a hunk whose lines are not of equal number, or
    whose declaration lines face declaration lines, records every removed
    name as an old name and every added name as a new name. *)
Theorem hunk_keeps_every_name (INTERACTIVE : bool) (entries : list pyval)
  (changes : list record) (minus_lines plus_lines : list string)
  (R A : list string) (out : list record * list pyval) :
  collect_names minus_lines = Ok R ->
  collect_names plus_lines = Ok A ->
  (List.length minus_lines = List.length plus_lines ->
   Forall2 (fun m p => is_decl m = is_decl p) minus_lines plus_lines) ->
  process_diff_lines INTERACTIVE entries changes minus_lines plus_lines
  = Ok out ->
  (forall r, In r R -> In r (map fst (fst out)))
  /\ (forall a, In a A -> In a (map snd (fst out))).
Proof.
  intros HR HA Hal Hrun.
  destruct INTERACTIVE;
    [|now apply (hunk_records_every_name entries changes
                   minus_lines plus_lines)].
  destruct (Nat.eq_dec (List.length minus_lines) (List.length plus_lines))
    as [Hlen|Hlen].
  - destruct (aligned_hunk_pairs true entries changes
                minus_lines plus_lines R A (Hal Hlen) HR HA)
      as (HRA & Hp).
    rewrite Hp in Hrun; inversion Hrun; subst; simpl.
    destruct (combine_complete R A HRA) as [E1 E2].
    unfold record in *; rewrite !map_app, E1, E2.
    split; intros; apply in_or_app; now right.
  - unfold process_diff_lines in Hrun.
    apply Nat.eqb_neq in Hlen; rewrite Hlen in Hrun.
    destruct (List.length minus_lines =? 0) eqn:Em.
    { apply Nat.eqb_eq, length_zero_iff_nil in Em; subst minus_lines.
      inversion HR; subst R.
      rewrite (new_names_only_spec _ changes A HA) in Hrun.
      inversion Hrun; subst; simpl; split; [intros r []|].
      intros a Ha; rewrite map_app; apply in_or_app; right.
      rewrite map_map; simpl; now rewrite map_id. }
    destruct (List.length plus_lines =? 0) eqn:Ep.
    { apply Nat.eqb_eq, length_zero_iff_nil in Ep; subst plus_lines.
      inversion HA; subst A.
      rewrite (deleted_names_only_spec _ changes R HR) in Hrun.
      inversion Hrun; subst; simpl; split; [|intros a []].
      intros r Hr; rewrite map_app; apply in_or_app; right.
      rewrite map_map; simpl; now rewrite map_id. }
    rewrite HR, HA in Hrun; cbn [Py.bind] in Hrun.
    now apply (ask_operator_complete changes R A entries).
Qed.

Lemma hunk_keeps_every_name_witness :
  let out := ([("foo1", "bar"); ("foo2", EmptyString)], @nil pyval) in
  (forall r, In r ["foo1"; "foo2"] -> In r (map fst (fst out)))
  /\ (forall a, In a ["bar"] -> In a (map snd (fst out))).
Proof.
  apply (hunk_keeps_every_name true [PStr "x"; PInt 1; PInt 0] []
           [removed_line (decl "foo1"); removed_line (decl "foo2")]
           [added_line (decl "bar")]).
  - vm_compute; reflexivity.
  - vm_compute; reflexivity.
  - intros H; discriminate H.
  - vm_compute; reflexivity.
Defined.

(** ** The three counts *)

Lemma counts_partition (changes : list record) :
  List.length (filter is_replacement changes)
  + List.length (filter is_add changes)
  + List.length (filter is_removal changes)
  + List.length (filter (fun x => negb (truthy (fst x))
                                  && negb (truthy (snd x))) changes)
  = List.length changes.
Proof.
  induction changes as [|[o n] changes IH]; [reflexivity|].
  unfold is_replacement, is_add, is_removal in *; cbn [filter fst snd].
  destruct (truthy o), (truthy n); cbn [andb negb List.length]; lia.
Qed.

Lemma no_empty_record (changes : list record) :
  Forall nonempty_record changes <->
  filter (fun x => negb (truthy (fst x)) && negb (truthy (snd x))) changes
  = [].
Proof.
  induction changes as [|[o n] changes IH]; cbn [filter fst snd].
  - split; auto.
  - split.
    + intros H; inversion H as [|? ? [Hx|Hx] Hr]; subst; cbn [fst snd] in Hx;
        rewrite Hx; cbn [negb andb]; rewrite ?andb_false_r; now apply IH.
    + destruct (truthy o) eqn:Eo; cbn [negb andb].
      * intros H; constructor; [now left | now apply IH].
      * destruct (truthy n) eqn:En; cbn [negb]; [|discriminate].
        intros H; constructor; [now right | now apply IH].
Qed.

(** X18.  The three counts that [find_changed_vars] and [parse_change_file]
    return never exceed the number of records, and add up to it exactly when
    no record has both fields empty. *)
Theorem counts_add_up (changes : list record) (l : list record)
  (n_replacements n_adds n_removals : nat) :
  with_counts changes = (l, n_replacements, n_adds, n_removals) ->
  l = changes
  /\ n_replacements + n_adds + n_removals <= List.length changes
  /\ (Forall nonempty_record changes <->
      n_replacements + n_adds + n_removals = List.length changes).
Proof.
  unfold with_counts; intros H; injection H as El E1 E2 E3.
  subst l n_replacements n_adds n_removals.
  pose proof (counts_partition changes) as Hc.
  split; [reflexivity|]; split; [lia|].
  rewrite no_empty_record; split.
  - intros E; rewrite E in Hc; cbn in Hc; lia.
  - intros E; apply length_zero_iff_nil; lia.
Qed.

Lemma counts_add_up_witness :
  let changes := [("foo1", "foo2"); (EmptyString, "bar")] in
  changes = changes
  /\ 1 + 1 + 0 <= List.length changes
  /\ (Forall nonempty_record changes <-> 1 + 1 + 0 = List.length changes).
Proof.
  apply (counts_add_up [("foo1", "foo2"); (EmptyString, "bar")]).
  vm_compute; reflexivity.
Defined.

(** ** Replaying a change file *)

Lemma parse_change_file_eq changes host_keys physics_keys :
  parse_change_file changes host_keys physics_keys
  = (map cannot_implement
       (filter (refused (host_keys ++ physics_keys)) changes),
     with_counts
       (filter (fun c => negb (refused (host_keys ++ physics_keys) c))
          changes)).
Proof. unfold parse_change_file; now rewrite validate_fold. Qed.

(** X19.  Every record of the change file is either applied or reported,
    never both: the diagnostics and the applied records together are as many
    as the records read; and every rename that the editing step takes from
    the applied records has an old name among the metadata keys. *)
Theorem replayed_renames_are_known (changes : list record)
  (host_keys physics_keys : list string) (printed : list string)
  (applied : list record) (n_replacements n_adds n_removals : nat) :
  parse_change_file changes host_keys physics_keys
  = (printed, (applied, n_replacements, n_adds, n_removals)) ->
  List.length printed + List.length applied = List.length changes
  /\ forall r, In r (std_nm_replacements applied) ->
       In r changes /\ In (fst r) (host_keys ++ physics_keys).
Proof.
  rewrite parse_change_file_eq; unfold with_counts.
  intros H; inversion H; subst; clear H; split.
  - rewrite length_map.
    induction changes as [|c changes IH]; [reflexivity|].
    cbn [filter]; destruct (refused _ c); cbn [negb List.length]; lia.
  - intros r Hr; unfold std_nm_replacements in Hr.
    apply filter_In in Hr as [Hr Hrep].
    apply filter_In in Hr as [Hin Hk]; split; [assumption|].
    unfold refused in Hk; rewrite Hrep in Hk; cbn [andb] in Hk.
    apply list_in_In; now destruct (list_in _ _ _).
Qed.

Lemma replayed_renames_are_known_witness :
  let changes := [("foo1", "foo2"); ("zzz", "yyy"); ("qux", EmptyString)] in
  let applied := [("foo1", "foo2"); ("qux", EmptyString)] in
  List.length [cannot_implement ("zzz", "yyy")] + List.length applied
  = List.length changes
  /\ forall r, In r (std_nm_replacements applied) ->
       In r changes /\ In (fst r) (["foo1"] ++ ["bar"]).
Proof.
  apply (replayed_renames_are_known
           [("foo1", "foo2"); ("zzz", "yyy"); ("qux", EmptyString)]
           ["foo1"] ["bar"] _ _ 1 0 1).
  vm_compute; reflexivity.
Defined.

(** X20.  Replaying the applied records again, and with more metadata keys
    as well, applies them all and reports nothing. *)
Theorem replay_is_idempotent (changes : list record)
  (host_keys physics_keys host_keys' physics_keys' : list string)
  (printed : list string) (applied : list record)
  (n_replacements n_adds n_removals : nat) :
  incl (host_keys ++ physics_keys) (host_keys' ++ physics_keys') ->
  parse_change_file changes host_keys physics_keys
  = (printed, (applied, n_replacements, n_adds, n_removals)) ->
  parse_change_file applied host_keys' physics_keys'
  = ([], (applied, n_replacements, n_adds, n_removals)).
Proof.
  intros Hincl; rewrite !parse_change_file_eq.
  set (known := host_keys ++ physics_keys) in *.
  set (known' := host_keys' ++ physics_keys') in *.
  unfold with_counts; intros H; injection H as _ Ea E1 E2 E3.
  assert (Hall : forall c, In c applied -> refused known' c = false).
  { intros c Hc; rewrite <- Ea in Hc; apply filter_In in Hc as [_ Hc].
    unfold refused in *.
    destruct (is_replacement c); [cbn [andb] in *|reflexivity].
    destruct (list_in String.eqb (fst c) known) eqn:E; [|discriminate].
    apply list_in_In, Hincl, list_in_In in E; now rewrite E. }
  assert (F1 : filter (refused known') applied = []).
  { clear Ea E1 E2 E3; induction applied as [|c l IH]; [reflexivity|].
    cbn [filter]; rewrite (Hall c) by now left.
    apply IH; intros; apply Hall; now right. }
  assert (F2 : filter (fun c => negb (refused known' c)) applied = applied).
  { clear Ea E1 E2 E3 F1; induction applied as [|c l IH]; [reflexivity|].
    cbn [filter]; rewrite (Hall c) by now left.
    cbn [negb]; f_equal; apply IH; intros; apply Hall; now right. }
  rewrite F1, F2; cbn [map]; rewrite <- E1, <- E2, <- E3, Ea; reflexivity.
Qed.

Lemma replay_is_idempotent_witness :
  parse_change_file [("foo1", "foo2"); ("qux", EmptyString)]
    ["foo1"; "foo0"] ["bar"]
  = ([], ([("foo1", "foo2"); ("qux", EmptyString)], 1, 0, 1)).
Proof.
  apply (replay_is_idempotent
           [("foo1", "foo2"); ("zzz", "yyy"); ("qux", EmptyString)]
           ["foo1"] ["bar"] ["foo1"; "foo0"] ["bar"]
           [cannot_implement ("zzz", "yyy")]).
  - intros x Hx; vm_compute in Hx |- *; tauto.
  - vm_compute; reflexivity.
Defined.

(** ** Names survive the second pass *)

(** X16.  The second pass never drops a name: every non-empty old name of
    the list it is given is an old name of the list it returns, and every
    non-empty new name a new name. *)
Theorem second_pass_never_drops_a_name (changes out : list record) :
  second_pass changes = Ok out ->
  forall name, truthy name = true ->
    (In name (map fst changes) -> In name (map fst out))
    /\ (In name (map snd changes) -> In name (map snd out)).
Proof. intros H; exact (second_pass_keeps_names changes out H). Qed.

Lemma second_pass_never_drops_a_name_witness :
  (In "foo1" (map fst [("foo1", "zzz"); (EmptyString, "foo3")]) ->
   In "foo1" (map fst [(EmptyString, "foo3"); (EmptyString, "zzz");
                       ("foo1", "foo3")]))
  /\ (In "foo1" (map snd [("foo1", "zzz"); (EmptyString, "foo3")]) ->
      In "foo1" (map snd [(EmptyString, "foo3"); (EmptyString, "zzz");
                          ("foo1", "foo3")])).
Proof.
  apply (second_pass_never_drops_a_name
           [("foo1", "zzz"); (EmptyString, "foo3")]
           [(EmptyString, "foo3"); (EmptyString, "zzz"); ("foo1", "foo3")]).
  - vm_compute; reflexivity.
  - reflexivity.
Defined.

(** ** The diff has no context lines *)

Lemma group_codes_no_context (codes : list opcode) :
  forall (group : list opcode) (done : list (list opcode)),
  Forall no_context group ->
  Forall (Forall no_context) done ->
  Forall (Forall no_context) (group_codes 0 codes group done).
Proof.
  induction codes as [|[[[[t i1] i2] j1] j2] rest IH]; intros group done Hg Hd.
  - cbn [group_codes].
    destruct group as [|c [|c' group']]; [assumption | |].
    + destruct (is_equal c); [assumption|].
      apply Forall_app; split; [assumption | now constructor].
    + apply Forall_app; split; [assumption | now constructor].
  - cbn [group_codes].
    destruct (is_equal (t, i1, i2, j1, j2) && (0 + 0 <? i2 - i1)) eqn:E.
    + apply IH.
      * constructor; [|constructor]. unfold no_context; intros _; lia.
      * apply Forall_app; split; [assumption|].
        constructor; [|constructor].
        apply Forall_app; split; [assumption|].
        constructor; [|constructor]. unfold no_context; intros _; lia.
    + apply IH; [|assumption].
      apply Forall_app; split; [assumption|].
      constructor; [|constructor].
      unfold no_context; intros ->.
      cbn [is_equal andb] in E; apply Nat.ltb_ge in E; lia.
Qed.

Lemma group_lines_signed (a b : list string) (g : list opcode) :
  Forall no_context g ->
  forall l, In l (group_lines a b g) ->
    exists x, l = String "-"%char x \/ l = String "+"%char x.
Proof.
  intros Hg l Hl; unfold group_lines in Hl.
  apply in_flat_map in Hl as ([[[[t i1] i2] j1] j2] & Hc & Hl).
  rewrite Forall_forall in Hg; specialize (Hg _ Hc).
  destruct t.
  - apply in_app_or in Hl as [Hl|Hl];
      apply in_map_iff in Hl as (x & <- & _); eauto.
  - apply in_map_iff in Hl as (x & <- & _); eauto.
  - apply in_map_iff in Hl as (x & <- & _); eauto.
  - unfold no_context in Hg; unfold slice in Hl.
    rewrite (Hg eq_refl) in Hl; destruct Hl.
Qed.

Lemma unified_diff_lines (file_1_text file_2_text : list string)
  (old_file new_file : string) (line : string) :
  In line (unified_diff file_1_text file_2_text old_file new_file 0) ->
  str_in "@@" (str_lower line) = true
  \/ str_first (str_lower line) = Ok "-"
  \/ str_first (str_lower line) = Ok "+".
Proof.
  unfold unified_diff.
  pose proof group_codes_no_context as Hgroups.
  unfold get_grouped_opcodes.
  set (codes := fix_last 0 (fix_first 0 _)).
  specialize (Hgroups codes [] [] (Forall_nil _) (Forall_nil _)).
  rewrite Forall_forall in Hgroups.
  destruct (group_codes 0 codes [] []) as [|g gs] eqn:E; [intros []|].
  intros [<-|[<-|Hl]]; [right; left; reflexivity | right; right; reflexivity|].
  apply in_flat_map in Hl as (g' & Hg' & [<-|Hl]).
  - left; apply group_header_separates.
  - destruct (group_lines_signed _ _ _ (Hgroups _ Hg') _ Hl) as (x & [->| ->]);
      [right; left | right; right]; reflexivity.
Qed.

(** X8.  With no context lines asked for, every line of the diff is a hunk
    header, which has two at-signs in a row, or starts with a minus or a
    plus sign: the first pass files every line it reads, and no line is
    empty. *)
Theorem diff_lines_are_recognised (file_1_text file_2_text : list string)
  (old_file new_file : string) (line : string) :
  In line (unified_diff file_1_text file_2_text old_file new_file 0) ->
  str_in "@@" (str_lower line) = true
  \/ str_first (str_lower line) = Ok "-"
  \/ str_first (str_lower line) = Ok "+".
Proof. apply unified_diff_lines. Qed.

Lemma diff_lines_are_recognised_witness :
  let line := String "-"%char (decl "foo1") in
  str_in "@@" (str_lower line) = true
  \/ str_first (str_lower line) = Ok "-"
  \/ str_first (str_lower line) = Ok "+".
Proof.
  apply (diff_lines_are_recognised [decl "foo1"] [decl "foo2"] "a" "b").
  vm_compute; do 3 right; left; reflexivity.
Defined.

(** ** When the first pass returns *)

Lemma for_each_total {S X} (P : S -> Prop) (body : S -> X -> result S)
  xs : forall st,
  P st ->
  (forall s x, In x xs -> P s -> exists s', body s x = Ok s' /\ P s') ->
  exists st', for_each body xs st = Ok st' /\ P st'.
Proof.
  induction xs as [|x xs IH]; intros st Hst Hbody; cbn [for_each].
  - eauto.
  - destruct (Hbody st x (or_introl eq_refl) Hst) as (s' & -> & Hs').
    cbn [Py.bind]; apply IH; [assumption|].
    intros s y Hy; apply Hbody; now right.
Qed.

Lemma quoted_decl_name l :
  quoted_decl l -> is_decl l = true -> exists n, quoted_name l = Ok n.
Proof.
  intros H Hd; specialize (H Hd).
  destruct (quoted_name_cases l) as [[_ Hn]|[Hq _]]; [assumption|congruence].
Qed.

Lemma collect_names_total lines :
  Forall quoted_decl lines -> exists names, collect_names lines = Ok names.
Proof.
  intros H; destruct (collect_names lines) as [ns|e] eqn:E; [eauto|].
  destruct (collect_names_raises lines) as [H1 H2].
  rewrite (H1 e E) in E; apply H2 in E.
  apply Exists_exists in E as (l & Hl & Hd & Hq).
  rewrite Forall_forall in H; specialize (H l Hl Hd); congruence.
Qed.

Lemma match_names_total changes removals additions :
  exists out, match_names changes removals additions = Ok out.
Proof.
  unfold match_names.
  destruct (for_each_total (fun _ => True) match_step removals
              (changes, additions) I) as (st & -> & _); [|cbn; eauto].
  intros [cs adds] removal _ _; unfold match_step.
  destruct (get_close_matches removal adds 1
              GET_CLOSE_MATCHES_NONINTERACTIVE_CUTOFF) as [|c cs'] eqn:E;
    [eauto|].
  assert (Hin : In c adds).
  { eapply get_close_matches_In; rewrite E; now left. }
  destruct (list_remove_In c adds Hin) as (rest & ->); cbn; eauto.
Qed.

Lemma automatic_hunk_total entries changes minus_lines plus_lines :
  Forall quoted_decl minus_lines -> Forall quoted_decl plus_lines ->
  exists out,
    process_diff_lines false entries changes minus_lines plus_lines = Ok out.
Proof.
  intros Hm Hp; unfold process_diff_lines.
  destruct (collect_names_total _ Hm) as (R & HR).
  destruct (collect_names_total _ Hp) as (A & HA).
  destruct (List.length minus_lines =? List.length plus_lines).
  { unfold pair_lines.
    destruct (for_each_total (fun _ => True)
                (fun changes (mp : string * string) =>
                   if is_decl (fst mp) && is_decl (snd mp) then
                     o <- quoted_name (fst mp) ;;
                     n <- quoted_name (snd mp) ;;
                     Ok (changes ++ [(o, n)])
                   else Ok changes)
                (combine minus_lines plus_lines) changes I)
      as (st & -> & _); [|cbn; eauto].
    intros s [m p] Hin _; cbn [fst snd].
    destruct (is_decl m) eqn:Em; [|cbn; eauto].
    destruct (is_decl p) eqn:Ep; [|cbn; eauto].
    rewrite Forall_forall in Hm, Hp.
    destruct (quoted_decl_name m (Hm _ (in_combine_l _ _ _ _ Hin)) Em)
      as (o & ->).
    destruct (quoted_decl_name p (Hp _ (in_combine_r _ _ _ _ Hin)) Ep)
      as (n & ->).
    cbn; eauto. }
  destruct (List.length minus_lines =? 0).
  { rewrite new_names_only_eq, HA; cbn; eauto. }
  destruct (List.length plus_lines =? 0).
  { rewrite deleted_names_only_eq, HR; cbn; eauto. }
  rewrite HR, HA; cbn [Py.bind].
  destruct (match_names_total changes R A) as (out & ->); cbn; eauto.
Qed.

Lemma first_pass_total (entries : list pyval)
  (old_file new_file : string) (file_1_text file_2_text : list string) :
  let diff_lines :=
    unified_diff file_1_text file_2_text old_file new_file 0 in
  Forall (fun l => quoted_decl (str_lower l)) diff_lines ->
  exists out, first_pass false entries diff_lines = Ok out.
Proof.
  intros diff_lines Hq.
  assert (Hrec : forall l, In l diff_lines ->
            str_in "@@" (str_lower l) = true
            \/ str_first (str_lower l) = Ok "-"
            \/ str_first (str_lower l) = Ok "+")
    by (intros l; apply unified_diff_lines).
  unfold first_pass.
  rewrite Forall_forall in Hq.
  destruct (for_each_total
              (fun st => Forall quoted_decl (minus_lines_of st)
                         /\ Forall quoted_decl (plus_lines_of st))
              (diff_line_step false) diff_lines
              {| std_name_changes_of := [];
                 minus_lines_of := [];
                 plus_lines_of := [];
                 entries_of := entries |})
    as (st & -> & Hm & Hp).
  - cbn; split; constructor.
  - intros s l Hl [Hm Hp]; unfold diff_line_step.
    destruct (Hrec l Hl) as [H|[H|H]].
    + rewrite H.
      destruct (automatic_hunk_total (entries_of s) (std_name_changes_of s)
                  _ _ Hm Hp) as (out & ->).
      cbn; eexists; split; [reflexivity|]; split; constructor.
    + destruct (str_in "@@" (str_lower l)).
      * destruct (automatic_hunk_total (entries_of s)
                    (std_name_changes_of s) _ _ Hm Hp) as (out & ->).
        cbn; eexists; split; [reflexivity|]; split; constructor.
      * rewrite H; cbn; eexists; split; [reflexivity|]; cbn; split;
          [|assumption].
        apply Forall_app; split; [assumption|].
        constructor; [now apply Hq | constructor].
    + destruct (str_in "@@" (str_lower l)).
      * destruct (automatic_hunk_total (entries_of s)
                    (std_name_changes_of s) _ _ Hm Hp) as (out & ->).
        cbn; eexists; split; [reflexivity|]; split; constructor.
      * rewrite H; cbn; eexists; split; [reflexivity|]; cbn; split;
          [assumption|].
        apply Forall_app; split; [assumption|].
        constructor; [now apply Hq | constructor].
  - cbn [Py.bind]; now apply automatic_hunk_total.
Qed.

(** X11.  In automatic mode the first pass over the diff of two files
    returns a list whenever every declaration line of the diff, lower-cased,
    has a double quote in it. *)
Theorem automatic_first_pass_returns (entries : list pyval)
  (old_file new_file : string) (file_1_text file_2_text : list string) :
  let diff_lines :=
    unified_diff file_1_text file_2_text old_file new_file 0 in
  Forall (fun l => quoted_decl (str_lower l)) diff_lines ->
  exists out, first_pass false entries diff_lines = Ok out.
Proof. apply first_pass_total. Qed.

Lemma automatic_first_pass_returns_witness :
  exists out,
    first_pass false []
      (unified_diff [decl "Foo1"; other "<a/>"] [decl "foo2"; other "<a/>"]
         "old.xml" "new.xml" 0)
    = Ok out.
Proof.
  apply (automatic_first_pass_returns [] "old.xml" "new.xml"
           [decl "Foo1"; other "<a/>"] [decl "foo2"; other "<a/>"]).
  set (d := unified_diff _ _ _ _ _); vm_compute in d; subst d.
  repeat (apply Forall_cons;
          [unfold quoted_decl;
           first [ intros _; vm_compute; reflexivity
                 | intros H; vm_compute in H; discriminate H ]|]).
  apply Forall_nil.
Defined.

(** ** The first sweep returns *)

Lemma calculate_ratio_nonneg m total :
  Qle_bool 0 (calculate_ratio m total) = true.
Proof.
  apply Qle_bool_iff; unfold calculate_ratio, Qle.
  destruct total; cbn [Qnum Qden]; lia.
Qed.

Lemma clears_zero x word : clears 0 x word = true.
Proof.
  unfold clears, str_real_quick_ratio, str_quick_ratio, str_ratio,
    real_quick_ratio, quick_ratio, ratio.
  now rewrite !calculate_ratio_nonneg.
Qed.

Lemma best_of_two word a b :
  exists best, list_index (get_close_matches word [a; b] 2 0) 0 = Ok best.
Proof.
  unfold get_close_matches, nlargest; cbn [flat_map].
  rewrite !clears_zero; cbn [app].
  pose proof (sorted_desc_head [(str_ratio a word, a); (str_ratio b word, b)])
    as H.
  destruct (sorted_desc _) as [|m l]; [discriminate|].
  cbn; eauto.
Qed.

Lemma record_eqb_refl (r : record) : record_eqb r r = true.
Proof. unfold record_eqb; now rewrite !String.eqb_refl. Qed.

Lemma tally_cons (x y : record) l :
  occ record_eqb x (y :: l)
  = (if record_eqb y x then 1 else 0) + occ record_eqb x l.
Proof. unfold occ; cbn [filter]; now destruct (record_eqb y x). Qed.

Lemma tally_app (x : record) l l' :
  occ record_eqb x (l ++ l') = occ record_eqb x l + occ record_eqb x l'.
Proof. unfold occ; now rewrite filter_app, length_app. Qed.

Lemma tally_filter (P : record -> bool) (x : record) l :
  occ record_eqb x (filter P l) <= occ record_eqb x l.
Proof.
  induction l as [|y l IH]; [reflexivity|].
  cbn [filter]; destruct (P y); rewrite ?tally_cons; lia.
Qed.

Lemma tally_In (x : record) l : 0 < occ record_eqb x l -> In x l.
Proof.
  induction l as [|y l IH]; [cbn; lia|].
  rewrite tally_cons; destruct (record_eqb y x) eqn:E.
  - intros _; left; now apply record_eqb_eq.
  - intros H; right; apply IH; lia.
Qed.

Lemma list_remove_record_In (r : record) l :
  In r l -> exists l', list_remove record_eqb r l = Ok l'.
Proof.
  induction l as [|y l IH]; intros H; [destruct H|].
  cbn [list_remove]; destruct (record_eqb y r) eqn:E; [eauto|].
  destruct H as [->|H]; [now rewrite record_eqb_refl in E|].
  destruct (IH H) as (l' & ->); cbn; eauto.
Qed.

Lemma tally_list_remove (r : record) l : forall l' x,
  list_remove record_eqb r l = Ok l' ->
  occ record_eqb x l
  = occ record_eqb x l' + (if record_eqb r x then 1 else 0).
Proof.
  induction l as [|y l IH]; intros l' x H; [discriminate|].
  cbn [list_remove] in H; destruct (record_eqb y r) eqn:E.
  - inversion H; subst; apply record_eqb_eq in E; subst.
    rewrite tally_cons; lia.
  - destruct (list_remove record_eqb r l) as [l0|e] eqn:R; [|discriminate].
    inversion H; subst; rewrite !tally_cons, (IH l0 x eq_refl); lia.
Qed.

Lemma sweep1_loop_total repl_new new : forall rest cur,
  Forall (fun r => is_replacement r = true) rest ->
  (forall x, occ record_eqb x rest <= occ record_eqb x cur) ->
  (forall a, In a new -> In (EmptyString, a) cur) ->
  exists out, for_each (sweep1_step repl_new new) rest cur = Ok out.
Proof.
  induction rest as [|r rest IH]; intros cur Hrep Hocc Hnew;
    cbn [for_each]; [eauto|].
  inversion Hrep as [|? ? Hr Hrep']; subst.
  assert (Hsame : exists out,
             for_each (sweep1_step repl_new new) rest cur = Ok out).
  { apply IH; try assumption.
    intros x; specialize (Hocc x); rewrite tally_cons in Hocc; lia. }
  assert (Hin : In r cur).
  { apply tally_In; specialize (Hocc r).
    rewrite tally_cons, record_eqb_refl in Hocc; lia. }
  destruct (list_remove_record_In r cur Hin) as (l' & Hrm).
  assert (Hl' : forall more x,
             occ record_eqb x rest <= occ record_eqb x (l' ++ more)).
  { intros more x; specialize (Hocc x).
    rewrite tally_cons, (tally_list_remove r cur l' x Hrm) in Hocc.
    rewrite tally_app; lia. }
  assert (Hnew' : forall more a, In a new -> In (EmptyString, a) (l' ++ more)).
  { intros more a Ha; apply in_or_app; left.
    destruct (list_remove_record r cur l' _ Hrm (Hnew a Ha)) as [E|E];
      [|assumption].
    subst r; discriminate Hr. }
  unfold sweep1_step at 1.
  destruct (get_close_matches (fst r) new 1 _) as [|cm cms] eqn:G;
    [exact Hsame|].
  destruct (best_of_two (fst r) (snd r) cm) as (best & ->); cbn [Py.bind].
  destruct (String.eqb best cm); [|exact Hsame].
  rewrite Hrm; cbn [Py.bind].
  destruct (negb (list_in String.eqb cm repl_new)); cbn [Py.bind].
  - apply IH; [assumption | apply Hl' | apply Hnew'].
  - assert (Hcm : In cm new).
    { eapply get_close_matches_In; rewrite G; now left. }
    assert (Horig : exists orig,
               close_match_orig (l' ++ [(EmptyString, snd r)]) cm = Ok orig).
    { unfold close_match_orig, list_index.
      pose proof (Hnew' [(EmptyString, snd r)] cm Hcm) as Hc.
      assert (Hf : In (EmptyString, cm)
                     (filter (fun x : record => String.eqb (snd x) cm)
                        (l' ++ [(EmptyString, snd r)]))).
      { apply filter_In; split; [assumption|].
        cbn; apply String.eqb_refl. }
      destruct (filter _ _) as [|y ys]; [destruct Hf|]; cbn; eauto. }
    destruct Horig as (orig & ->); cbn [Py.bind].
    rewrite <- app_assoc.
    apply IH; [assumption | apply Hl' | apply Hnew'].
Qed.

Lemma sweep1_total (changes : list record) :
  exists out, sweep1 changes = Ok out.
Proof.
  unfold sweep1; apply sweep1_loop_total.
  - apply Forall_forall; intros r Hr; now apply filter_In in Hr.
  - intros x; apply tally_filter.
  - intros a Ha; apply in_map_iff in Ha as ([o n] & <- & Hx).
    apply filter_In in Hx as [Hx Hadd].
    unfold is_add in Hadd; cbn [fst snd] in *.
    destruct o; [assumption | discriminate].
Qed.

(** X13.  The first sweep of the second pass, the loop over the renames,
    raises nothing: every record it removes is still in the list, and every
    name it looks up is the new name of some record. *)
Theorem sweep1_always_returns (changes : list record) :
  exists out, sweep1 changes = Ok out.
Proof. apply sweep1_total. Qed.

(** ** Where the names of the first pass come from *)

Lemma collect_names_from lines : forall names,
  collect_names lines = Ok names ->
  forall n, In n names -> name_of lines n.
Proof.
  induction lines as [|l lines IH]; intros names H n Hn.
  - inversion H; subst; destruct Hn.
  - rewrite collect_names_cons in H.
    assert (Hrest : forall ns, collect_names lines = Ok ns -> In n ns ->
                               name_of (l :: lines) n).
    { intros ns E Hin; destruct (IH ns E n Hin) as (l0 & Hl0 & Hd & Hq).
      exists l0; split; [now right | auto]. }
    destruct (is_decl l) eqn:Hd; [|now apply (Hrest names)].
    apply bind_Ok in H as (n0 & Hq & H).
    apply bind_Ok in H as (ns & Hns & H); inversion H; subst.
    destruct Hn as [<-|Hn]; [|now apply (Hrest ns)].
    exists l; split; [now left | auto].
Qed.

Lemma from_lines_incl M M' P P' r :
  incl M M' -> incl P P' -> from_lines M P r -> from_lines M' P' r.
Proof.
  intros HM HP [H1 H2]; split.
  - destruct H1 as [H1|(l & Hl & H1)]; [now left|].
    right; exists l; split; auto.
  - destruct H2 as [H2|(l & Hl & H2)]; [now left|].
    right; exists l; split; auto.
Qed.

Lemma hunk_names_from_lines (INTERACTIVE : bool) (entries : list pyval)
  (minus_lines plus_lines : list string) (out : list record * list pyval) :
  process_diff_lines INTERACTIVE entries [] minus_lines plus_lines = Ok out ->
  Forall (from_lines minus_lines plus_lines) (fst out).
Proof.
  unfold process_diff_lines.
  destruct (List.length minus_lines =? List.length plus_lines).
  { intros H; apply bind_Ok in H as (cs & H & Eo); inversion Eo; subst.
    cbn [fst]; revert H; unfold pair_lines.
    apply (for_each_invariant (Forall (from_lines minus_lines plus_lines)));
      [constructor|].
    intros s [m p] s' Hin Hs; cbn [fst snd].
    destruct (is_decl m) eqn:Em; [|intros E; now inversion E; subst].
    destruct (is_decl p) eqn:Ep; [|intros E; now inversion E; subst].
    cbn [andb]; intros E; apply bind_Ok in E as (o & Ho & E).
    apply bind_Ok in E as (n & Hn & E); inversion E; subst.
    apply Forall_app; split; [assumption|].
    constructor; [|constructor].
    split; right; [exists m | exists p]; split; auto;
      [eapply in_combine_l | eapply in_combine_r]; eassumption. }
  destruct (List.length minus_lines =? 0).
  { rewrite new_names_only_eq.
    intros H; apply bind_Ok in H as (cs & H & Eo); inversion Eo; subst.
    apply bind_Ok in H as (names & H & E); inversion E; subst.
    cbn [fst app]; apply Forall_forall; intros r Hr.
    apply in_map_iff in Hr as (a & <- & Ha).
    split; [now left|]; right; now apply (collect_names_from _ names). }
  destruct (List.length plus_lines =? 0).
  { rewrite deleted_names_only_eq.
    intros H; apply bind_Ok in H as (cs & H & Eo); inversion Eo; subst.
    apply bind_Ok in H as (names & H & E); inversion E; subst.
    cbn [fst app]; apply Forall_forall; intros r Hr.
    apply in_map_iff in Hr as (a & <- & Ha).
    split; [|now left]; right; now apply (collect_names_from _ names). }
  intros H; apply bind_Ok in H as (R & HR & H).
  apply bind_Ok in H as (A & HA & H).
  pose proof (collect_names_from _ _ HR) as HfR.
  pose proof (collect_names_from _ _ HA) as HfA.
  destruct INTERACTIVE.
  - unfold ask_operator in H.
    apply bind_Ok in H as (st & Hrun & H); inversion H; subst; cbn [fst].
    assert (Inv : Forall (from_lines minus_lines plus_lines) (ask_changes st)
                  /\ incl (ask_additions st) A).
    { revert Hrun.
      apply (for_each_invariant
               (fun st => Forall (from_lines minus_lines plus_lines)
                            (ask_changes st)
                          /\ incl (ask_additions st) A)).
      - cbn; split; [constructor | apply incl_refl].
      - intros s r s' Hr [Hc Hi]; unfold ask_step.
        intros E; apply bind_Ok in E as (ve & _ & E).
        apply bind_Ok in E as (v & _ & E).
        destruct (_ && _).
        + apply bind_Ok in E as (a & Ha & E).
          apply bind_Ok in E as (rest & Hrest & E); inversion E; subst; cbn.
          unfold list_index in Ha.
          destruct (nth_error _ _) eqn:N; [|discriminate].
          inversion Ha; subst; apply nth_error_In in N.
          split.
          * apply Forall_app; split; [assumption|].
            constructor; [|constructor].
            split; right; cbn; [now apply HfR | now apply HfA, Hi].
          * intros x Hx; apply Hi.
            now apply (list_remove_incl _ _ _ _ Hrest).
        + inversion E; subst; cbn; now split. }
    destruct Inv as [Hc Hi].
    apply Forall_app; split; [assumption|].
    apply Forall_app; split; apply Forall_forall; intros r Hr;
      apply in_map_iff in Hr as (x & <- & Hx).
    + apply filter_In in Hx as [Hx _].
      split; [right; now apply HfR | now left].
    + split; [now left | right; now apply HfA, Hi].
  - apply bind_Ok in H as (cs & H & Eo); inversion Eo; subst; cbn [fst].
    unfold match_names in H.
    apply bind_Ok in H as ([cs' pool] & Hrun & H); inversion H; subst.
    cbn [fst snd].
    assert (Inv : Forall (from_lines minus_lines plus_lines) cs'
                  /\ incl pool A).
    { revert Hrun.
      apply (for_each_invariant
               (fun st : list record * list string =>
                  Forall (from_lines minus_lines plus_lines) (fst st)
                  /\ incl (snd st) A)).
      - cbn; split; [constructor | apply incl_refl].
      - intros [s pool0] r s' Hr [Hc Hi]; unfold match_step.
        cbn [fst snd] in *.
        destruct (get_close_matches r pool0 1 _) as [|c cs0] eqn:G.
        + intros E; inversion E; subst; cbn; split; [|assumption].
          apply Forall_app; split; [assumption|].
          constructor; [|constructor].
          split; [right; now apply HfR | now left].
        + intros E; apply bind_Ok in E as (rest & Hrest & E).
          inversion E; subst; cbn.
          assert (Hc0 : In c pool0).
          { eapply get_close_matches_In; rewrite G; now left. }
          split.
          * apply Forall_app; split; [assumption|].
            constructor; [|constructor].
            split; right; cbn; [now apply HfR | now apply HfA, Hi].
          * intros x Hx; apply Hi.
            now apply (list_remove_incl _ _ _ _ Hrest). }
    destruct Inv as [Hc Hi].
    apply Forall_app; split; [assumption|].
    apply Forall_forall; intros r Hr.
    apply in_map_iff in Hr as (x & <- & Hx).
    split; [now left | right; now apply HfA, Hi].
Qed.

Lemma signed_line_In (sign : string) (diff_lines : list string) (l : string) :
  In l diff_lines -> str_first (str_lower l) = Ok sign ->
  In (str_lower l) (signed_lines sign diff_lines).
Proof.
  intros Hl Hs; unfold signed_lines; apply filter_In; split.
  - now apply in_map.
  - rewrite Hs; apply String.eqb_refl.
Qed.

Lemma first_pass_from_lines (INTERACTIVE : bool) (entries : list pyval)
  (diff_lines : list string) (out : list record * list pyval) :
  first_pass INTERACTIVE entries diff_lines = Ok out ->
  Forall (from_lines (signed_lines "-" diff_lines)
            (signed_lines "+" diff_lines)) (fst out).
Proof.
  set (M := signed_lines "-" diff_lines).
  set (P := signed_lines "+" diff_lines).
  assert (Hhunk : forall e changes m p res,
             Forall (from_lines M P) changes -> incl m M -> incl p P ->
             process_diff_lines INTERACTIVE e changes m p = Ok res ->
             Forall (from_lines M P) (fst res)).
  { intros e changes m p res Hc Hm Hp H.
    rewrite hunk_frame in H; apply bind_Ok in H as (res0 & H0 & H).
    inversion H; subst; cbn [fst].
    apply Forall_app; split; [assumption|].
    apply hunk_names_from_lines in H0.
    revert H0; apply Forall_impl; intros r; now apply from_lines_incl. }
  unfold first_pass; intros H.
  apply bind_Ok in H as (st & Hrun & H).
  assert (Inv : Forall (from_lines M P) (std_name_changes_of st)
                /\ incl (minus_lines_of st) M /\ incl (plus_lines_of st) P).
  { revert Hrun.
    apply (for_each_invariant
             (fun st => Forall (from_lines M P) (std_name_changes_of st)
                        /\ incl (minus_lines_of st) M
                        /\ incl (plus_lines_of st) P)).
    - cbn; repeat split; [constructor | intros x [] | intros x []].
    - intros s l s' Hl (Hc & Hm & Hp); unfold diff_line_step.
      destruct (str_in "@@" (str_lower l)).
      + intros E; apply bind_Ok in E as (res & Hres & E).
        inversion E; subst; cbn.
        repeat split; [|intros x []|intros x []].
        now apply (Hhunk _ _ _ _ _ Hc Hm Hp Hres).
      + intros E; apply bind_Ok in E as (c & Hfirst & E).
        destruct (String.eqb c "-") eqn:E1.
        { apply String.eqb_eq in E1; subst c.
          inversion E; subst; cbn; repeat split; try assumption.
          apply incl_app; [assumption|].
          intros x [<-|[]]; now apply signed_line_In. }
        destruct (String.eqb c "+") eqn:E2.
        { apply String.eqb_eq in E2; subst c.
          inversion E; subst; cbn; repeat split; try assumption.
          apply incl_app; [assumption|].
          intros x [<-|[]]; now apply signed_line_In. }
        inversion E; subst; repeat split; assumption. }
  destruct Inv as (Hc & Hm & Hp).
  now apply (Hhunk _ _ _ _ _ Hc Hm Hp H).
Qed.

(** X10.  Every name that the first pass records comes from a declaration
    line of the diff, in both modes: the old name of a record, if it has
    one, is the quoted name of a lower-cased line that starts with a minus
    sign, and the new name of one that starts with a plus sign. *)
Theorem first_pass_names_come_from_the_diff (INTERACTIVE : bool)
  (entries : list pyval) (diff_lines : list string)
  (out : list record * list pyval) :
  first_pass INTERACTIVE entries diff_lines = Ok out ->
  Forall (from_lines (signed_lines "-" diff_lines)
            (signed_lines "+" diff_lines)) (fst out).
Proof. apply first_pass_from_lines. Qed.

Lemma first_pass_names_come_from_the_diff_witness :
  Forall (from_lines
            (signed_lines "-"
               ["@@ -1,2 +1 @@"; removed_line (decl "Foo1");
                removed_line (decl "qux"); added_line (decl "foo2")])
            (signed_lines "+"
               ["@@ -1,2 +1 @@"; removed_line (decl "Foo1");
                removed_line (decl "qux"); added_line (decl "foo2")]))
    (fst ([("foo1", "foo2"); ("qux", EmptyString)], @nil pyval)).
Proof.
  apply (first_pass_names_come_from_the_diff false []).
  vm_compute; reflexivity.
Defined.

(** ** When [find_changed_vars] returns *)

Lemma sweep1_step_new_names repl_new new orig cur r out :
  In r orig -> incl new (map snd orig) ->
  (forall n, In n (map snd cur) ->
     n = EmptyString \/ In n (map snd orig)) ->
  sweep1_step repl_new new cur r = Ok out ->
  forall n, In n (map snd out) -> n = EmptyString \/ In n (map snd orig).
Proof.
  intros Hr Hnew Hcur; unfold sweep1_step.
  destruct (get_close_matches (fst r) new 1 _) as [|cm cms] eqn:G;
    [intros E; inversion E; subst; auto|].
  assert (Hcm : In cm (map snd orig)).
  { apply Hnew; eapply get_close_matches_In; rewrite G; now left. }
  intros E; apply bind_Ok in E as (best & _ & E).
  destruct (String.eqb best cm); [|inversion E; subst; auto].
  assert (Hl : forall l', list_remove record_eqb r cur = Ok l' ->
                 forall n, In n (map snd l') ->
                   n = EmptyString \/ In n (map snd orig)).
  { intros l' Hrm n Hn; apply in_map_iff in Hn as (x & <- & Hx).
    apply Hcur, in_map; now apply (list_remove_incl _ _ _ _ Hrm). }
  destruct (negb (list_in String.eqb cm repl_new)).
  - apply bind_Ok in E as (l' & Hrm & E); inversion E; subst.
    intros n Hn; unfold record in *; rewrite !map_app in Hn; cbn in Hn.
    apply in_app_or in Hn as [Hn|[<-|[<-|[]]]];
      [now apply (Hl l') | right; now apply in_map | now right].
  - apply bind_Ok in E as (l' & Hrm & E).
    apply bind_Ok in E as (orig0 & _ & E); inversion E; subst.
    intros n Hn; unfold record in *; rewrite !map_app in Hn; cbn in Hn.
    apply in_app_or in Hn as [Hn|[<-|[<-|[]]]].
    + apply in_app_or in Hn as [Hn|[<-|[]]];
        [now apply (Hl l') | right; now apply in_map].
    + now left.
    + now right.
Qed.

Lemma sweep1_new_names changes out :
  sweep1 changes = Ok out ->
  forall n, In n (map snd out) ->
    n = EmptyString \/ In n (map snd changes).
Proof.
  unfold sweep1.
  apply (for_each_invariant
           (fun cur => forall n, In n (map snd cur) ->
                         n = EmptyString \/ In n (map snd changes))).
  - auto.
  - intros s r s' Hr Hs; apply sweep1_step_new_names; try assumption.
    + now apply filter_In in Hr.
    + intros a Ha; apply in_map_iff in Ha as (x & <- & Hx).
      apply in_map; now apply filter_In in Hx.
Qed.

(** X17.  In automatic mode [find_changed_vars] returns, raising nothing,
    whenever every declaration line of the diff has a double quote and no
    added declaration line declares a name of exactly one character; what
    it returns is the list of the first sweep with its counts, the second
    sweep changing nothing. *)
Theorem automatic_find_changed_vars_returns (entries : list pyval)
  (old_file new_file : string) (file_1_text file_2_text : list string) :
  let diff_lines :=
    unified_diff file_1_text file_2_text old_file new_file 0 in
  Forall (fun l => quoted_decl (str_lower l)) diff_lines ->
  (forall n, name_of (signed_lines "+" diff_lines) n ->
             String.length n <> 1) ->
  exists tentative entries' final,
    first_pass false entries diff_lines = Ok (tentative, entries')
    /\ sweep1 tentative = Ok final
    /\ find_changed_vars false entries old_file new_file
         file_1_text file_2_text
       = Ok (with_counts final).
Proof.
  intros diff_lines Hq Hlen.
  destruct (first_pass_total entries old_file new_file file_1_text
              file_2_text Hq) as ([tentative entries'] & Hfirst).
  fold diff_lines in Hfirst.
  destruct (sweep1_total tentative) as (final & Hs1).
  exists tentative, entries', final; split; [assumption|];
    split; [assumption|].
  unfold find_changed_vars; fold diff_lines; rewrite Hfirst.
  cbn [Py.bind fst]; unfold second_pass; rewrite Hs1; cbn [Py.bind].
  rewrite sweep2_idle; [reflexivity|].
  intros d a _ Ha Hd.
  pose proof (added_names_truthy final a Ha) as Ht.
  assert (Hin : In a (map snd final)).
  { unfold added_names in Ha; apply in_map_iff in Ha as (x & <- & Hx).
    apply in_map; now apply filter_In in Hx. }
  destruct (sweep1_new_names _ _ Hs1 a Hin) as [->|Hin'];
    [discriminate|].
  apply in_map_iff in Hin' as (x & Hx & Hin').
  pose proof (first_pass_from_lines false entries diff_lines _ Hfirst) as Hp.
  rewrite Forall_forall in Hp; destruct (Hp x Hin') as [_ [E|Hn]].
  - rewrite Hx in E; rewrite E in Ht; discriminate Ht.
  - rewrite Hx in Hn; apply (Hlen a Hn).
    destruct d as [|c d']; [discriminate|].
    now inversion Hd.
Qed.

Lemma automatic_find_changed_vars_returns_witness :
  exists tentative entries' final,
    first_pass false []
      (unified_diff [decl "Foo1"; other "<a/>"] [decl "foo2"; other "<a/>"]
         "old.xml" "new.xml" 0)
    = Ok (tentative, entries')
    /\ sweep1 tentative = Ok final
    /\ find_changed_vars false [] "old.xml" "new.xml"
         [decl "Foo1"; other "<a/>"] [decl "foo2"; other "<a/>"]
       = Ok (with_counts final).
Proof.
  apply (automatic_find_changed_vars_returns [] "old.xml" "new.xml"
           [decl "Foo1"; other "<a/>"] [decl "foo2"; other "<a/>"]).
  - set (d := unified_diff _ _ _ _ _); vm_compute in d; subst d.
    repeat (apply Forall_cons;
            [unfold quoted_decl;
             first [ intros _; vm_compute; reflexivity
                   | intros H; vm_compute in H; discriminate H ]|]).
    apply Forall_nil.
  - set (d := unified_diff _ _ _ _ _); vm_compute in d; subst d.
    intros n (l & Hl & Hd & Hn); vm_compute in Hl.
    destruct Hl as [<-|[<-|[]]]; vm_compute in Hd; try discriminate Hd.
    vm_compute in Hn; inversion Hn; subst; discriminate.
Defined.

(** ** The operator declines *)

Lemma zero_is_a_choice n : val_in (PInt 0) (range (n + 1)) = true.
Proof. rewrite Nat.add_1_r; reflexivity. Qed.

Lemma ask_loop_declined removals : forall changes processed additions rest,
  for_each ask_step removals
    {| ask_changes := changes; ask_processed := processed;
       ask_additions := additions;
       ask_entries := repeat (PInt 0) (List.length removals) ++ rest |}
  = Ok {| ask_changes := changes; ask_processed := processed;
          ask_additions := additions; ask_entries := rest |}.
Proof.
  induction removals as [|r removals IH];
    intros changes processed additions rest; [reflexivity|].
  cbn [for_each List.length repeat app].
  unfold ask_step at 1;
    cbn [ask_changes ask_processed ask_additions ask_entries].
  unfold get_choice.
  match goal with
  | |- context [get_choice_loop ?ch ?c (PInt 0 :: ?es)] =>
      pose proof (get_choice_loop_skip ch c [] (PInt 0) es
                    (sentinel_not_in_range _) (Forall_nil _)
                    (zero_is_a_choice _)) as Hg
  end.
  cbn [app] in Hg; rewrite Hg.
  cbn [Py.bind fst snd int Z.ltb Z.compare andb]; apply IH.
Qed.

(** X5.  In interactive mode, for a hunk with removed and added lines in
    different numbers: when the operator enters 0 at every prompt, one
    entry for each removed name, the hunk gives all the removed names as pure
    removals and then all the added names as pure additions, and the other
    entries are left; with no entry at all and a removed name to ask about,
    the call raises EOFError. *)
Theorem declined_prompts_keep_names_apart (rest : list pyval)
  (changes : list record) (minus_lines plus_lines : list string)
  (R A : list string) :
  collect_names minus_lines = Ok R ->
  collect_names plus_lines = Ok A ->
  List.length minus_lines <> List.length plus_lines ->
  minus_lines <> [] -> plus_lines <> [] ->
  process_diff_lines true (repeat (PInt 0) (List.length R) ++ rest) changes
    minus_lines plus_lines
  = Ok (changes ++ map (fun r => (r, EmptyString)) R
          ++ map (fun a => (EmptyString, a)) A, rest)
  /\ (R <> [] ->
      process_diff_lines true [] changes minus_lines plus_lines
      = Raise EOFError).
Proof.
  intros HR HA Hlen Hm Hp; unfold process_diff_lines.
  rewrite (proj2 (Nat.eqb_neq _ _) Hlen).
  assert (Em : (List.length minus_lines =? 0) = false).
  { apply Nat.eqb_neq; intros E; apply length_zero_iff_nil in E; auto. }
  assert (Ep : (List.length plus_lines =? 0) = false).
  { apply Nat.eqb_neq; intros E; apply length_zero_iff_nil in E; auto. }
  rewrite Em, Ep, HR, HA; cbn [Py.bind]; unfold ask_operator; split.
  - rewrite ask_loop_declined; cbn [Py.bind ask_changes ask_processed
                                      ask_additions ask_entries].
    assert (Hall : forall l : list string,
              filter (fun x => negb (list_in String.eqb x [])) l = l).
    { induction l as [|x l IH]; [reflexivity|].
      cbn [filter].
      replace (negb (list_in String.eqb x [])) with true by reflexivity.
      f_equal; exact IH. }
    now rewrite Hall.
  - intros HRne; destruct R as [|r R]; [congruence|].
    cbn [for_each]; unfold ask_step at 1, get_choice;
      cbn [ask_entries ask_additions].
    rewrite (get_choice_loop_starve _ (PInt (-999)) []);
      [reflexivity | apply sentinel_not_in_range | constructor].
Qed.

Lemma declined_prompts_keep_names_apart_witness :
  process_diff_lines true (repeat (PInt 0) 2 ++ [PInt 1]) []
    [removed_line (decl "foo1"); removed_line (decl "foo2")]
    [added_line (decl "bar")]
  = Ok ([] ++ map (fun r => (r, EmptyString)) ["foo1"; "foo2"]
          ++ map (fun a => (EmptyString, a)) ["bar"], [PInt 1])
  /\ (["foo1"; "foo2"] <> [] ->
      process_diff_lines true [] []
        [removed_line (decl "foo1"); removed_line (decl "foo2")]
        [added_line (decl "bar")]
      = Raise EOFError).
Proof.
  apply (declined_prompts_keep_names_apart [PInt 1] []
           [removed_line (decl "foo1"); removed_line (decl "foo2")]
           [added_line (decl "bar")] ["foo1"; "foo2"] ["bar"]).
  - vm_compute; reflexivity.
  - vm_compute; reflexivity.
  - cbn; discriminate.
  - discriminate.
  - discriminate.
Defined.

(** ** Paths *)

Lemma append_empty_r (s : string) : String.append s EmptyString = s.
Proof. induction s as [|c s IH]; cbn; [reflexivity | now rewrite IH]. Qed.

Lemma append_length (s1 s2 : string) :
  String.length (String.append s1 s2) = String.length s1 + String.length s2.
Proof. induction s1 as [|c s1 IH]; cbn; [reflexivity | now rewrite IH]. Qed.

Lemma substring_join (p : string) : forall n,
  String.append (substring 0 n p) (substring n (String.length p - n) p) = p.
Proof.
  induction p as [|c p IH]; intros [|n]; cbn; try reflexivity.
  - f_equal; specialize (IH 0); cbn in IH.
    rewrite Nat.sub_0_r in IH.
    destruct p; [reflexivity|exact IH].
  - f_equal; apply IH.
Qed.

Lemma splitext_join (p : string) :
  String.append (fst (splitext p)) (snd (splitext p)) = p.
Proof.
  unfold splitext.
  destruct (_ <? _)%Z; [|cbn; apply append_empty_r].
  destruct (skip_leading_dots _ _ _); [|cbn; apply append_empty_r].
  cbn [fst snd]; apply substring_join.
Qed.

Lemma temp_filename_differs (path : string) : temp_filename path <> path.
Proof.
  unfold temp_filename.
  pose proof (splitext_join path) as Hj.
  destruct (splitext path) as [fn_root fn_ext]; cbn [fst snd] in Hj.
  intros E; apply (f_equal String.length) in E.
  rewrite <- Hj in E; rewrite !append_length in E.
  cbn in E; lia.
Qed.

Lemma written_name_cases (overwrite : bool) (path : string) :
  (overwrite = true /\ written_name overwrite path = path)
  \/ (overwrite = false /\ written_name overwrite path <> path).
Proof.
  destruct overwrite; [left | right]; split; try reflexivity.
  apply temp_filename_differs.
Qed.

(** ** The scan of the config file *)

Lemma combine_snoc {X Y} (l1 l2 : list X) : forall (m1 m2 : list Y),
  List.length l1 = List.length m1 ->
  combine (l1 ++ l2) (m1 ++ m2) = combine l1 m1 ++ combine l2 m2.
Proof.
  induction l1 as [|x l1 IH]; intros [|y m1] m2 H; try discriminate.
  - reflexivity.
  - cbn; f_equal; apply IH; now injection H.
Qed.

Lemma enumerate_snoc {X} (l : list X) (x : X) :
  combine (seq 0 (List.length (l ++ [x]))) (l ++ [x])
  = combine (seq 0 (List.length l)) l ++ [(List.length l, x)].
Proof.
  rewrite length_app; cbn [List.length].
  rewrite seq_app, combine_snoc by now rewrite length_seq.
  reflexivity.
Qed.

Lemma scan_config_snoc (lines : list string) (line : string) :
  scan_config (lines ++ [line])
  = let '(newlines, s, e) := scan_config lines in
    (newlines ++ [line],
     if str_in "OPTIONAL_ARGUMENTS = " line
     then Z.of_nat (List.length lines) else s,
     if str_in "STATIC_API_DIR = " line
     then Z.of_nat (List.length lines) else e).
Proof.
  unfold scan_config; rewrite enumerate_snoc, fold_left_app; cbn [fold_left].
  destruct (fold_left _ _ _) as [[newlines s] e]; reflexivity.
Qed.

Lemma marked_snoc mark lines line i :
  marked mark (lines ++ [line]) i <->
  marked mark lines i \/ (i = List.length lines /\ str_in mark line = true).
Proof.
  unfold marked; split.
  - intros (l & Hn & Hl).
    destruct (Nat.lt_ge_cases i (List.length lines)) as [Hi|Hi].
    + rewrite nth_error_app1 in Hn by assumption; left; eauto.
    + rewrite nth_error_app2 in Hn by assumption.
      destruct (i - List.length lines) as [|k] eqn:E; cbn in Hn.
      * inversion Hn; subst; right; split; [lia | assumption].
      * destruct k; discriminate.
  - intros [(l & Hn & Hl)|[-> Hl]].
    + exists l; split; [|assumption].
      rewrite nth_error_app1; [assumption|].
      apply nth_error_Some; congruence.
    + exists line; split; [|assumption].
      rewrite nth_error_app2, Nat.sub_diag by lia; reflexivity.
Qed.

Lemma marked_bound mark lines i : marked mark lines i -> i < List.length lines.
Proof. intros (l & Hn & _); apply nth_error_Some; congruence. Qed.

Lemma last_marked_snoc mark lines line z :
  last_marked mark lines z ->
  last_marked mark (lines ++ [line])
    (if str_in mark line then Z.of_nat (List.length lines) else z).
Proof.
  intros H; destruct (str_in mark line) eqn:E.
  - right; exists (List.length lines); split; [reflexivity|]; split.
    + apply marked_snoc; now right.
    + intros j Hj Hm; apply marked_bound in Hm.
      rewrite length_app in Hm; cbn in Hm; lia.
  - destruct H as [[-> Hno]|(i & -> & Hi & Hlast)].
    + left; split; [reflexivity|].
      intros i Hm; apply marked_snoc in Hm as [Hm|[_ Hm]];
        [now apply (Hno i) | congruence].
    + right; exists i; split; [reflexivity|]; split.
      * apply marked_snoc; now left.
      * intros j Hj Hm; apply marked_snoc in Hm as [Hm|[_ Hm]];
          [now apply (Hlast j) | congruence].
Qed.

Lemma scan_config_spec (lines : list string) :
  exists s e,
    scan_config lines = (lines, s, e)
    /\ last_marked "OPTIONAL_ARGUMENTS = " lines s
    /\ last_marked "STATIC_API_DIR = " lines e.
Proof.
  induction lines as [|line lines IH] using rev_ind.
  - exists (-999)%Z, (-999)%Z; split; [reflexivity|].
    split; left; split; try reflexivity;
      intros i (l & Hn & _); destruct i; discriminate.
  - destruct IH as (s & e & Hscan & Hs & He).
    rewrite scan_config_snoc, Hscan.
    eexists _, _; split; [reflexivity|].
    split; now apply last_marked_snoc.
Qed.

(** ** [edit_config_metadata] *)

Lemma list_eqb_eq (l1 : list string) : forall l2,
  list_eqb l1 l2 = true <-> l1 = l2.
Proof.
  induction l1 as [|x l1 IH]; intros [|y l2]; cbn; split; intros H;
    try discriminate; try reflexivity.
  - apply andb_true_iff in H as [H1 H2].
    apply String.eqb_eq in H1; apply IH in H2; congruence.
  - injection H as -> ->; rewrite String.eqb_refl; cbn; now apply IH.
Qed.

Lemma map_option_length {X Y} (f : X -> option Y) (l : list X) :
  forall l', map_option f l = Some l' -> List.length l' = List.length l.
Proof.
  induction l as [|x l IH]; cbn; intros l' H.
  - now inversion H.
  - destruct (f x); [|discriminate].
    destruct (map_option f l) as [ys|]; [|discriminate].
    inversion H; subst; cbn; f_equal; now apply IH.
Qed.

Section EditingFacts.

Variable re_subn : string -> string -> string -> option (string * nat).

Lemma edit_window_stops s e reps :
  fold_left (edit_window re_subn s e) reps None = None.
Proof. induction reps as [|r reps IH]; cbn; [reflexivity | exact IH]. Qed.

Lemma edit_window_reversed s e reps : forall cur,
  e <= s ->
  fold_left (edit_window re_subn s e) reps (Some cur) = Some cur.
Proof.
  induction reps as [|r reps IH]; intros cur H; cbn [fold_left];
    [reflexivity|].
  unfold edit_window at 2, slice, slice_assign.
  replace (e - s) with 0 by lia; cbn [firstn map_option app].
  replace (Nat.max s e) with s by lia.
  rewrite firstn_skipn; now apply IH.
Qed.

Lemma edit_window_outside s e cur r out :
  s < e -> e <= List.length cur ->
  edit_window re_subn s e (Some cur) r = Some out ->
  List.length out = List.length cur
  /\ forall i, i < s \/ e <= i -> nth_error out i = nth_error cur i.
Proof.
  intros Hse He H; unfold edit_window in H.
  destruct (map_option _ _) as [new|] eqn:E; [|discriminate].
  inversion H; subst; clear H.
  apply map_option_length in E.
  unfold slice in E; rewrite length_firstn, length_skipn in E.
  unfold slice_assign; replace (Nat.max s e) with e by lia.
  split.
  - rewrite !length_app, length_firstn, length_skipn; lia.
  - intros i [Hi|Hi].
    + rewrite nth_error_app1 by (rewrite length_firstn; lia).
      now rewrite nth_error_firstn, (proj2 (Nat.ltb_lt i s) Hi).
    + rewrite nth_error_app2 by (rewrite length_firstn; lia).
      rewrite nth_error_app2 by (rewrite length_firstn; lia).
      rewrite nth_error_skipn, length_firstn; f_equal; lia.
Qed.

Lemma edit_windows_outside s e reps : forall cur out,
  s < e -> e <= List.length cur ->
  fold_left (edit_window re_subn s e) reps (Some cur) = Some out ->
  List.length out = List.length cur
  /\ forall i, i < s \/ e <= i -> nth_error out i = nth_error cur i.
Proof.
  induction reps as [|r reps IH]; intros cur out Hse He H; cbn [fold_left] in H.
  - inversion H; subst; auto.
  - destruct (edit_window re_subn s e (Some cur) r) as [mid|] eqn:E;
      [|now rewrite edit_window_stops in H].
    destruct (edit_window_outside _ _ _ _ _ Hse He E) as [Hl Hn].
    destruct (IH mid out Hse) as [Hl' Hn']; [lia | assumption |].
    split; [lia|].
    intros i Hi; now rewrite Hn', Hn.
Qed.

(** X21.  The config file is left alone, whatever the replacements, when the
    text [OPTIONAL_ARGUMENTS = ] is on no line but the first, or the text
    [STATIC_API_DIR = ] is on no line but the first, or no line with the
    second comes after a line with the first; and also when there is nothing
    to replace. *)
Theorem config_left_alone (config_file : string) (lines : list string)
  (std_nm_replacements : list record) (overwrite : bool) :
  (forall i, marked "OPTIONAL_ARGUMENTS = " lines i -> i = 0)
  \/ (forall i, marked "STATIC_API_DIR = " lines i -> i = 0)
  \/ (exists i, marked "OPTIONAL_ARGUMENTS = " lines i
                /\ forall j, marked "STATIC_API_DIR = " lines j -> j <= i)
  \/ std_nm_replacements = [] ->
  edit_config_metadata re_subn config_file lines std_nm_replacements overwrite
  = Some None.
Proof.
  intros H; unfold edit_config_metadata.
  destruct (scan_config_spec lines) as (s & e & -> & Hs & He).
  destruct ((0 <? s)%Z && (0 <? e)%Z) eqn:G; [|reflexivity].
  apply andb_true_iff in G as [Gs Ge].
  apply Z.ltb_lt in Gs, Ge.
  destruct Hs as [[-> _]|(si & -> & Hsi & Hslast)]; [lia|].
  destruct He as [[-> _]|(ei & -> & Hei & Helast)]; [lia|].
  rewrite !Nat2Z.id.
  assert (Hsame : fold_left (edit_window re_subn si ei) std_nm_replacements
                    (Some lines) = Some lines).
  { destruct H as [H|[H|[(i & Hi & H)|H]]].
    - specialize (H si Hsi); lia.
    - specialize (H ei Hei); lia.
    - apply edit_window_reversed.
      specialize (H ei Hei).
      destruct (Nat.lt_ge_cases si i) as [Hlt|Hge]; [|lia].
      now destruct (Hslast i Hlt).
    - subst; reflexivity. }
  rewrite Hsame.
  now rewrite (proj2 (list_eqb_eq lines lines) eq_refl).
Qed.

(** X22.  When the config file is edited, the lines written are as many as
    the lines read and differ from them; they are the same before the last
    line with [OPTIONAL_ARGUMENTS = ] and from the last line with
    [STATIC_API_DIR = ] on, the first being neither the first line of the
    file nor after the second.  They go to the config file itself with
    [overwrite], and to another file without. *)
Theorem config_edit_stays_in_window (config_file : string)
  (lines : list string) (std_nm_replacements : list record)
  (overwrite : bool) (new_filename : string) (newlines : list string) :
  edit_config_metadata re_subn config_file lines std_nm_replacements overwrite
  = Some (Some (new_filename, newlines)) ->
  new_filename = written_name overwrite config_file
  /\ (overwrite = false -> new_filename <> config_file)
  /\ newlines <> lines
  /\ List.length newlines = List.length lines
  /\ exists s e,
       last_marked "OPTIONAL_ARGUMENTS = " lines (Z.of_nat s)
       /\ last_marked "STATIC_API_DIR = " lines (Z.of_nat e)
       /\ 0 < s < e
       /\ forall i, i < s \/ e <= i ->
            nth_error newlines i = nth_error lines i.
Proof.
  unfold edit_config_metadata.
  destruct (scan_config_spec lines) as (s & e & -> & Hs & He).
  destruct ((0 <? s)%Z && (0 <? e)%Z) eqn:G; [|discriminate].
  apply andb_true_iff in G as [Gs Ge].
  apply Z.ltb_lt in Gs, Ge.
  destruct (fold_left _ _ _) as [out|] eqn:F; [|discriminate].
  destruct (list_eqb out lines) eqn:D; cbn [negb]; [discriminate|].
  intros H; inversion H; subst; clear H.
  assert (Hne : newlines <> lines).
  { intros ->; now rewrite (proj2 (list_eqb_eq lines lines) eq_refl) in D. }
  split; [reflexivity|]; split.
  { intros ->; apply temp_filename_differs. }
  split; [assumption|].
  assert (Hse : Z.to_nat s < Z.to_nat e).
  { destruct (Nat.lt_ge_cases (Z.to_nat s) (Z.to_nat e)) as [Hlt|Hge];
      [assumption|].
    rewrite (edit_window_reversed _ _ _ _ Hge) in F; congruence. }
  assert (Hel : Z.to_nat e <= List.length lines).
  { destruct He as [[-> _]|(ei & -> & Hei & _)]; [lia|].
    rewrite Nat2Z.id; apply marked_bound in Hei; lia. }
  destruct (edit_windows_outside _ _ _ _ _ Hse Hel F) as [Hl Hn].
  split; [assumption|].
  exists (Z.to_nat s), (Z.to_nat e).
  rewrite !Z2Nat.id by lia.
  repeat split; try assumption; lia.
Qed.

(** ** [edit_file_metadata] *)

Lemma edit_file_stops reps overwrite file_list :
  fold_left (edit_file re_subn reps overwrite) file_list None = None.
Proof. induction file_list as [|f l IH]; cbn; [reflexivity | exact IH]. Qed.

Lemma replace_all_nil contents :
  replace_all re_subn [] contents = Some (contents, 0).
Proof. reflexivity. Qed.

Lemma edit_file_cases reps overwrite fs file fs' :
  edit_file re_subn reps overwrite (Some fs) file = Some fs' ->
  fs' = fs
  \/ exists contents contents' total,
       fs (meta_filename file) = Some contents
       /\ replace_all re_subn reps contents = Some (contents', total)
       /\ 0 < total
       /\ fs' = write_file fs (written_name overwrite (meta_filename file))
                  contents'.
Proof.
  unfold edit_file.
  destruct (fs (meta_filename file)) as [contents|] eqn:E;
    [|intros H; inversion H; now left].
  destruct (replace_all re_subn reps contents) as [[contents' total]|] eqn:R;
    [|discriminate].
  destruct (0 <? total) eqn:T; intros H; inversion H; subst; [|now left].
  right; exists contents, contents', total.
  apply Nat.ltb_lt in T; auto.
Qed.

(** X23.  [edit_file_metadata] writes nothing when none of the listed
    source files has a [.meta] file beside it, and when there is nothing to
    replace. *)
Theorem metadata_left_alone (fs : files) (file_list : list string)
  (std_nm_replacements : list record) (overwrite : bool) :
  (forall file, In file file_list -> isfile fs (meta_filename file) = false)
  \/ std_nm_replacements = [] ->
  edit_file_metadata re_subn fs file_list std_nm_replacements overwrite
  = Some fs.
Proof.
  intros H; unfold edit_file_metadata.
  induction file_list as [|file file_list IH]; [reflexivity|].
  cbn [fold_left].
  assert (Hstep : edit_file re_subn std_nm_replacements overwrite (Some fs)
                    file = Some fs).
  { unfold edit_file.
    destruct (fs (meta_filename file)) as [contents|] eqn:E; [|reflexivity].
    destruct H as [H| ->].
    - specialize (H file (or_introl eq_refl)).
      unfold isfile in H; now rewrite E in H.
    - reflexivity. }
  rewrite Hstep; apply IH.
  destruct H as [H|H]; [left; intros f Hf; apply H; now right | now right].
Qed.

Lemma edit_file_metadata_frame (fs fs' : files)
  (file_list : list string) (std_nm_replacements : list record)
  (overwrite : bool) :
  edit_file_metadata re_subn fs file_list std_nm_replacements overwrite
  = Some fs' ->
  (forall path, isfile fs path = true -> isfile fs' path = true)
  /\ (forall path,
        (forall file, In file file_list ->
           path <> written_name overwrite (meta_filename file)) ->
        fs' path = fs path).
Proof.
  unfold edit_file_metadata; intros H; split.
  - revert fs H; induction file_list as [|file file_list IH];
      intros fs H path Hp; cbn [fold_left] in H.
    + now inversion H; subst.
    + destruct (edit_file re_subn std_nm_replacements overwrite (Some fs)
                  file) as [mid|] eqn:E;
        [|now rewrite edit_file_stops in H].
      apply (IH mid H).
      apply edit_file_cases in E as [->|(c & c' & t & _ & _ & _ & ->)];
        [assumption|].
      unfold isfile, write_file in *.
      now destruct (String.eqb path _).
  - revert fs H; induction file_list as [|file file_list IH];
      intros fs H path Hp; cbn [fold_left] in H.
    + now inversion H; subst.
    + destruct (edit_file re_subn std_nm_replacements overwrite (Some fs)
                  file) as [mid|] eqn:E;
        [|now rewrite edit_file_stops in H].
      rewrite (IH mid H path) by (intros f Hf; apply Hp; now right).
      apply edit_file_cases in E as [->|(c & c' & t & _ & _ & _ & ->)];
        [reflexivity|].
      unfold write_file.
      destruct (String.eqb path _) eqn:Q; [|reflexivity].
      apply String.eqb_eq in Q.
      now destruct (Hp file (or_introl eq_refl)).
Qed.

(** X24.  [edit_file_metadata] removes no file, and the only paths whose
    text it changes are those it writes for the listed files: the [.meta]
    file itself with [overwrite], the file with the tag put before the
    extension without; each of these differs from the [.meta] file it is
    made from exactly when [overwrite] is off. *)
Theorem metadata_edit_touches_only_targets (fs fs' : files)
  (file_list : list string) (std_nm_replacements : list record)
  (overwrite : bool) :
  edit_file_metadata re_subn fs file_list std_nm_replacements overwrite
  = Some fs' ->
  (forall path, isfile fs path = true -> isfile fs' path = true)
  /\ (forall path,
        (forall file, In file file_list ->
           path <> written_name overwrite (meta_filename file)) ->
        fs' path = fs path)
  /\ (forall file,
        written_name overwrite (meta_filename file) = meta_filename file
        <-> overwrite = true).
Proof.
  intros H; destruct (edit_file_metadata_frame _ _ _ _ _ H) as [H1 H2].
  split; [exact H1|]; split; [exact H2|].
  intros file.
  destruct (written_name_cases overwrite (meta_filename file))
    as [[-> E]|[-> E]]; split; intros; try assumption; try reflexivity;
    [now destruct E | discriminate].
Qed.

End EditingFacts.

Lemma config_left_alone_witness :
  edit_config_metadata whole_text_subn "ccpp_prebuild_config.py"
    [other "OPTIONAL_ARGUMENTS = {"; other "foo1"; other "STATIC_API_DIR = x"]
    [("foo1", "foo2")] true
  = Some None.
Proof.
  apply config_left_alone; left.
  intros i (l & Hn & Hl).
  destruct i as [|[|[|i]]].
  - reflexivity.
  - cbn in Hn; inversion Hn; subst; vm_compute in Hl; discriminate.
  - cbn in Hn; inversion Hn; subst; vm_compute in Hl; discriminate.
  - cbn in Hn; destruct i; discriminate.
Defined.

Lemma config_edit_stays_in_window_witness :
  let newlines :=
    [other "# config"; other "OPTIONAL_ARGUMENTS = {"; other "foo2";
     other "STATIC_API_DIR = x"; other "foo1"] in
  let new_filename := "ccpp_prebuild_config_meta_chg.py" in
  new_filename = written_name false "ccpp_prebuild_config.py"
  /\ (false = false -> new_filename <> "ccpp_prebuild_config.py")
  /\ newlines <> example_config
  /\ List.length newlines = List.length example_config
  /\ exists s e,
       last_marked "OPTIONAL_ARGUMENTS = " example_config (Z.of_nat s)
       /\ last_marked "STATIC_API_DIR = " example_config (Z.of_nat e)
       /\ 0 < s < e
       /\ forall i, i < s \/ e <= i ->
            nth_error newlines i = nth_error example_config i.
Proof.
  apply (config_edit_stays_in_window whole_text_subn
           "ccpp_prebuild_config.py" example_config [("foo1", "foo2")]).
  vm_compute; reflexivity.
Defined.

Lemma metadata_left_alone_witness :
  edit_file_metadata whole_text_subn example_files ["other.F90"]
    [("foo1", "foo2")] true
  = Some example_files.
Proof.
  apply metadata_left_alone; left.
  intros file [<-|[]]; vm_compute; reflexivity.
Defined.

Lemma metadata_edit_touches_only_targets_witness :
  let fs' := write_file example_files "scheme_meta_chg.meta" "foo2" in
  (forall path, isfile example_files path = true -> isfile fs' path = true)
  /\ (forall path,
        (forall file, In file ["scheme.F90"] ->
           path <> written_name false (meta_filename file)) ->
        fs' path = example_files path)
  /\ (forall file,
        written_name false (meta_filename file) = meta_filename file
        <-> false = true).
Proof.
  apply (metadata_edit_touches_only_targets whole_text_subn example_files
           (write_file example_files "scheme_meta_chg.meta" "foo2")
           ["scheme.F90"] [("foo1", "foo2")] false).
  vm_compute; reflexivity.
Defined.

(** ** [check_unknown_vars] *)

Lemma sort_vars_acc all_std_names keys : forall known unknown,
  fold_left
    (fun (st : list string * list string) (k : string) =>
       let '(known_vars, unknown_vars) := st in
       if list_in String.eqb k all_std_names
       then (known_vars ++ [k], unknown_vars)
       else (known_vars, unknown_vars ++ [k]))
    keys (known, unknown)
  = (known ++ filter (fun k => list_in String.eqb k all_std_names) keys,
     unknown
     ++ filter (fun k => negb (list_in String.eqb k all_std_names)) keys).
Proof.
  induction keys as [|k keys IH]; intros known unknown; cbn [fold_left filter].
  - now rewrite !app_nil_r.
  - destruct (list_in String.eqb k all_std_names); cbn [negb];
      rewrite IH, <- app_assoc; reflexivity.
Qed.

Lemma unknown_filter all_std_names keys k :
  In k (filter (fun k => negb (list_in String.eqb k all_std_names)) keys)
  <-> In k keys /\ ~ In k all_std_names.
Proof.
  rewrite filter_In, negb_true_iff, <- (list_in_In k all_std_names).
  split; intros [H1 H2]; split; try assumption.
  - congruence.
  - now destruct (list_in String.eqb k all_std_names).
Qed.

(** X25.  [check_unknown_vars] always dumps two lists, one to each file:
    the host keys and the physics keys that are not among the standard
    names, and only those.  It prints two header lines and one line for
    each dumped name. *)
Theorem unknown_vars_are_the_missing_keys (all_std_names : list string)
  (metadata_define metadata_request : list string) (std_nm_file : string) :
  exists unknown_host_vars unknown_physics_vars,
    snd (check_unknown_vars all_std_names metadata_define metadata_request
           std_nm_file)
    = [(JSON_UNKNOWN_HOST_FILE, unknown_host_vars);
       (JSON_UNKNOWN_PHYSICS_FILE, unknown_physics_vars)]
    /\ (forall k, In k unknown_host_vars <->
                  In k metadata_define /\ ~ In k all_std_names)
    /\ (forall k, In k unknown_physics_vars <->
                  In k metadata_request /\ ~ In k all_std_names)
    /\ List.length
         (fst (check_unknown_vars all_std_names metadata_define
                 metadata_request std_nm_file))
       = 2 + List.length unknown_host_vars
         + List.length unknown_physics_vars.
Proof.
  unfold check_unknown_vars, sort_vars; rewrite !sort_vars_acc.
  cbn [app fst snd truthy JSON_UNKNOWN_HOST_FILE JSON_UNKNOWN_PHYSICS_FILE].
  eexists _, _; split; [reflexivity|].
  split; [intros k; apply unknown_filter|].
  split; [intros k; apply unknown_filter|].
  cbn [List.length]; rewrite length_app; cbn [List.length].
  rewrite !length_map; lia.
Qed.

(** ** The keys in lower case *)

Section DictFacts.

Context {V : Type}.

Lemma dict_pop_spec (d : @dict V) (key : string) :
  NoDup (map fst d) -> In key (map fst d) ->
  exists v d',
    dict_pop d key = Some (v, d')
    /\ In (key, v) d
    /\ NoDup (map fst d')
    /\ forall k x, In (k, x) d' <-> In (k, x) d /\ k <> key.
Proof.
  induction d as [|[k0 v0] d IH]; intros Hnd Hin; [destruct Hin|].
  cbn [map fst] in Hnd; inversion Hnd as [|? ? Hk0 Hnd']; subst.
  cbn [dict_pop]; destruct (String.eqb k0 key) eqn:E.
  - apply String.eqb_eq in E; subst k0.
    exists v0, d; split; [reflexivity|]; split; [now left|].
    split; [assumption|].
    intros k x; split.
    + intros H; split; [now right|].
      intros ->; apply Hk0.
      change key with (fst (key, x)); now apply in_map.
    + intros [[H|H] Hne]; [inversion H; congruence | assumption].
  - apply String.eqb_neq in E.
    destruct Hin as [Hin|Hin]; [cbn in Hin; congruence|].
    destruct (IH Hnd' Hin) as (v & d' & -> & Hv & Hnd'' & Hd').
    exists v, ((k0, v0) :: d'); split; [reflexivity|].
    split; [now right|]; split.
    + cbn [map fst]; constructor; [|assumption].
      intros Hk; apply in_map_iff in Hk as ([k x] & Hkx & Hx).
      cbn in Hkx; subst k; apply Hd' in Hx as [Hx _].
      apply Hk0; change k0 with (fst (k0, x)); now apply in_map.
    + intros k x; split.
      * intros [H|H]; [inversion H; subst; split; [now left|congruence]|].
        apply Hd' in H as [H Hne]; split; [now right | assumption].
      * intros [[H|H] Hne]; [now left|].
        right; apply Hd'; now split.
Qed.

Lemma dict_set_spec (d : @dict V) (key : string) (v : V) :
  NoDup (map fst d) ->
  NoDup (map fst (dict_set d key v))
  /\ forall k x, In (k, x) (dict_set d key v) <->
       (k = key /\ x = v) \/ (In (k, x) d /\ k <> key).
Proof.
  induction d as [|[k0 v0] d IH]; intros Hnd.
  - cbn; split; [constructor; [intros []|constructor]|].
    intros k x; split.
    + intros [H|[]]; inversion H; now left.
    + intros [[-> ->]|[[] _]]; now left.
  - cbn [map fst] in Hnd; inversion Hnd as [|? ? Hk0 Hnd']; subst.
    destruct (IH Hnd') as [IHnd IHin].
    cbn [dict_set]; destruct (String.eqb k0 key) eqn:E.
    + apply String.eqb_eq in E; subst k0.
      split; [assumption|].
      intros k x; split.
      * intros [H|H]; [inversion H; now left|].
        right; split; [now right|].
        intros ->; apply Hk0.
        change key with (fst (key, x)); now apply in_map.
      * intros [[-> ->]|[[H|H] Hne]];
          [now left | inversion H; congruence | now right].
    + apply String.eqb_neq in E; split.
      * cbn [map fst]; constructor; [|assumption].
        intros Hk; apply in_map_iff in Hk as ([k x] & Hkx & Hx).
        cbn in Hkx; subst k.
        apply IHin in Hx as [[-> _]|[Hx _]]; [congruence|].
        apply Hk0; change k0 with (fst (k0, x)); now apply in_map.
      * intros k x; split.
        -- intros [H|H];
             [inversion H; subst; right; split; [now left|assumption]|].
           apply IHin in H as [H|[H Hne]]; [now left|].
           right; split; [now right | assumption].
        -- intros [H|[[H|H] Hne]].
           ++ right; apply IHin; now left.
           ++ now left.
           ++ right; apply IHin; now right.
Qed.

Lemma in_keys (d : @dict V) (k : string) :
  In k (map fst d) <-> exists x, In (k, x) d.
Proof.
  rewrite in_map_iff; split.
  - intros ([k' x] & E & H); cbn in E; subst; eauto.
  - intros (x & H); exists (k, x); auto.
Qed.

Lemma lower_loop (orig : @dict V) : forall rest cur done,
  NoDup rest -> NoDup (map fst cur) ->
  (forall k, In k (map fst cur) <->
     In k rest \/ exists k0, In k0 done /\ k = str_lower k0) ->
  (forall k v, In (k, v) cur ->
     (In (k, v) orig /\ In k rest)
     \/ exists k0, In (k0, v) orig /\ k = str_lower k0) ->
  exists out,
    fold_left
      (fun (st : option dict) (key : string) =>
         match st with
         | None => None
         | Some d =>
             match dict_pop d key with
             | None => None
             | Some (v, d') => Some (dict_set d' (str_lower key) v)
             end
         end)
      rest (Some cur) = Some out
    /\ NoDup (map fst out)
    /\ (forall k, In k (map fst out) <->
          exists k0, In k0 (done ++ rest) /\ k = str_lower k0)
    /\ (forall k v, In (k, v) out ->
          exists k0, In (k0, v) orig /\ k = str_lower k0).
Proof.
  induction rest as [|key rest IH]; intros cur done Hr Hnd Hkeys Hvals.
  - exists cur; split; [reflexivity|]; split; [assumption|]; split.
    + intros k; rewrite app_nil_r, Hkeys; split; [intros [[]|H]|]; auto.
    + intros k v H; destruct (Hvals k v H) as [[_ []]|H']; assumption.
  - inversion Hr as [|? ? Hkey Hr']; subst.
    assert (Hin : In key (map fst cur)) by (apply Hkeys; left; now left).
    destruct (dict_pop_spec cur key Hnd Hin)
      as (v & d' & Hpop & Hv & Hnd' & Hd').
    destruct (dict_set_spec d' (str_lower key) v Hnd') as [Hnd2 Hd2].
    cbn [fold_left]; rewrite Hpop.
    destruct (IH (dict_set d' (str_lower key) v) (done ++ [key]) Hr' Hnd2)
      as (out & Hout & Hnd3 & Hk3 & Hv3).
    + intros k; rewrite in_keys; split.
      * intros (x & Hx); apply Hd2 in Hx as [[-> _]|[Hx Hne]].
        { right; exists key; split; [apply in_or_app; right; now left|].
          reflexivity. }
        apply Hd' in Hx as [Hx Hne'].
        assert (Hk : In k (map fst cur)) by (apply in_keys; eauto).
        apply Hkeys in Hk as [[Hk|Hk]|(k0 & Hk0 & ->)].
        -- congruence.
        -- now left.
        -- right; exists k0; split; [apply in_or_app; now left|reflexivity].
      * intros H.
        destruct (String.eqb k (str_lower key)) eqn:E.
        { apply String.eqb_eq in E; exists v; apply Hd2; now left. }
        apply String.eqb_neq in E.
        assert (Hk : In k (map fst cur) /\ k <> key).
        { destruct H as [H|(k0 & Hk0 & ->)].
          - split; [apply Hkeys; left; now right|].
            intros ->; now apply Hkey.
          - apply in_app_or in Hk0 as [Hk0|[<-|[]]]; [|congruence].
            split; [apply Hkeys; right; eauto|].
            intros Heq; apply E; rewrite <- Heq.
            now rewrite str_lower_idem. }
        destruct Hk as [Hk Hne]; apply in_keys in Hk as (x & Hx).
        exists x; apply Hd2; right; split; [|assumption].
        apply Hd'; now split.
    + intros k x Hx; apply Hd2 in Hx as [[-> ->]|[Hx Hne]].
      * right; destruct (Hvals key v Hv) as [[Ho _]|(k0 & Ho & Hk)].
        -- exists key; now split.
        -- exists k0; split; [assumption|].
           now rewrite Hk, str_lower_idem.
      * apply Hd' in Hx as [Hx Hne'].
        destruct (Hvals k x Hx) as [[Ho [Hk|Hk]]|H'];
          [congruence | left; now split | now right].
    + exists out; split; [assumption|]; split; [assumption|]; split;
        [|assumption].
      intros k; rewrite Hk3, <- app_assoc; reflexivity.
Qed.

Lemma lower_keys_spec (metadata : @dict V) :
  NoDup (map fst metadata) ->
  exists out,
    lower_keys metadata = Some out
    /\ NoDup (map fst out)
    /\ (forall k, In k (map fst out) <->
          exists k0, In k0 (map fst metadata) /\ k = str_lower k0)
    /\ (forall k v, In (k, v) out ->
          exists k0, In (k0, v) metadata /\ k = str_lower k0).
Proof.
  intros Hnd; unfold lower_keys.
  apply (lower_loop metadata (map fst metadata) metadata []);
    try assumption.
  - intros k; split; [now left | intros [H|(k0 & [] & _)]; assumption].
  - intros k v H; left; split; [assumption|].
    apply in_keys; eauto.
Qed.

(** X26.  The loop over the keys of a metadata dictionary raises no
    KeyError; afterwards the keys are exactly the lower-cased forms of the
    keys before, each once, and every value was the value of a key with
    that lower-cased form. *)
Theorem keys_become_lower_case (metadata : @dict V) :
  NoDup (map fst metadata) ->
  exists out,
    lower_keys metadata = Some out
    /\ NoDup (map fst out)
    /\ (forall k, In k (map fst out) <->
          exists k0, In k0 (map fst metadata) /\ k = str_lower k0)
    /\ (forall k v, In (k, v) out ->
          exists k0, In (k0, v) metadata /\ k = str_lower k0).
Proof. apply lower_keys_spec. Qed.

End DictFacts.

Lemma keys_become_lower_case_witness :
  exists out,
    lower_keys [("Foo1", 1); ("BAR", 2); ("foo1", 3)] = Some out
    /\ NoDup (map fst out)
    /\ (forall k, In k (map fst out) <->
          exists k0, In k0 (map fst [("Foo1", 1); ("BAR", 2); ("foo1", 3)])
                     /\ k = str_lower k0)
    /\ (forall k v, In (k, v) out ->
          exists k0, In (k0, v) [("Foo1", 1); ("BAR", 2); ("foo1", 3)]
                     /\ k = str_lower k0).
Proof.
  apply (keys_become_lower_case [("Foo1", 1); ("BAR", 2); ("foo1", 3)]).
  cbn; repeat constructor; cbn; intuition discriminate.
Defined.

(** X27.  In mode [u] the names are compared without regard to case: a
    name is dumped as an unknown host variable exactly when it is the
    lower-cased form of a host key and no catalog name has that lower-cased
    form; likewise for the physics variables. *)
Theorem unknown_check_ignores_case {V W : Type} (names : list string)
  (metadata_define : @dict V) (metadata_request : @dict W)
  (standard_name_file : string) :
  NoDup (map fst metadata_define) ->
  NoDup (map fst metadata_request) ->
  exists printed unknown_host_vars unknown_physics_vars,
    main_check_unknown names metadata_define metadata_request
      standard_name_file
    = Some (printed,
            [(JSON_UNKNOWN_HOST_FILE, unknown_host_vars);
             (JSON_UNKNOWN_PHYSICS_FILE, unknown_physics_vars)])
    /\ (forall k, In k unknown_host_vars <->
          (exists k0, In k0 (map fst metadata_define) /\ k = str_lower k0)
          /\ forall n, In n names -> str_lower n <> k)
    /\ (forall k, In k unknown_physics_vars <->
          (exists k0, In k0 (map fst metadata_request) /\ k = str_lower k0)
          /\ forall n, In n names -> str_lower n <> k).
Proof.
  intros Hd Hr; unfold main_check_unknown.
  destruct (lower_keys_spec metadata_define Hd)
    as (d1 & -> & _ & Hk1 & _).
  destruct (lower_keys_spec metadata_request Hr)
    as (d2 & -> & _ & Hk2 & _).
  unfold check_unknown_vars, sort_vars; rewrite !sort_vars_acc.
  cbn [app fst snd truthy JSON_UNKNOWN_HOST_FILE JSON_UNKNOWN_PHYSICS_FILE].
  eexists _, _, _; split; [reflexivity|].
  assert (Hnames : forall k, ~ In k (map str_lower names) <->
                             forall n, In n names -> str_lower n <> k).
  { intros k; rewrite in_map_iff; split.
    - intros H n Hn E; apply H; eauto.
    - intros H (n & E & Hn); now apply (H n). }
  split; intros k; rewrite unknown_filter, Hnames; [rewrite Hk1|rewrite Hk2];
    reflexivity.
Qed.

Lemma unknown_check_ignores_case_witness :
  exists printed unknown_host_vars unknown_physics_vars,
    main_check_unknown ["foo1"; "Bar"] [("Foo1", 1); ("qux", 2)]
      [("BAR", 3)] "standard_names.xml"
    = Some (printed,
            [(JSON_UNKNOWN_HOST_FILE, unknown_host_vars);
             (JSON_UNKNOWN_PHYSICS_FILE, unknown_physics_vars)])
    /\ (forall k, In k unknown_host_vars <->
          (exists k0, In k0 (map fst [("Foo1", 1); ("qux", 2)])
                      /\ k = str_lower k0)
          /\ forall n, In n ["foo1"; "Bar"] -> str_lower n <> k)
    /\ (forall k, In k unknown_physics_vars <->
          (exists k0, In k0 (map fst [("BAR", 3)]) /\ k = str_lower k0)
          /\ forall n, In n ["foo1"; "Bar"] -> str_lower n <> k).
Proof.
  apply (unknown_check_ignores_case ["foo1"; "Bar"]
           [("Foo1", 1); ("qux", 2)] [("BAR", 3)] "standard_names.xml");
    cbn; repeat constructor; cbn; intuition discriminate.
Defined.

(** ** A file compared with itself *)

Lemma indices_from_app (x : string) (l1 l2 : list string) : forall j0,
  indices_from String.eqb x (l1 ++ l2) j0
  = indices_from String.eqb x l1 j0
    ++ indices_from String.eqb x l2 (j0 + List.length l1).
Proof.
  induction l1 as [|y l1 IH]; intros j0; cbn [indices_from app List.length].
  - now rewrite Nat.add_0_r.
  - rewrite IH, <- Nat.add_succ_comm.
    now destruct (String.eqb y x).
Qed.

Lemma indices_from_range (x : string) (l : list string) : forall j0 j,
  In j (indices_from String.eqb x l j0) ->
  j0 <= j < j0 + List.length l /\ nth_error l (j - j0) = Some x.
Proof.
  induction l as [|y l IH]; intros j0 j H; [destruct H|].
  cbn [indices_from] in H.
  assert (Hrest : In j (indices_from String.eqb x l (S j0)) ->
                  j0 <= j < j0 + List.length (y :: l)
                  /\ nth_error (y :: l) (j - j0) = Some x).
  { intros H'; destruct (IH _ _ H') as [Hr Hn]; cbn [List.length].
    split; [lia|].
    replace (j - j0) with (S (j - S j0)) by lia; exact Hn. }
  destruct (String.eqb y x) eqn:E; [|now apply Hrest].
  destruct H as [<-|H]; [|now apply Hrest].
  apply String.eqb_eq in E; subst; cbn [List.length].
  rewrite Nat.sub_diag; split; [lia | reflexivity].
Qed.

Lemma indices_from_split (t : list string) (i : nat) (x : string) :
  nth_error t i = Some x ->
  exists js1 js2,
    indices_from String.eqb x t 0 = js1 ++ i :: js2
    /\ (forall j, In j js1 -> j < i /\ nth_error t j = Some x)
    /\ (forall j, In j js2 ->
          i < j < List.length t /\ nth_error t j = Some x).
Proof.
  intros Hx.
  destruct (nth_error_split t i Hx) as (l1 & l2 & Ht & Hl1).
  exists (indices_from String.eqb x l1 0),
         (indices_from String.eqb x l2 (S i)).
  subst t; rewrite indices_from_app; cbn [indices_from Nat.add].
  rewrite String.eqb_refl, Hl1; split; [reflexivity|]; split.
  - intros j Hj; apply indices_from_range in Hj as [Hr Hn].
    rewrite Nat.sub_0_r in Hn; split; [lia|].
    rewrite nth_error_app1 by lia; exact Hn.
  - intros j Hj; apply indices_from_range in Hj as [Hr Hn].
    rewrite length_app; cbn [List.length]; split; [lia|].
    rewrite nth_error_app2 by lia.
    replace (j - List.length l1) with (S (j - S i)) by lia; exact Hn.
Qed.

Lemma scan_js_pre (i n : nat) (j2len : list (nat * nat)) (js1 : list nat) :
  forall rest p q s acc,
  (forall j, In j js1 -> j < n /\ j2len_prev j2len j + 1 <= s) ->
  scan_js i 0 n j2len (js1 ++ rest) (p, q, s) acc
  = scan_js i 0 n j2len rest (p, q, s)
      (rev (map (fun j => (j, j2len_prev j2len j + 1)) js1) ++ acc).
Proof.
  induction js1 as [|j js1 IH]; intros rest p q s acc H; [reflexivity|].
  destruct (H j (or_introl eq_refl)) as [Hj Hk].
  cbn [app scan_js].
  replace (j <? 0) with false by reflexivity.
  rewrite (proj2 (Nat.leb_gt n j) Hj), (proj2 (Nat.ltb_ge s _) Hk).
  rewrite IH by (intros j' Hj'; apply H; now right).
  cbn [map rev]; now rewrite <- app_assoc.
Qed.

Lemma scan_js_idle (i n : nat) (j2len : list (nat * nat)) (js : list nat)
  p q s acc :
  (forall j, In j js -> j < n /\ j2len_prev j2len j + 1 <= s) ->
  scan_js i 0 n j2len js (p, q, s) acc
  = ((p, q, s), rev (map (fun j => (j, j2len_prev j2len j + 1)) js) ++ acc).
Proof.
  intros H; rewrite <- (app_nil_r js) at 1.
  now rewrite scan_js_pre.
Qed.

Lemma find_keyed (f : nat -> nat) (key : nat) (l : list (nat * nat)) :
  (forall p, In p l -> snd p = f (fst p)) ->
  find (fun p => fst p =? key) l
  = if existsb (fun p => fst p =? key) l then Some (key, f key) else None.
Proof.
  induction l as [|[j k] l IH]; intros H; [reflexivity|].
  cbn [find existsb fst]; destruct (j =? key) eqn:E; cbn [orb].
  - apply Nat.eqb_eq in E; subst.
    pose proof (H (key, k) (or_introl eq_refl)) as Hk; cbn in Hk.
    now subst.
  - apply IH; intros p Hp; apply H; now right.
Qed.

Lemma row_lookup (f : nat -> nat) (js : list nat) (j : nat) :
  j2len_prev (rev (map (fun j => (j, f j)) js) ++ []) (S j)
  = if existsb (fun j' => j' =? j) js then f j else 0.
Proof.
  unfold j2len_prev; rewrite app_nil_r, (find_keyed f).
  2:{ intros p Hp; apply in_rev, in_map_iff in Hp as (j' & <- & _).
      reflexivity. }
  assert (E : existsb (fun p : nat * nat => fst p =? j)
                (rev (map (fun j => (j, f j)) js))
              = existsb (fun j' => j' =? j) js).
  { apply eq_true_iff_eq; rewrite !existsb_exists; split.
    - intros (p & Hp & Hk); apply in_rev, in_map_iff in Hp as (j' & <- & Hj).
      exists j'; auto.
    - intros (j' & Hj & Hk); exists (j', f j'); split; [|exact Hk].
      apply -> in_rev; exact (in_map (fun j => (j, f j)) js j' Hj). }
  rewrite E; now destruct (existsb _ js).
Qed.

Lemma unpopular_run_le (t : list string) (i : nat) : unpopular_run t i <= i.
Proof.
  induction i as [|i IH]; cbn [unpopular_run]; [lia|].
  destruct (nth_error t i) as [x|]; [|lia].
  destruct (popular String.eqb t x); lia.
Qed.

Lemma unpopular_run_step (t : list string) (i : nat) (x : string) :
  nth_error t i = Some x ->
  unpopular_run t (S i)
  = if popular String.eqb t x then 0 else S (unpopular_run t i).
Proof. intros H; cbn [unpopular_run]; now rewrite H. Qed.

Lemma scan_row (t : list string) (i : nat) (x : string)
  (j2len : list (nat * nat)) (p s : nat) :
  nth_error t i = Some x ->
  (forall j, j2len_prev j2len j <= unpopular_run t i
             /\ j2len_prev j2len j <= unpopular_run t j) ->
  j2len_prev j2len i = unpopular_run t i ->
  p + s <= i ->
  (forall i', i' <= i -> unpopular_run t i' <= s) ->
  exists p' s' newj2len,
    scan_js i 0 (List.length t) j2len (b2j String.eqb t x) (p, p, s) []
    = ((p', p', s'), newj2len)
    /\ (forall j, j2len_prev newj2len j <= unpopular_run t (S i)
                  /\ j2len_prev newj2len j <= unpopular_run t j)
    /\ j2len_prev newj2len (S i) = unpopular_run t (S i)
    /\ p' + s' <= S i
    /\ (forall i', i' <= S i -> unpopular_run t i' <= s').
Proof.
  intros Hx HJ Hdiag Hps HB.
  pose proof (unpopular_run_step t i x Hx) as Hstep.
  assert (Hi : i < List.length t) by (apply nth_error_Some; congruence).
  unfold b2j; destruct (popular String.eqb t x) eqn:Hpop.
  - exists p, s, []; cbn [scan_js]; split; [reflexivity|].
    assert (H0 : forall j, j2len_prev [] j = 0) by (now intros [|j]).
    repeat split; intros; rewrite ?H0; try lia.
    destruct (Nat.eq_dec i' (S i)) as [->|Hne]; [lia|].
    apply HB; lia.
  - destruct (indices_from_split t i x Hx) as (js1 & js2 & -> & H1 & H2).
    set (f := fun j => (j, j2len_prev j2len j + 1)).
    set (k := j2len_prev j2len i + 1).
    assert (Hk : k = unpopular_run t (S i)) by (unfold k; lia).
    assert (Hsame : forall j, nth_error t j = Some x ->
              j2len_prev j2len j + 1 <= unpopular_run t (S j)).
    { intros j Hj; rewrite (unpopular_run_step t j x Hj), Hpop.
      destruct (HJ j); lia. }
    rewrite scan_js_pre.
    2:{ intros j Hj; destruct (H1 j Hj) as [Hlt Hn]; split; [lia|].
        specialize (Hsame j Hn); specialize (HB (S j)); lia. }
    cbn [scan_js].
    replace (i <? 0) with false by reflexivity.
    rewrite (proj2 (Nat.leb_gt (List.length t) i) Hi).
    fold k; fold f.
    set (best' := if s <? k then (i + 1 - k, i + 1 - k, k) else (p, p, s)).
    assert (Hbest : exists p' s', best' = (p', p', s')
                      /\ p' + s' <= S i /\ s <= s' /\ k <= s').
    { unfold best'; destruct (s <? k) eqn:E.
      - apply Nat.ltb_lt in E; exists (i + 1 - k), k.
        pose proof (unpopular_run_le t (S i)); repeat split; lia.
      - apply Nat.ltb_ge in E; exists p, s; repeat split; lia. }
    destruct Hbest as (p' & s' & -> & Hps' & Hss' & Hks').
    rewrite scan_js_idle.
    2:{ intros j Hj; destruct (H2 j Hj) as [Hlt Hn]; split; [lia|].
        destruct (HJ j); lia. }
    fold f.
    exists p', s'; eexists; split; [reflexivity|].
    assert (Hnew : rev (map f js2) ++ (i, k) :: rev (map f js1) ++ []
                   = rev (map f (js1 ++ i :: js2)) ++ []).
    { rewrite map_app, rev_app_distr; cbn [map rev].
      now rewrite <- !app_assoc. }
    rewrite Hnew.
    assert (Hall : forall j, In j (js1 ++ i :: js2) ->
                             nth_error t j = Some x).
    { intros j Hj; apply in_app_or in Hj as [Hj|[<-|Hj]];
        [now apply H1 | assumption | now apply H2]. }
    assert (Hlook : forall j,
              j2len_prev (rev (map f (js1 ++ i :: js2)) ++ []) (S j)
              = if existsb (fun j' => j' =? j) (js1 ++ i :: js2)
                then j2len_prev j2len j + 1 else 0).
    { intros j; unfold f.
      exact (row_lookup (fun j => j2len_prev j2len j + 1) _ j). }
    split; [|split; [|split; [assumption|]]].
    + intros [|j]; [cbn; lia|].
      rewrite Hlook; destruct (existsb _ _) eqn:E; [|lia].
      apply existsb_exists in E as (j' & Hj' & E).
      apply Nat.eqb_eq in E; subst j'.
      specialize (Hsame j (Hall j Hj')); destruct (HJ j); lia.
    + rewrite Hlook.
      assert (E : existsb (fun j' => j' =? i) (js1 ++ i :: js2) = true).
      { apply existsb_exists; exists i; split;
          [apply in_or_app; right; now left | apply Nat.eqb_refl]. }
      rewrite E; exact Hk.
    + intros i' Hi'; destruct (Nat.eq_dec i' (S i)) as [->|Hne]; [lia|].
      specialize (HB i'); lia.
Qed.

Lemma scan_rows (t : list string) : forall ai i j2len p s,
  skipn i t = ai -> i <= List.length t ->
  (forall j, j2len_prev j2len j <= unpopular_run t i
             /\ j2len_prev j2len j <= unpopular_run t j) ->
  j2len_prev j2len i = unpopular_run t i ->
  p + s <= i ->
  (forall i', i' <= i -> unpopular_run t i' <= s) ->
  exists p' s',
    scan_is String.eqb t 0 (List.length t) ai i (p, p, s) j2len
    = (p', p', s')
    /\ p' + s' <= List.length t.
Proof.
  induction ai as [|x ai IH]; intros i j2len p s Hai Hi HJ Hd Hps HB.
  - exists p, s; split; [reflexivity | lia].
  - assert (Hx : nth_error t i = Some x).
    { rewrite <- (Nat.add_0_r i), <- nth_error_skipn, Hai; reflexivity. }
    assert (Hi' : i < List.length t) by (apply nth_error_Some; congruence).
    destruct (scan_row t i x j2len p s Hx HJ Hd Hps HB)
      as (p' & s' & new & Hrow & HJ' & Hd' & Hps' & HB').
    cbn [scan_is]; rewrite Hrow.
    apply (IH (S i) new p' s'); [|lia|exact HJ'|exact Hd'|exact Hps'|exact HB'].
    replace (S i) with (1 + i) by lia.
    now rewrite <- skipn_skipn, Hai.
Qed.

Lemma same_at_diag (t : list string) (i : nat) :
  i < List.length t -> same_at String.eqb t t i i = true.
Proof.
  intros H; unfold same_at.
  destruct (nth_error t i) as [x|] eqn:E; [apply String.eqb_refl|].
  apply nth_error_None in E; lia.
Qed.

Lemma extend_left_diag (t : list string) : forall fuel p s,
  p <= fuel -> p + s <= List.length t ->
  extend_left String.eqb fuel t t 0 0 (p, p, s) = (0, 0, s + p).
Proof.
  induction fuel as [|fuel IH]; intros p s Hp Hps.
  - replace p with 0 by lia; cbn; now rewrite Nat.add_0_r.
  - destruct p as [|p]; [cbn; now rewrite Nat.add_0_r|].
    cbn [extend_left].
    replace (0 <? S p) with true by reflexivity.
    replace (S p - 1) with p by lia.
    rewrite same_at_diag by lia; cbn [andb].
    rewrite IH by lia; f_equal; lia.
Qed.

Lemma extend_right_diag (t : list string) : forall fuel s,
  s <= List.length t -> List.length t - s <= fuel ->
  extend_right String.eqb fuel t t (List.length t) (List.length t) (0, 0, s)
  = (0, 0, List.length t).
Proof.
  induction fuel as [|fuel IH]; intros s Hs Hf.
  - replace s with (List.length t) by lia; reflexivity.
  - cbn [extend_right Nat.add].
    destruct (s <? List.length t) eqn:E.
    + apply Nat.ltb_lt in E; rewrite same_at_diag by lia; cbn [andb].
      apply IH; lia.
    + apply Nat.ltb_ge in E; cbn [andb].
      replace s with (List.length t) by lia; reflexivity.
Qed.

Lemma find_longest_match_same (t : list string) :
  find_longest_match String.eqb t t 0 (List.length t) 0 (List.length t)
  = (0, 0, List.length t).
Proof.
  unfold find_longest_match.
  rewrite Nat.sub_0_r; cbn [skipn]; rewrite firstn_all.
  destruct (scan_rows t t 0 [] 0 0) as (p & s & -> & Hps);
    try reflexivity; try lia.
  - intros [|j]; cbn; lia.
  - intros i' Hi'; replace i' with 0 by lia; reflexivity.
  - cbn [fst]; rewrite extend_left_diag by lia.
    apply extend_right_diag; lia.
Qed.

Lemma get_grouped_opcodes_same (t : list string) :
  get_grouped_opcodes String.eqb t t 0 = [].
Proof.
  destruct t as [|x t']; [reflexivity|].
  set (t := x :: t'); set (n := List.length t).
  assert (Hn : 0 < n) by (cbn; lia).
  unfold get_grouped_opcodes, get_opcodes, get_matching_blocks; fold n.
  cbn [blocks]; rewrite find_longest_match_same; fold n.
  rewrite (proj2 (Nat.eqb_neq n 0)) by lia.
  replace (0 <? 0) with false by reflexivity; cbn [andb app Nat.add].
  rewrite Nat.ltb_irrefl; cbn [andb collapse Nat.add].
  replace (0 =? 0) with true by reflexivity; cbn [andb collapse].
  rewrite (proj2 (Nat.eqb_neq n 0)) by lia.
  cbn [app opcodes_from].
  replace (0 <? 0) with false by reflexivity; cbn [andb app Nat.add].
  rewrite (proj2 (Nat.eqb_neq n 0)) by lia.
  rewrite Nat.ltb_irrefl; cbn [andb app Nat.eqb].
  cbn [fix_first fix_last group_codes is_equal andb Nat.add].
  rewrite Nat.sub_0_r, Nat.max_r, Nat.add_0_r, Nat.min_id by lia.
  rewrite Nat.sub_diag; reflexivity.
Qed.

(** X12.  A file compared with itself gives no change: in both modes, and
    whatever the operator would enter, the diff of two equal lists of lines
    is empty and [find_changed_vars] returns the empty list with three zero
    counts. *)
Theorem same_file_gives_no_change (INTERACTIVE : bool)
  (entries : list pyval) (old_file new_file : string)
  (file_text : list string) :
  unified_diff file_text file_text old_file new_file 0 = []
  /\ find_changed_vars INTERACTIVE entries old_file new_file
       file_text file_text
     = Ok ([], 0, 0, 0).
Proof.
  assert (E : unified_diff file_text file_text old_file new_file 0 = []).
  { unfold unified_diff; now rewrite get_grouped_opcodes_same. }
  split; [exact E|].
  unfold find_changed_vars; rewrite E; reflexivity.
Qed.

(** ** The modes of [main_func] *)

Section MainFacts.

Variable INTERACTIVE : bool.
Variable entries : list pyval.
Variable re_subn : string -> string -> string -> option (string * nat).
Variable json_dump_changes : list record -> string.
Variable json_dump_names : list string -> string.
Variable json_load : string -> option (list record).
Variable create_XML : files -> option files.

(** X28.  In mode [r], when the change file is not there, the run does not
    stop after saying so: it goes on to the editing step and fails there
    with an UnboundLocalError for [std_name_changes], before any file is
    opened for editing. *)
Theorem replay_without_change_file_fails (args : arguments)
  (all_std_names metadata_define metadata_request : list string)
  (variable_definition_files scheme_files : list string) (fs : files) :
  arg_mode args = mode_r ->
  isfile fs (arg_change_file args) = false ->
  main_func INTERACTIVE entries re_subn json_dump_changes json_dump_names
    json_load create_XML args all_std_names metadata_define metadata_request
    variable_definition_files scheme_files fs
  = inr (UnboundLocalError "std_name_changes").
Proof.
  intros Hmode Hfile.
  unfold main_func, check_stage, replay_stage, edit_stage; rewrite Hmode.
  unfold isfile in Hfile.
  destruct (fs (arg_change_file args)); [discriminate | reflexivity].
Qed.

Lemma edit_config_name config_file lines reps overwrite name newlines :
  edit_config_metadata re_subn config_file lines reps overwrite
  = Some (Some (name, newlines)) ->
  name = written_name overwrite config_file.
Proof.
  unfold edit_config_metadata.
  destruct (scan_config lines) as [[nl s] e].
  destruct (_ && _); [|discriminate].
  destruct (fold_left _ _ _) as [out|]; [|discriminate].
  destruct (negb _); [|discriminate].
  intros H; now inversion H.
Qed.

Lemma edit_stage_frame (args : arguments)
  (variable_definition_files scheme_files : list string)
  (fs fs' : files) (bound : option (list record)) (path : string) :
  edit_stage re_subn args variable_definition_files scheme_files (fs, bound)
  = inl fs' ->
  path <> written_name (arg_overwrite args) (arg_config_file args) ->
  (forall file, In file (variable_definition_files ++ scheme_files) ->
     path <> written_name (arg_overwrite args) (meta_filename file)) ->
  fs' path = fs path.
Proof.
  intros H Hc Hm; unfold edit_stage in H.
  assert (Hedit :
    match bound with
    | None => inr (UnboundLocalError "std_name_changes")
    | Some std_name_changes =>
        match fs (arg_config_file args) with
        | None => inr (IOError (arg_config_file args))
        | Some text =>
            match edit_config_metadata re_subn (arg_config_file args)
                    (readlines text) (std_nm_replacements std_name_changes)
                    (arg_overwrite args) with
            | None => inr ReError
            | Some written =>
                match edit_file_metadata re_subn
                        match written with
                        | Some (new_filename, newlines) =>
                            write_file fs new_filename (writelines newlines)
                        | None => fs
                        end
                        variable_definition_files
                        (std_nm_replacements std_name_changes)
                        (arg_overwrite args) with
                | None => inr ReError
                | Some fs0 =>
                    match edit_file_metadata re_subn fs0 scheme_files
                            (std_nm_replacements std_name_changes)
                            (arg_overwrite args) with
                    | None => inr ReError
                    | Some fs1 => inl fs1
                    end
                end
            end
        end
    end = inl fs' -> fs' path = fs path).
  { clear H; destruct bound as [changes|]; [|discriminate].
    destruct (fs (arg_config_file args)) as [text|]; [|discriminate].
    destruct (edit_config_metadata _ _ _ _ _) as [written|] eqn:Ec;
      [|discriminate].
    destruct (edit_file_metadata _ _ variable_definition_files _ _)
      as [fs0|] eqn:E1; [|discriminate].
    destruct (edit_file_metadata _ fs0 _ _ _) as [fs1|] eqn:E2;
      [|discriminate].
    intros H; inversion H; subst fs1; clear H.
    apply edit_file_metadata_frame in E1 as [_ E1].
    apply edit_file_metadata_frame in E2 as [_ E2].
    rewrite E2 by (intros f Hf; apply Hm, in_or_app; now right).
    rewrite E1 by (intros f Hf; apply Hm, in_or_app; now left).
    destruct written as [[name newlines]|]; [|reflexivity].
    apply edit_config_name in Ec; subst name.
    unfold write_file; destruct (String.eqb path _) eqn:Q; [|reflexivity].
    apply String.eqb_eq in Q; contradiction. }
  destruct (arg_mode args); try (inversion H; reflexivity);
    now apply Hedit.
Qed.

(** X29.  When a run in a mode other than [x] comes to its end, each path
    it has changed is one the mode may write: the two files of unknown
    names in mode [u], the change file in mode [c], the config and metadata
    files to edit, or their tagged copies, in mode [r], and these and the
    change file in mode [m]. *)
Theorem main_writes_only_where_it_may (args : arguments)
  (all_std_names metadata_define metadata_request : list string)
  (variable_definition_files scheme_files : list string) (fs fs' : files)
  (path : string) :
  main_func INTERACTIVE entries re_subn json_dump_changes json_dump_names
    json_load create_XML args all_std_names metadata_define metadata_request
    variable_definition_files scheme_files fs
  = inl fs' ->
  ~ may_write args variable_definition_files scheme_files path ->
  fs' path = fs path.
Proof.
  unfold main_func, may_write; intros H Hnot.
  destruct (check_stage _ _ _ _ _ _ _ _ _ _) as [[fs1 bound1]|f] eqn:E1;
    [|discriminate].
  destruct (replay_stage _ _ _ _ _) as [[fs2 bound2]|f] eqn:E2;
    [|discriminate].
  assert (Hfs2 : fs2 = fs1).
  { unfold replay_stage in E2.
    destruct (arg_mode args); try (now inversion E2).
    destruct (fs1 (arg_change_file args)); [|now inversion E2].
    destruct (json_load s); [|discriminate].
    destruct (parse_change_file _ _ _) as [printed [[[c n1] n2] n3]].
    now inversion E2. }
  subst fs2.
  unfold check_stage in E1.
  destruct (arg_mode args) eqn:Hmode.
  - (* u *)
    unfold edit_stage in H; rewrite Hmode in H; inversion H; subst fs'.
    unfold check_unknown_vars in E1.
    destruct (sort_vars all_std_names metadata_define) as [kh uh].
    destruct (sort_vars all_std_names metadata_request) as [kp up].
    inversion E1; subst fs1; cbn [write_dumps fold_left app fst snd].
    unfold write_file.
    destruct (String.eqb path JSON_UNKNOWN_PHYSICS_FILE) eqn:Q1;
      [apply String.eqb_eq in Q1; tauto|].
    destruct (String.eqb path JSON_UNKNOWN_HOST_FILE) eqn:Q2;
      [apply String.eqb_eq in Q2; tauto | reflexivity].
  - (* c *)
    unfold edit_stage in H; rewrite Hmode in H; inversion H; subst fs'.
    destruct (fs (arg_old_standard_name_file args)); [|discriminate].
    destruct (fs (arg_standard_name_file args)); [|discriminate].
    destruct (find_changed_vars _ _ _ _ _ _) as [[[[c n1] n2] n3]|e];
      [|discriminate].
    inversion E1; subst fs1; cbn [truthy JSON_CHG_FILE].
    unfold write_file.
    destruct (String.eqb path _) eqn:Q; [|reflexivity].
    apply String.eqb_eq in Q; contradiction.
  - (* m *)
    assert (Hedit : fs' path = fs1 path).
    { apply (edit_stage_frame args variable_definition_files scheme_files
               fs1 fs' bound2); [assumption | tauto |].
      intros file Hf E; apply Hnot; right; right; eauto. }
    rewrite Hedit.
    destruct (fs (arg_old_standard_name_file args)); [|discriminate].
    destruct (fs (arg_standard_name_file args)); [|discriminate].
    destruct (find_changed_vars _ _ _ _ _ _) as [[[[c n1] n2] n3]|e];
      [|discriminate].
    inversion E1; subst fs1; cbn [truthy JSON_CHG_FILE].
    unfold write_file.
    destruct (String.eqb path _) eqn:Q; [|reflexivity].
    apply String.eqb_eq in Q; tauto.
  - (* r *)
    inversion E1; subst fs1.
    apply (edit_stage_frame args variable_definition_files scheme_files
             fs fs' bound2); [assumption | tauto |].
    intros file Hf E; apply Hnot; right; eauto.
  - (* x *)
    now destruct Hnot.
Qed.

End MainFacts.

Lemma replay_without_change_file_fails_witness :
  main_func false [] whole_text_subn example_dump writelines
    (fun _ => None) (fun fs => Some fs) (example_args mode_r)
    [] [] [] [] ["scheme.F90"] example_files
  = inr (UnboundLocalError "std_name_changes").
Proof.
  apply replay_without_change_file_fails; reflexivity.
Defined.

Lemma main_writes_only_where_it_may_witness :
  write_file example_catalogs JSON_CHG_FILE (example_dump [("foo1", "foo2")])
    "scheme.meta"
  = example_catalogs "scheme.meta".
Proof.
  apply (main_writes_only_where_it_may false [] whole_text_subn example_dump
           writelines (fun _ => None) (fun fs => Some fs)
           (example_args mode_c) [] [] [] [] ["scheme.F90"]
           example_catalogs).
  - vm_compute; reflexivity.
  - unfold may_write; cbn; discriminate.
Defined.

(* ===================================================================== *)
(** * The case of the recorded names *)
(* ===================================================================== *)

Lemma holds_marker_is_decl line :
  is_decl (str_lower line) = true <-> holds_marker line.
Proof.
  split.
  - apply str_in_lower_inv.
  - intros (marker & Hm & Hin); unfold is_decl.
    rewrite <- Hm; now apply str_in_lower.
Qed.

Lemma no_quote_cons c s :
  no_quote (String c s) = negb (Ascii.eqb c dquote) && no_quote s.
Proof.
  unfold no_quote; cbn [list_ascii_of_string existsb].
  now rewrite negb_orb, (Ascii.eqb_sym dquote c).
Qed.

Lemma str_split_dquote_cases s :
  (no_quote s = true /\ str_split dquote s = [s])
  \/ (exists w s',
        s = String.append w (String dquote s')
        /\ no_quote w = true
        /\ str_split dquote s = w :: str_split dquote s').
Proof.
  induction s as [|c s IH].
  - left; split; reflexivity.
  - cbn [str_split]; rewrite no_quote_cons.
    destruct (Ascii.eqb c dquote) eqn:E.
    + apply Ascii.eqb_eq in E; subst c.
      right; exists EmptyString, s; repeat split.
    + destruct IH as [[Hn ->]|(w & s' & -> & Hn & ->)].
      * left; split; [exact Hn | reflexivity].
      * right; exists (String c w), s'; repeat split.
        rewrite no_quote_cons, E; exact Hn.
Qed.

Lemma str_split_before before s :
  no_quote before = true ->
  str_split dquote (String.append before (String dquote s))
  = before :: str_split dquote s.
Proof.
  induction before as [|c before IH]; intros Hn.
  - cbn [String.append str_split]; now rewrite Ascii.eqb_refl.
  - rewrite no_quote_cons in Hn; apply andb_true_iff in Hn as [Hc Hn].
    apply negb_true_iff in Hc.
    cbn [String.append str_split]; rewrite Hc, (IH Hn); reflexivity.
Qed.

Lemma str_split_plain s :
  no_quote s = true -> str_split dquote s = [s].
Proof.
  induction s as [|c s IH]; intros Hn; [reflexivity|].
  rewrite no_quote_cons in Hn; apply andb_true_iff in Hn as [Hc Hn].
  apply negb_true_iff in Hc.
  cbn [str_split]; rewrite Hc, (IH Hn); reflexivity.
Qed.

Lemma quoted_name_between line token :
  quoted_name line = Ok token <-> between_quotes line token.
Proof.
  unfold quoted_name, list_index; split.
  - intros H.
    destruct (str_split_dquote_cases line)
      as [[_ E]|(before & s' & -> & Hb & E)]; rewrite E in H;
      [discriminate|].
    cbn [nth_error] in H.
    destruct (str_split_dquote_cases s')
      as [[Hn E']|(w & s'' & -> & Hw & E')]; rewrite E' in H;
      cbn [nth_error] in H; inversion H; subst.
    + exists before, EmptyString; rewrite append_empty_r; auto.
    + exists before, (String dquote s''); repeat split; eauto.
  - intros (before & rest & -> & Hb & Ht & Hrest).
    rewrite (str_split_before _ _ Hb); cbn [nth_error].
    destruct Hrest as [->|(rest' & ->)].
    + now rewrite append_empty_r, (str_split_plain _ Ht).
    + now rewrite (str_split_before _ _ Ht).
Qed.

Lemma lower_ascii_sign (c : ascii) (sign : string) :
  sign = "-" \/ sign = "+" ->
  String (lower_ascii c) EmptyString = sign -> String c EmptyString = sign.
Proof.
  intros [->| ->] H; inversion H as [Hc]; clear H; f_equal;
    destruct c as [[] [] [] [] [] [] [] []]; vm_compute in Hc |- *;
    congruence.
Qed.

Lemma str_first_lower line sign :
  sign = "-" \/ sign = "+" ->
  str_first (str_lower line) = Ok sign -> str_first line = Ok sign.
Proof.
  intros Hs; destruct line as [|c s]; cbn; [discriminate|].
  intros H; inversion H as [Hc]; f_equal.
  rewrite Hc; now apply (lower_ascii_sign c sign).
Qed.

Lemma name_of_lower_token sign diff_lines n :
  sign = "-" \/ sign = "+" ->
  name_of (signed_lines sign diff_lines) n ->
  lower_token_of sign diff_lines n.
Proof.
  intros Hs (l & Hl & Hd & Hq).
  unfold signed_lines in Hl; apply filter_In in Hl as [Hl Hf].
  apply in_map_iff in Hl as (line & <- & Hin).
  rewrite quoted_name_lower in Hq.
  apply bind_Ok in Hq as (token & Hq & E); inversion E; subst n.
  exists line, token; repeat split; auto.
  - apply str_first_lower; [assumption|].
    destruct (str_first (str_lower line)) as [c|e]; [|discriminate].
    now apply String.eqb_eq in Hf; subst.
  - now apply holds_marker_is_decl.
  - now apply quoted_name_between.
Qed.

Lemma tokens_of_collect lines tokens :
  tokens_of lines tokens ->
  collect_names (map str_lower lines) = Ok (map str_lower tokens).
Proof.
  induction 1 as [|line lines token tokens Hm Hq _ IH
                 | line lines tokens Hm _ IH]; cbn [map];
    [reflexivity|idtac|idtac]; rewrite collect_names_cons.
  - apply holds_marker_is_decl in Hm; rewrite Hm.
    apply quoted_name_between in Hq.
    rewrite quoted_name_lower, Hq; cbn [Py.bind]; now rewrite IH.
  - destruct (is_decl (str_lower line)) eqn:E; [|exact IH].
    apply holds_marker_is_decl in E; contradiction.
Qed.

Lemma tokens_of_aligned minus_lines plus_lines :
  Forall2 (fun m p => holds_marker m <-> holds_marker p)
    minus_lines plus_lines ->
  Forall2 (fun m p => is_decl m = is_decl p)
    (map str_lower minus_lines) (map str_lower plus_lines).
Proof.
  induction 1 as [|m p ms ps Hmp _ IH]; cbn [map]; constructor; auto.
  destruct (is_decl (str_lower m)) eqn:Em, (is_decl (str_lower p)) eqn:Ep;
    try reflexivity.
  - apply holds_marker_is_decl, Hmp, holds_marker_is_decl in Em; congruence.
  - apply holds_marker_is_decl, Hmp, holds_marker_is_decl in Ep; congruence.
Qed.

(** C8, as the script has it.  Every diff line is put in lower case
    before anything else is done with it, so that the outcome of the first
    pass is that of the lower-cased diff; a line counts as a declaration
    line exactly when it holds the marker in some letter case; and the name
    taken from a line is the token between its first two double quotes in
    lower case.  So every name in a record of the first pass is the token,
    in lower case, of a marked line of the diff with the matching sign; a
    hunk with lines on one side gives one record for each token of its
    marked lines, in lower case and in order; a hunk whose marked lines
    face marked lines gives the index-wise pairs of the lower-cased tokens;
    and a removed declaration that shouts its marker and spells its name
    [Air_Temp] is recorded as the removal of [air_temp]. *)
Theorem extracted_name_is_lower_cased :
  (forall INTERACTIVE entries diff_lines,
      first_pass INTERACTIVE entries diff_lines
      = first_pass INTERACTIVE entries (map str_lower diff_lines))
  /\ (forall line,
        is_decl (str_lower line) = true
        <-> exists marker,
              str_lower marker = "standard_name name="
              /\ str_in marker line = true)
  /\ (forall line,
        quoted_name (str_lower line)
        = (n <- quoted_name line ;; Ok (str_lower n)))
  /\ (forall line token,
        quoted_name line = Ok token <-> between_quotes line token)
  /\ (forall INTERACTIVE entries diff_lines out,
        first_pass INTERACTIVE entries diff_lines = Ok out ->
        forall r, In r (fst out) ->
          (fst r = EmptyString \/ lower_token_of "-" diff_lines (fst r))
          /\ (snd r = EmptyString \/ lower_token_of "+" diff_lines (snd r)))
  /\ (forall INTERACTIVE entries changes lines tokens,
        tokens_of lines tokens ->
        process_diff_lines INTERACTIVE entries changes
          [] (map str_lower lines)
        = Ok (changes ++ map (fun a => (EmptyString, str_lower a)) tokens,
              entries)
        /\ process_diff_lines INTERACTIVE entries changes
             (map str_lower lines) []
           = Ok (changes ++ map (fun r => (str_lower r, EmptyString)) tokens,
                 entries))
  /\ (forall INTERACTIVE entries changes minus_lines plus_lines R A,
        Forall2 (fun m p => holds_marker m <-> holds_marker p)
          minus_lines plus_lines ->
        tokens_of minus_lines R ->
        tokens_of plus_lines A ->
        process_diff_lines INTERACTIVE entries changes
          (map str_lower minus_lines) (map str_lower plus_lines)
        = Ok (changes ++ combine (map str_lower R) (map str_lower A),
              entries))
  /\ find_changed_vars false [] "old.xml" "new.xml"
       [shouted_decl "Air_Temp"; decl "kept"] [decl "kept"]
     = Ok ([("air_temp", EmptyString)], 0, 0, 1).
Proof.
  split; [|split; [|split; [|split; [|split; [|split; [|split]]]]]].
  - intros I entries diff_lines; unfold first_pass.
    rewrite for_each_map.
    rewrite (for_each_ext (fun s x => diff_line_step I s (str_lower x))
               (diff_line_step I)); [reflexivity|].
    intros; apply diff_line_step_lower.
  - intros line; apply holds_marker_is_decl.
  - apply quoted_name_lower.
  - apply quoted_name_between.
  - intros I entries diff_lines out H r Hr.
    apply first_pass_from_lines in H.
    rewrite Forall_forall in H; destruct (H r Hr) as [Ho Hn].
    split; [destruct Ho as [Ho|Ho] | destruct Hn as [Hn|Hn]]; auto;
      right; apply name_of_lower_token; auto.
  - intros I entries changes lines tokens Ht.
    apply tokens_of_collect in Ht.
    destruct (sided_hunk_runs I entries changes (map str_lower lines))
      as [-> ->].
    rewrite Ht; cbn [Py.bind]; now rewrite !map_map.
  - intros I entries changes minus_lines plus_lines R A Hal HR HA.
    apply tokens_of_aligned in Hal.
    apply tokens_of_collect in HR, HA.
    now destruct (aligned_hunk_pairs I entries changes _ _ _ _ Hal HR HA).
  - vm_compute; reflexivity.
Qed.

Lemma extracted_name_is_lower_cased_witness :
  process_diff_lines false [] []
    [] (map str_lower [String "+"%char (shouted_decl "Air_Temp")])
  = Ok ([] ++ map (fun a => (EmptyString, str_lower a)) ["Air_Temp"], [])
  /\ process_diff_lines false [] []
       (map str_lower [String "+"%char (shouted_decl "Air_Temp")]) []
     = Ok ([] ++ map (fun r => (str_lower r, EmptyString)) ["Air_Temp"], []).
Proof.
  apply (proj1 (proj2 (proj2 (proj2 (proj2 (proj2
           extracted_name_is_lower_cased)))))).
  apply tokens_decl; [| |apply tokens_nil].
  - exists "Standard_Name NAME="; split; reflexivity.
  - exists "+  <Standard_Name NAME=",
      (String dquote (String ">"%char (String newline EmptyString))).
    repeat split; eauto.
Defined.

(** C8 as stated fails: the name recorded for a removed declaration of
    [Air_Temperature] is [air_temperature]. *)
Lemma recorded_name_loses_case :
  quoted_name (decl "Air_Temperature") = Ok "Air_Temperature"
  /\ between_quotes (decl "Air_Temperature") "Air_Temperature"
  /\ find_changed_vars false [] "old.xml" "new.xml"
       [decl "Air_Temperature"] []
     = Ok ([("air_temperature", EmptyString)], 0, 0, 1)
  /\ "air_temperature" <> "Air_Temperature".
Proof.
  split; [reflexivity|]; split; [|split; [vm_compute; reflexivity|]].
  - exists "  <standard_name name=",
      (String dquote (String ">"%char (String newline EmptyString))).
    repeat split; eauto.
  - discriminate.
Qed.
